(** * A hash map whose chains are runs of one doubly-linked list

    Shallow embedding of the class templates [List] (the node store) and
    [UnorderedMap] (the hash map built on it).

    Modelling decisions, all taken from the source:
    - a [BaseNode*] is either the address of the list's own [fake_node_]
      (the value of [end()]) or the address of a heap [Node]; an iterator
      is such a pointer ([iter]).  The allocator of a list hands out
      addresses that it has not handed out before; an iterator is only
      used with the list it points into;
    - the circular chain [fake_node_.next ... fake_node_] of a list is the
      sequence of its heap nodes, each with its address and its payload;
      [size_] is the length of that chain, since every link increments it
      and every unlink decrements it;
    - [buckets_] is a vector of iterators into [values_]: the addresses
      stored there alias the nodes of the chain, and an address that is
      not in the chain any more is a dangling pointer;
    - [size_t] is [nat] (no wrap-around: sizes and bucket counts stay far
      below [2^64]); [max_factor_] is a positive rational and the
      [double] products, quotients, [std::ceil] and conversions to
      [size_t] are computed exactly on it, which is what IEEE arithmetic
      gives for the default [0.75] on the sizes considered and not for
      every other factor: what is stated of a bucket count or of a
      capacity is stated for maps that keep the default factor;
    - the members that no program can call are left out, each being
      ill-formed once instantiated: the const overload of [find] turns a
      [List::iterator] into an [UnorderedMap::const_iterator], which
      takes two user-defined conversions, the const overload of [at]
      calls it, and [operator[](const Key&)] binds a [Value&] to an
      entry;
    - an operation with undefined behaviour (a division by zero, reading
      through the sentinel or through a dangling pointer, a failed
      [assert]) yields [Undefined]; a C++ exception yields [Thrown] with
      the state it leaves behind.  The only exception modelled is that of
      the constructor of an entry from the arguments of [emplace]; moves
      of keys and values do not throw;
    - [emplace] calls [reserve], [reserve] calls [rehash] and [rehash]
      calls [insert], that is [emplace]: the recursion is bounded by a
      fuel, and fuel 2 is shown to be enough for every call. *)

From stdpp Require Import base tactics option list numbers sorting.

Set Default Proof Using "Type".

(** ** Outcomes of an operation on a state [S] *)

Inductive res (S A : Type) : Type :=
  | Ret (s : S) (a : A)      (* normal return *)
  | Thrown (s : S)           (* an exception leaves the operation *)
  | Undefined                (* undefined behaviour or a failed assert *)
  | OutOfFuel.               (* the fuel of the model is exhausted *)

Arguments Ret {S A} s a.
Arguments Thrown {S A} s.
Arguments Undefined {S A}.
Arguments OutOfFuel {S A}.

Definition bind {S A B} (r : res S A) (k : S → A → res S B) : res S B :=
  match r with
  | Ret s a => k s a
  | Thrown s => Thrown s
  | Undefined => Undefined
  | OutOfFuel => OutOfFuel
  end.

(** Runs an operation of a component of the state. *)
Definition zoom {S S' A} (put : S → S') (r : res S A) : res S' A :=
  match r with
  | Ret s a => Ret (put s) a
  | Thrown s => Thrown (put s)
  | Undefined => Undefined
  | OutOfFuel => OutOfFuel
  end.

Notation "'letr' ( s , x ) := r 'in' k" := (bind r (λ s x, k))
  (at level 10, s name, x name, r at level 100, k at level 200,
   only parsing).
Notation "'leto' x := o 'in' k" :=
  (match o with Some x => k | None => Undefined end)
  (at level 10, x name, o at level 100, k at level 200, only parsing).

(** ** Iterators: a [BaseNode*] *)

Inductive iter : Set :=
  | End                      (* &fake_node_ *)
  | Node (addr : nat).       (* a heap node *)

#[global] Instance iter_eq_dec : EqDecision iter.
Proof. solve_decision. Defined.

(** ** The node store: [List<T, Allocator>] *)

Module List.
Section List.
Context {T : Type}.

(** [chain]: the nodes from [fake_node_.next] up to [fake_node_];
    [fresh]: the next address the allocator hands out. *)
Record t : Type := mk { chain : list (nat * T); fresh : nat }.

Definition empty_list : t := {| chain := []; fresh := 0 |}.

Definition size (l : t) : nat := length (chain l).

Definition is_empty (l : t) : bool := bool_decide (size l = 0).

Definition begin (l : t) : iter :=
  match chain l with
  | [] => End
  | n :: _ => Node n.1
  end.

Definition end_ (l : t) : iter := End.

(** The nodes met from the node at address [a] on, following [next]. *)
Fixpoint seek (a : nat) (ns : list (nat * T)) : option (list (nat * T)) :=
  match ns with
  | [] => None
  | n :: ns' => if decide (n.1 = a) then Some ns else seek a ns'
  end.

(** The nodes met from [it] up to the sentinel. *)
Definition from (it : iter) (l : t) : option (list (nat * T)) :=
  match it with
  | End => Some []
  | Node a => seek a (chain l)
  end.

(** [operator++]: [node = node->next]. *)
Definition next (it : iter) (l : t) : option iter :=
  match it with
  | End => Some (begin l)
  | Node a =>
      match seek a (chain l) with
      | Some (_ :: n :: _) => Some (Node n.1)
      | Some _ => Some End
      | None => None
      end
  end.

Fixpoint pred (a : nat) (p : iter) (ns : list (nat * T)) : option iter :=
  match ns with
  | [] => None
  | n :: ns' => if decide (n.1 = a) then Some p else pred a (Node n.1) ns'
  end.

(** [operator--]: [node = node->prev]. *)
Definition prev (it : iter) (l : t) : option iter :=
  match it with
  | End => Some (match last (chain l) with Some n => Node n.1 | None => End end)
  | Node a => pred a End (chain l)
  end.

(** [operator*]: the payload of a heap node; the sentinel has none. *)
Definition deref (it : iter) (l : t) : option T :=
  match it with
  | End => None
  | Node a =>
      match seek a (chain l) with
      | Some (n :: _) => Some n.2
      | _ => None
      end
  end.

(** Links node [n] between the node at address [a] and its predecessor. *)
Fixpoint link (a : nat) (n : nat * T) (ns : list (nat * T))
  : option (list (nat * T)) :=
  match ns with
  | [] => None
  | m :: ns' => if decide (m.1 = a) then Some (n :: ns)
                else (m ::.) <$> link a n ns'
  end.

Fixpoint unlink (a : nat) (ns : list (nat * T)) : option (list (nat * T)) :=
  match ns with
  | [] => None
  | m :: ns' => if decide (m.1 = a) then Some ns'
                else (m ::.) <$> unlink a ns'
  end.

(** [emplace(iter, args...)]: [c] is the outcome of constructing the
    payload from [args], [None] when the constructor throws.  The node
    is linked only after a successful construction. *)
Definition emplace (it : iter) (c : option T) (l : t) : res t unit :=
  (* current = iter.node; previous = (--iter).node *)
  leto previous := prev it l in
  match c with
  | None => Thrown l
  | Some x =>
      let new_node := (fresh l, x) in
      leto ns := (match it with
                 | End => Some (chain l ++ [new_node])
                 | Node a => link a new_node (chain l)
                 end) in
      Ret {| chain := ns; fresh := S (fresh l) |} tt
  end.

Definition emplace_back (c : option T) (l : t) : res t unit :=
  emplace (end_ l) c l.

Definition emplace_front (c : option T) (l : t) : res t unit :=
  emplace (begin l) c l.

(** [erase(iter)]: destroys the node and closes the chain around it. *)
Definition erase (it : iter) (l : t) : res t unit :=
  match it with
  | End => Undefined
  | Node a =>
      leto ns := unlink a (chain l) in
      Ret {| chain := ns; fresh := fresh l |} tt
  end.

Definition pop_front (l : t) : res t unit := erase (begin l) l.

Definition pop_back (l : t) : res t unit :=
  leto it := prev (end_ l) l in erase it l.

(** [operator==].  The loop header is
    [for (; it_1 != cend() && it_2 != list.cend(); ++it_1, ++it_1)]:
    it advances [it_1] twice and never advances [it_2]. *)
Fixpoint equal_loop `{EqDecision T} (fuel : nat) (l1 l2 : t)
    (it_1 it_2 : iter) : res unit bool :=
  if decide (it_1 ≠ end_ l1 ∧ it_2 ≠ end_ l2) then
    match fuel with
    | 0 => OutOfFuel
    | S fuel' =>
        leto x1 := deref it_1 l1 in
        leto x2 := deref it_2 l2 in
        if decide (x1 ≠ x2) then Ret () false
        else
          leto it := next it_1 l1 in
          leto it := next it l1 in
          equal_loop fuel' l1 l2 it it_2
    end
  else Ret () true.

Definition operator_eq `{EqDecision T} (fuel : nat) (l1 l2 : t)
  : res unit bool :=
  if decide (size l2 ≠ size l1) then Ret () false
  else equal_loop fuel l1 l2 (begin l1) (begin l2).

(** *** The other members of [List] *)

(** [push_back(value)] and [push_front(value)]: [insert(end(), value)]
    and [insert(begin(), value)], that is [emplace] with a copy of
    [value]; [c] is the outcome of that copy. *)
Definition push_back (c : option T) (l : t) : res t unit :=
  emplace (end_ l) c l.

Definition push_front (c : option T) (l : t) : res t unit :=
  emplace (begin l) c l.

(** [while (size_ > bound) pop();] for [pop] one of [pop_back] and
    [pop_front]. *)
Fixpoint pop_while (pop : t → res t unit) (fuel bound : nat) (l : t)
  : res t unit :=
  if decide (bound < size l) then
    match fuel with
    | 0 => OutOfFuel
    | S fuel' => letr (l, _) := pop l in pop_while pop fuel' bound l
    end
  else Ret l ().

(** [clear()]: [while (!is_empty()) pop_back();], at most [size()]
    rounds. *)
Definition clear (l : t) : res t unit := pop_while pop_back (size l) 0 l.

(** [for (const auto& item : list) push_back(item);], with [copy] the
    copy constructor of [T], [None] where it throws. *)
Fixpoint push_all (copy : T → option T) (items : list (nat * T)) (l : t)
  : res t unit :=
  match items with
  | [] => Ret l ()
  | n :: items' =>
      letr (l, _) := push_back (copy n.2) l in push_all copy items' l
  end.

(** [List(const List& list)]: the exception of a copy is caught, the
    new list is cleared, and the constructor returns. *)
Definition copy_construct (copy : T → option T) (list : t) : res t unit :=
  match push_all copy (chain list) empty_list with
  | Thrown l => clear l
  | o => o
  end.

(** [operator=(const List& list)] for [this != &list]. *)
Definition copy_assign (copy : T → option T) (list this : t) : res t unit :=
  let old_size := size this in
  letr (this, _) :=
    (match push_all copy (chain list) this with
     | Thrown this => pop_while pop_back (size this) old_size this
     | o => o
     end) in
  pop_while pop_front (size this) (size list) this.

(** [List(size_t count, const T& value, const Allocator&)], and
    [List(size_t count, const Allocator&)] with [c] the outcome of
    [T()]: [count] times [push_back(value)], respectively
    [emplace(end())]. *)
Fixpoint push_n (c : option T) (count : nat) (l : t) : res t unit :=
  match count with
  | 0 => Ret l ()
  | S count' => letr (l, _) := push_back c l in push_n c count' l
  end.

Definition construct_count (c : option T) (count : nat) : res t unit :=
  push_n c count empty_list.

(** [List(List&& list)]: the state is the pair of the new list and
    the source; the entries are moved one by one and the source is
    cleared. *)
Definition move_construct (list : t) : res (t * t) unit :=
  match push_all Some (chain list) empty_list with
  | Ret this _ => zoom (λ list', (this, list')) (clear list)
  | Thrown this => Thrown (this, list)
  | Undefined => Undefined
  | OutOfFuel => OutOfFuel
  end.

(** [operator=(List&& list)]: [std::swap] of [*this] and [copy], with
    [copy] bound to [list].  [std::swap] move-constructs a temporary
    from [*this] and then move-assigns, which calls this operator
    again. *)
Fixpoint move_assign (fuel : nat) (this list : t) : res (t * t) unit :=
  match fuel with
  | 0 => OutOfFuel
  | S fuel' =>
      (* tmp is move-constructed from *this *)
      letr (s, _) := move_construct this in
      (* *this = std::move(copy); *)
      letr (s1, _) := move_assign fuel' s.2 list in
      (* copy = std::move(tmp); *)
      letr (s2, _) := move_assign fuel' s1.2 s.1 in
      Ret (s1.1, s2.1) ()
  end.

(** The payloads met by a traversal from [begin()] to [end()]. *)
Definition values (l : t) : list T := (chain l).*2.

(** The lists that the members build: the nodes have distinct
    addresses and the allocator has handed out all of them. *)
Definition valid (l : t) : Prop :=
  NoDup (chain l).*1 ∧ Forall (λ a, a < fresh l) (chain l).*1.
End List.
End List.

(** ** The hash map: [UnorderedMap<Key, Value, Hash, Equal, Alloc>] *)

Module UnorderedMap.

(** [max_factor_], a positive rational [num / den]. *)
Record factor : Set := { num : positive; den : positive }.

(** [static_cast<size_t>(n * f)] *)
Definition floor_mul (n : nat) (f : factor) : nat :=
  n * Pos.to_nat (num f) / Pos.to_nat (den f).

(** [static_cast<size_t>(n / f)] *)
Definition floor_div (n : nat) (f : factor) : nat :=
  n * Pos.to_nat (den f) / Pos.to_nat (num f).

(** [std::ceil(n / f)] *)
Definition ceil_div (n : nat) (f : factor) : nat :=
  (n * Pos.to_nat (den f) + (Pos.to_nat (num f) - 1)) / Pos.to_nat (num f).

Definition default_factor : factor := {| num := 3; den := 4 |}.
Definition growing_coefficient : nat := 2.
Definition default_start_size : nat := 16.

Section UnorderedMap.
Context {Key Value : Type} `{EqDecision Key}.
(** [hash_]; [equal_] is [std::equal_to<Key>], the decidable equality. *)
Variable hash_ : Key → nat.

(** [using NodeType = std::pair<const Key, Value>] *)
Local Abbreviation NodeType := (Key * Value)%type.

Record t : Type := mk {
  max_factor_ : factor;
  values_ : List.t (T := NodeType);
  buckets_ : list iter
}.

Definition set_values (m : t) (values : List.t) : t :=
  {| max_factor_ := max_factor_ m; values_ := values;
     buckets_ := buckets_ m |}.

Definition set_buckets (m : t) (buckets : list iter) : t :=
  {| max_factor_ := max_factor_ m; values_ := values_ m;
     buckets_ := buckets |}.

(** [values_.op(...)] *)
Definition on_values {A} (op : List.t → res List.t A) (m : t) : res t A :=
  zoom (set_values m) (op (values_ m)).

(** [UnorderedMap(Alloc alloc = Alloc())] *)
Definition construct : t :=
  {| max_factor_ := default_factor; values_ := List.empty_list;
     buckets_ := [] |}.

Definition size (m : t) : nat := List.size (values_ m).
Definition bucket_count (m : t) : nat := length (buckets_ m).
Definition max_load_factor (m : t) : factor := max_factor_ m.
Definition set_max_load_factor (new_factor : factor) (m : t) : t :=
  {| max_factor_ := new_factor; values_ := values_ m;
     buckets_ := buckets_ m |}.
Definition empty (m : t) : bool := bool_decide (size m = 0).
Definition begin (m : t) : iter := List.begin (values_ m).
Definition end_ (m : t) : iter := List.end_ (values_ m).

(** [hash_(key) % bucket_count()]: undefined without buckets. *)
Definition get_hash (key : Key) (m : t) : option nat :=
  if decide (bucket_count m = 0) then None
  else Some (hash_ key mod bucket_count m).

(** [buckets_[get_hash(key)]] *)
Definition get_iter (key : Key) (m : t) : option iter :=
  hash ← get_hash key m; buckets_ m !! hash.

(** The loop of the non-const [find]: [ns] are the nodes from
    [bucket_begin] up to the sentinel. *)
Fixpoint find_loop (key : Key) (hash : nat) (m : t)
    (ns : list (nat * NodeType)) : option iter :=
  match ns with
  | [] => Some (end_ m)
  | n :: ns' =>
      h ← get_hash n.2.1 m;
      if decide (h = hash) then
        if decide (n.2.1 = key) then Some (Node n.1)
        else find_loop key hash m ns'
      else Some (end_ m)
  end.

(** [iterator find(const Key&)] *)
Definition find (key : Key) (m : t) : option iter :=
  if empty m then Some (end_ m)
  else
    hash ← get_hash key m;
    bucket_begin ← get_iter key m;
    ns ← List.from bucket_begin (values_ m);
    find_loop key hash m ns.

(** [emplace(args...)], given the [reserve] it calls; [c] is the outcome
    of constructing the scratch [std::pair<Key, Value>] from [args]. *)
Definition emplace_body (reserve : nat → t → res t unit)
    (c : option NodeType) (m : t) : res t (iter * bool) :=
  letr (m, _) :=
    (* size() + 1 > static_cast<size_t>(bucket_count() * max_load_factor()) *)
    (if decide (floor_mul (bucket_count m) (max_load_factor m) < size m + 1)
     then reserve (max default_start_size (growing_coefficient * size m)) m
     else Ret m ()) in
  match c with
  | None => Thrown m
  | Some node =>
      leto iter := find node.1 m in
      if decide (iter ≠ end_ m) then Ret m (iter, false)
      else
        leto iter := get_iter node.1 m in
        leto hash := get_hash node.1 m in
        if decide (iter = end_ m) then
          letr (m, _) := on_values (List.emplace_front (Some node)) m in
          let m := set_buckets m (<[hash := List.begin (values_ m)]> (buckets_ m)) in
          Ret m (begin m, true)
        else
          letr (m, _) := on_values (List.emplace iter (Some node)) m in
          (* --buckets_[hash] *)
          leto head := buckets_ m !! hash in
          leto head := List.prev head (values_ m) in
          let m := set_buckets m (<[hash := head]> (buckets_ m)) in
          leto head := buckets_ m !! hash in
          Ret m (head, true)
  end.

(** First loop of [rehash]: the entries leave [values_] front to back
    and join the back of [copy]. *)
Fixpoint drain (ns : list (nat * NodeType)) (copy : List.t)
  : res (list (nat * NodeType) * List.t) unit :=
  match ns with
  | [] => Ret ([], copy) ()
  | n :: ns' =>
      match List.emplace_back (Some n.2) copy with
      | Ret copy _ => drain ns' copy
      | Thrown copy => Thrown (ns, copy)
      | Undefined => Undefined
      | OutOfFuel => OutOfFuel
      end
  end.

(** The loop that, while [src] is not empty, emplaces the entry at
    [src.begin()] and pops it, shared by [rehash] and the move constructor;
    [items] are the nodes still in [src]. *)
Fixpoint reinsert (emplace : option NodeType → t → res t (iter * bool))
    (items : list (nat * NodeType)) (m : t)
  : res (t * list (nat * NodeType)) unit :=
  match items with
  | [] => Ret (m, []) ()
  | n :: items' =>
      match emplace (Some n.2) m with
      | Ret m _ => reinsert emplace items' m
      | Thrown m => Thrown (m, items)
      | Undefined => Undefined
      | OutOfFuel => OutOfFuel
      end
  end.

(** [rehash(count)], given the [emplace] that [insert] forwards to. *)
Definition rehash_body (emplace : option NodeType → t → res t (iter * bool))
    (count : nat) (m : t) : res t unit :=
  let count := max count (floor_div (size m) (max_load_factor m)) in
  if decide (count = bucket_count m) then Ret m ()
  else
    let fresh := List.fresh (values_ m) in
    letr (m, copy) :=
      (match drain (List.chain (values_ m)) List.empty_list with
       | Ret (ns, copy) _ =>
           Ret (set_values m {| List.chain := ns; List.fresh := fresh |}) copy
       | Thrown (ns, _) =>
           Thrown (set_values m {| List.chain := ns; List.fresh := fresh |})
       | Undefined => Undefined
       | OutOfFuel => OutOfFuel
       end) in
    let m := set_buckets m (replicate count (List.end_ (values_ m))) in
    letr (m, _) := zoom fst (reinsert emplace (List.chain copy) m) in
    Ret m ().

(** [reserve(count)]: [rehash(std::ceil(count / max_load_factor()))] *)
Definition reserve_body (rehash : nat → t → res t unit)
    (count : nat) (m : t) : res t unit :=
  rehash (ceil_div count (max_load_factor m)) m.

(** [emplace] calls [reserve], which calls [rehash], which calls
    [insert] and so [emplace] again: the fuel bounds the depth of that
    nesting. *)
Fixpoint emplace (fuel : nat) (c : option NodeType) (m : t)
  : res t (iter * bool) :=
  match fuel with
  | 0 => OutOfFuel
  | S fuel' =>
      emplace_body (reserve_body (rehash_body (emplace fuel'))) c m
  end.

Definition rehash (fuel : nat) (count : nat) (m : t) : res t unit :=
  rehash_body (emplace fuel) count m.

Definition reserve (fuel : nat) (count : nat) (m : t) : res t unit :=
  reserve_body (rehash fuel) count m.

(** [insert(const NodeType&)] and [insert(NodeType&&)] *)
Definition insert (fuel : nat) (node : NodeType) (m : t)
  : res t (iter * bool) :=
  emplace fuel (Some node) m.

(** [iterator erase(const_iterator iter)] *)
Definition erase (it : iter) (m : t) : res t iter :=
  leto entry := List.deref it (values_ m) in
  leto hash := get_hash entry.1 m in
  leto nxt := List.next it (values_ m) in
  leto result :=
    (if decide (nxt ≠ end_ m) then
       e ← List.deref nxt (values_ m);
       result ← find e.1 m;
       (* assert(result != end()) *)
       if decide (result ≠ end_ m) then Some result else None
     else Some (end_ m)) in
  leto head := buckets_ m !! hash in
  leto buckets :=
    (if decide (it = head) then
       if decide (result ≠ end_ m) then
         e ← List.deref result (values_ m);
         h ← get_hash e.1 m;
         if decide (h = hash) then Some (<[hash := result]> (buckets_ m))
         else Some (<[hash := List.end_ (values_ m)]> (buckets_ m))
       else Some (<[hash := List.end_ (values_ m)]> (buckets_ m))
     else Some (buckets_ m)) in
  letr (m, _) := on_values (List.erase it) (set_buckets m buckets) in
  Ret m result.

(** [operator[](Key&&)]: the value of the entry that [emplace]
    returns. *)
Definition operator_index_move (fuel : nat) (default_value : Value)
    (key : Key) (m : t) : res t iter :=
  letr (m, r) := emplace fuel (Some (key, default_value)) m in
  leto entry := List.deref r.1 (values_ m) in
  Ret m r.1.

(** [UnorderedMap(UnorderedMap&& map)]: the state is the pair of the
    new map and the source. *)
Definition move_construct (fuel : nat) (map : t) : res (t * t) unit :=
  let this := construct in
  let this := set_buckets this (replicate (bucket_count map) (List.end_ (values_ this))) in
  let map := set_buckets map [] in
  zoom (λ s, (s.1, set_values map {| List.chain := s.2;
                                     List.fresh := List.fresh (values_ map) |}))
       (reinsert (emplace fuel) (List.chain (values_ map)) this).

(** The entries met by a traversal from [begin()] to [end()]. *)
Definition entries (m : t) : list NodeType := (List.chain (values_ m)).*2.
Definition keys (m : t) : list Key := (entries m).*1.

(** *** What the operations maintain *)

(** The bucket of a node under the current bucket count. *)
Definition bucket_of (m : t) (n : nat * NodeType) : nat :=
  hash_ n.2.1 mod bucket_count m.

(** [head] is the chain head of bucket [b] in the chain [ns]: with no
    head no node is in bucket [b]; otherwise the nodes of bucket [b] are
    the head and the nodes that follow it without interruption. *)
Definition run_at (bk : nat * NodeType → nat) (ns : list (nat * NodeType))
    (b : nat) (head : iter) : Prop :=
  match head with
  | End => Forall (λ n, bk n ≠ b) ns
  | Node a =>
      ∃ pre e run post,
        ns = pre ++ (a, e) :: run ++ post ∧
        Forall (λ n, bk n ≠ b) pre ∧
        Forall (λ n, bk n = b) ((a, e) :: run) ∧
        Forall (λ n, bk n ≠ b) post
  end.

Record wf (m : t) : Prop := {
  wf_addrs : NoDup (List.chain (values_ m)).*1;
  wf_fresh : Forall (λ a, a < List.fresh (values_ m)) (List.chain (values_ m)).*1;
  wf_keys : NoDup (keys m);
  wf_buckets : List.chain (values_ m) ≠ [] → 0 < bucket_count m;
  wf_runs : ∀ b head, buckets_ m !! b = Some head →
              run_at (bucket_of m) (List.chain (values_ m)) b head
}.

Fixpoint take_while {A} (p : A → bool) (l : list A) : list A :=
  match l with
  | [] => []
  | x :: l' => if p x then x :: take_while p l' else []
  end.

(** The maximal run of consecutive entries that starts at the head of
    bucket [b]: the head node and the nodes after it, as long as they
    are in the bucket of the head node. *)
Definition run_of (b : nat) (m : t) : list (nat * NodeType) :=
  match buckets_ m !! b with
  | Some head =>
      match List.from head (values_ m) with
      | Some (n :: ns) =>
          n :: take_while
                 (λ n', bool_decide (bucket_of m n' = bucket_of m n)) ns
      | _ => []
      end
  | None => []
  end.

Definition contiguous (m : t) : Prop :=
  ∀ b, b < bucket_count m →
    (∀ n, n ∈ run_of b m → bucket_of m n = b) ∧
    (∀ n, n ∈ List.chain (values_ m) → bucket_of m n = b → n ∈ run_of b m).

(** The capacity test of [emplace] does not ask for growth. *)
Definition roomy (m : t) : Prop :=
  size m + 1 ≤ floor_mul (bucket_count m) (max_load_factor m).

(** [find(key)] returns an iterator to an entry [(key, v)]. *)
Definition maps_to (m : t) (key : Key) (v : Value) : Prop :=
  ∃ a, find key m = Some (Node a) ∧
       List.deref (Node a) (values_ m) = Some (key, v).

(** [m'] holds the entries of [m]: as many, the same up to their order
    in the traversal, and every key of [m] is found with its value. *)
Definition same_content (m m' : t) : Prop :=
  size m' = size m ∧ entries m' ≡ₚ entries m ∧
  ∀ k v, maps_to m k v → maps_to m' k v.

(** The map an outcome leaves behind. *)
Definition state_of {A} (o : res t A) : t :=
  match o with
  | Ret m _ | Thrown m => m
  | _ => construct
  end.

(** What a call of [emplace] achieves on [m]: with a failing
    constructor the exception leaves a map with the entries of [m];
    otherwise the call returns the node of the key, after linking a
    node for it when the key is new. *)
Definition emplace_post (m : t) (c : option NodeType)
    (o : res t (iter * bool)) : Prop :=
  match c with
  | None =>
      ∃ m', o = Thrown m' ∧ wf m' ∧ entries m' ≡ₚ entries m ∧
            max_factor_ m' = max_factor_ m ∧ (roomy m → m' = m)
  | Some (k, v) =>
      ∃ m' a (isnew : bool),
        o = Ret m' (Node a, isnew) ∧ wf m' ∧
        max_factor_ m' = max_factor_ m ∧
        (roomy m → bucket_count m' = bucket_count m) ∧
        (if isnew then
           ((k ∉ keys m) ∧ entries m' ≡ₚ (k, v) :: entries m ∧
            (a, (k, v)) ∈ List.chain (values_ m'))
         else
           (∃ v0, (k, v0) ∈ entries m ∧ entries m' ≡ₚ entries m ∧
                  (a, (k, v0)) ∈ List.chain (values_ m') ∧
                  (roomy m → m' = m)))
  end.

(** [ins] behaves as [emplace] on the well-formed maps of [D]. *)
Definition good (D : t → Prop)
    (ins : option NodeType → t → res t (iter * bool)) : Prop :=
  ∀ m c, wf m → D m → emplace_post m c (ins c m).

(** What [rehash] and [reserve] achieve on [m]. *)
Definition rehash_post (m : t) (o : res t unit) : Prop :=
  ∃ m', o = Ret m' () ∧ wf m' ∧ entries m' ≡ₚ entries m ∧
        max_factor_ m' = max_factor_ m.

(** The map that [rehash] refills: no entry, [count] empty buckets. *)
Definition drained (count : nat) (m : t) : t :=
  set_buckets
    (set_values m {| List.chain := [];
                     List.fresh := List.fresh (values_ m) |})
    (replicate count End).

(** The maps a program can build. *)
Inductive reachable : t → Prop :=
  | reach_construct : reachable construct
  | reach_max_load_factor f m :
      reachable m → reachable (set_max_load_factor f m)
  | reach_emplace fuel c m m' r :
      reachable m → emplace fuel c m = Ret m' r → reachable m'
  | reach_emplace_thrown fuel c m m' :
      reachable m → emplace fuel c m = Thrown m' → reachable m'
  | reach_erase it m m' r :
      reachable m → erase it m = Ret m' r → reachable m'
  | reach_rehash fuel count m m' :
      reachable m → rehash fuel count m = Ret m' () → reachable m'
  | reach_reserve fuel count m m' :
      reachable m → reserve fuel count m = Ret m' () → reachable m'
  | reach_index_move fuel v key m m' r :
      reachable m → operator_index_move fuel v key m = Ret m' r →
      reachable m'
  | reach_move_new fuel m this m' :
      reachable m → move_construct fuel m = Ret (this, m') () →
      reachable this
  | reach_move_old fuel m this m' :
      reachable m → move_construct fuel m = Ret (this, m') () →
      reachable m'.

(** *** The other members of [UnorderedMap] *)

(** [Value& at(const Key&)]: [std::out_of_range] for a key that [find]
    misses. *)
Definition at_ (key : Key) (m : t) : res t Value :=
  leto result := find key m in
  if decide (result = end_ m) then Thrown m
  else
    leto entry := List.deref result (values_ m) in
    Ret m entry.2.

(** [insert(InputIt begin, InputIt end)]: [insert] of every element of
    the range, in order. *)
Fixpoint insert_range (fuel : nat) (items : list NodeType) (m : t)
  : res t unit :=
  match items with
  | [] => Ret m ()
  | node :: items' =>
      letr (m, _) := insert fuel node m in insert_range fuel items' m
  end.

(** The loop of [erase(first, second)]:
    [while (first != second) { iter = erase(first); first = iter; }] *)
Fixpoint erase_range_loop (fuel : nat) (first second it : iter) (m : t)
  : res t iter :=
  if decide (first ≠ second) then
    match fuel with
    | 0 => OutOfFuel
    | S fuel' =>
        letr (m, it) := erase first m in
        erase_range_loop fuel' it second it m
    end
  else Ret m it.

(** [iterator erase(const_iterator first, const_iterator second)] *)
Definition erase_range (fuel : nat) (first second : iter) (m : t)
  : res t iter :=
  erase_range_loop fuel first second (end_ m) m.

(** [operator=(UnorderedMap&& map)] for [this != &map]: the state is
    the pair of [*this] and [map]. *)
Definition move_assign (fuel : nat) (this map : t) : res (t * t) unit :=
  match on_values List.clear this with
  | Ret this _ =>
      let this :=
        set_buckets this
          (replicate (bucket_count map) (List.end_ (values_ this))) in
      let map := set_buckets map [] in
      zoom (λ s, (s.1, set_values map
                         {| List.chain := s.2;
                            List.fresh := List.fresh (values_ map) |}))
           (reinsert (emplace fuel) (List.chain (values_ map)) this)
  | Thrown this => Thrown (this, map)
  | Undefined => Undefined
  | OutOfFuel => OutOfFuel
  end.

(** [operator=(UnorderedMap&& map)] for [this == &map]: the entries
    are cleared before the loop looks for entries to move. *)
Definition move_assign_self (m : t) : res t unit :=
  letr (m, _) := on_values List.clear m in
  let m := set_buckets m (replicate (bucket_count m) (List.end_ (values_ m))) in
  (* map.buckets_.clear() *)
  let m := set_buckets m [] in
  (* map.values_ is empty: the loop moves nothing *)
  if List.is_empty (values_ m) then Ret m () else Undefined.

(** The maps a program can build with all the members modelled. *)
Inductive built : t → Prop :=
  | built_reachable m : reachable m → built m
  | built_max_load_factor f m : built m → built (set_max_load_factor f m)
  | built_emplace fuel c m m' r :
      built m → emplace fuel c m = Ret m' r → built m'
  | built_emplace_thrown fuel c m m' :
      built m → emplace fuel c m = Thrown m' → built m'
  | built_erase it m m' r : built m → erase it m = Ret m' r → built m'
  | built_rehash fuel count m m' :
      built m → rehash fuel count m = Ret m' () → built m'
  | built_reserve fuel count m m' :
      built m → reserve fuel count m = Ret m' () → built m'
  | built_index_move fuel v key m m' r :
      built m → operator_index_move fuel v key m = Ret m' r → built m'
  | built_move_new fuel m this m' :
      built m → move_construct fuel m = Ret (this, m') () → built this
  | built_move_old fuel m this m' :
      built m → move_construct fuel m = Ret (this, m') () → built m'
  | built_insert_range fuel items m m' :
      built m → insert_range fuel items m = Ret m' () → built m'
  | built_erase_range fuel first second m m' r :
      built m → erase_range fuel first second m = Ret m' r → built m'
  | built_move_assign_new fuel this map this' map' :
      built this → built map →
      move_assign fuel this map = Ret (this', map') () → built this'
  | built_move_assign_old fuel this map this' map' :
      built this → built map →
      move_assign fuel this map = Ret (this', map') () → built map'
  | built_move_assign_self m m' :
      built m → move_assign_self m = Ret m' () → built m'.
End UnorderedMap.
End UnorderedMap.

(** ** The bump allocator: [StackStorage<N>] and [StackAllocator<T, N>]

    Addresses are numbers; [alignof(T)] is a power of two [2 ^ k]. *)

Module StackStorage.
Section StackStorage.
Local Open Scope Z_scope.

(** The template parameter. *)
Variable N : Z.

(** Conversion to [size_t]. *)
Definition to_size_t (z : Z) : Z := z mod 2 ^ 64.

(** [base] is the address of [storage_[0]]; [size_] counts the bytes
    that are not handed out. *)
Record t : Type := mk { base : Z; size_ : Z }.

(** [StackStorage()] for an array placed at [base]. *)
Definition construct (base : Z) : t := {| base := base; size_ := N |}.

Definition used (s : t) : Z := to_size_t (N - size_ s).

(** [std::align(alignment, size, ptr, space)]: the first multiple of
    [alignment] from [ptr] on and the space left from there, when [size]
    bytes fit; [None] for the null pointer, with [ptr] and [space]
    unchanged. *)
Definition align (alignment size ptr space : Z) : option (Z * Z) :=
  let aligned := (ptr + (alignment - 1)) / alignment * alignment in
  let diff := aligned - ptr in
  if decide (space < size) then None
  else if decide (space - size < diff) then None
  else Some (aligned, space - diff).

(** [create_with_alignment<T>(count)] with [alignof(T) = 2 ^ k] and
    [sizeof(T) = sizeof]: the pointer returned, [None] for [nullptr].
    The product [sizeof(T) * count] is one of [size_t]. *)
Definition create_with_alignment (k : nat) (sizeof count : Z) (s : t)
  : t * option Z :=
  let st := base s + used s in
  let size := to_size_t (sizeof * count) in
  match align (2 ^ Z.of_nat k) size st (size_ s) with
  | Some (ptr, space) =>
      ({| base := base s; size_ := space - size |}, Some ptr)
  | None => (s, None)
  end.

(** [StackAllocator<T, N>::allocate(size)] on the storage the allocator
    points to. *)
Definition allocate (k : nat) (sizeof size : Z) (s : t) : t * option Z :=
  create_with_alignment k sizeof size s.

(** [StackAllocator<T, N>::deallocate(pointer, size_t)]: an empty
    body. *)
Definition deallocate (ptr size : Z) (s : t) : t := s.

(** A call on an allocator of the storage: [allocate] for a type with
    [alignof(T) = 2 ^ k] and [sizeof(T) = sizeof], or [deallocate]. *)
Inductive request : Type :=
  | Allocate (k : nat) (sizeof count : Z)
  | Deallocate (ptr size : Z).

(** The blocks that the [allocate] calls of a sequence of requests
    return: the address, with the [sizeof(T) * count] bytes of the
    objects the caller asked room for; a call that returns [nullptr]
    gives none. *)
Fixpoint serve (rs : list request) (s : t) : t * list (Z * Z) :=
  match rs with
  | [] => (s, [])
  | Allocate k sizeof count :: rs' =>
      let '(s, p) := allocate k sizeof count s in
      let '(s', blocks) := serve rs' s in
      (s', match p with
           | Some ptr => (ptr, sizeof * count) :: blocks
           | None => blocks
           end)
  | Deallocate ptr size :: rs' => serve rs' (deallocate ptr size s)
  end.

(** The request is one a caller can make without overflow: the bytes
    of [count] objects are counted by a [size_t]. *)
Definition countable (r : request) : Prop :=
  match r with
  | Allocate k sizeof count =>
      0 ≤ sizeof ∧ 0 ≤ count ∧ sizeof * count < 2 ^ 64
  | Deallocate _ _ => True
  end.
End StackStorage.
End StackStorage.

(** * The deque

    [Deque<T>] keeps its elements in chunks of [chunk_size] slots; the
    vector [data_] holds the chunks, and the coordinates [begin_] and
    [end_], each a chunk index and a slot index, are those of the first
    and of the last element.

    Modelling decisions, all taken from the source:
    - the array of a chunk is a list of [chunk_size] slots, each holding
      a live object or raw memory; [data == nullptr] is [None].  A
      pointer into the array of a chunk is the index of the slot;
    - [int64_t] coordinates are integers; [size_t] values are reduced
      modulo [2 ^ 64] where a difference is converted to [size_t];
    - constructing an object outside the array or through a null [data]
      is undefined.  Destroying what is not a live object of the array
      is undefined for a [T] with a destructor of its own; for a
      trivially destructible [T], such as [int], the call of [~T()] is a
      pseudo-destructor call and does nothing, whatever the pointer;
    - the only exception modelled is that of the copy constructor of an
      element: [None] for the object to construct. *)
Module Deque.
(** [std::is_trivially_destructible_v<T>] *)
Class Destructor (T : Type) : Type := trivially_destructible : bool.

Section Deque.
Context {T : Type} `{!Destructor T}.
Local Open Scope Z_scope.

Definition chunk_size : Z := 32.
Definition init_size : Z := 2.

(** Conversions to [size_t], [int64_t] and [int]. *)
Definition to_size_t (z : Z) : Z := z mod 2 ^ 64.
Definition to_int64 (z : Z) : Z := (z + 2 ^ 63) mod 2 ^ 64 - 2 ^ 63.
Definition to_int (z : Z) : Z := (z + 2 ^ 31) mod 2 ^ 32 - 2 ^ 31.

(** ** [Chunk] *)

Record Chunk : Type := mk_chunk {
  chunk_begin : Z;
  chunk_end : Z;
  data : option (list (option T))
}.

(** [Chunk()] *)
Definition new_chunk : Chunk :=
  {| chunk_begin := 0; chunk_end := 0; data := None |}.

Definition set_data (ch : Chunk) (slots : option (list (option T)))
  : Chunk :=
  {| chunk_begin := chunk_begin ch; chunk_end := chunk_end ch;
     data := slots |}.

Definition set_bounds (ch : Chunk) (b e : Z) : Chunk :=
  {| chunk_begin := b; chunk_end := e; data := data ch |}.

(** [place(index, value)]: [new (data + index) T(value)] *)
Definition place (index : Z) (c : option T) (ch : Chunk)
  : res Chunk unit :=
  match data ch with
  | None => Undefined
  | Some slots =>
      if decide (0 ≤ index < chunk_size) then
        match c with
        | None => Thrown ch
        | Some v =>
            Ret (set_data ch (Some (<[Z.to_nat index := Some v]> slots))) ()
        end
      else Undefined
  end.

(** [~T()] called through a pointer that designates no live object of
    the array: without effect for a trivially destructible [T],
    undefined ([None]) for any other. *)
Definition destroy_nothing (ch : Chunk) : option Chunk :=
  if trivially_destructible (T := T) then Some ch else None.

(** [(data + index)->~T()]: [None] when it is undefined. *)
Definition destroy (index : Z) (ch : Chunk) : option Chunk :=
  match data ch with
  | Some slots =>
      if decide (0 ≤ index) then
        match slots !! Z.to_nat index with
        | Some (Some _) =>
            Some (set_data ch (Some (<[Z.to_nat index := None]> slots)))
        | _ => destroy_nothing ch
        end
      else destroy_nothing ch
  | None => destroy_nothing ch
  end.

(** [Chunk::init(begin, end)]: [reserve()] allocates the array when
    [data] is null. *)
Definition chunk_init (b e : Z) (ch : Chunk) : Chunk :=
  {| chunk_begin := b; chunk_end := e;
     data := match data ch with
             | None => Some (replicate (Z.to_nat chunk_size) None)
             | Some slots => Some slots
             end |}.

(** The loop of [Chunk::fill(value)] from the slot [i] on, for [n]
    slots; when a copy throws, [chunk_end] becomes the slot it was
    for. *)
Fixpoint fill_from (n : nat) (i : Z) (c : option T) (ch : Chunk)
  : res Chunk unit :=
  match n with
  | O => Ret ch ()
  | S n' =>
      match place i c ch with
      | Ret ch _ => fill_from n' (i + 1) c ch
      | Thrown ch => Thrown (set_bounds ch (chunk_begin ch) i)
      | Undefined => Undefined
      | OutOfFuel => OutOfFuel
      end
  end.

(** [Chunk::fill(value)] *)
Definition chunk_fill (c : option T) (ch : Chunk) : res Chunk unit :=
  fill_from (Z.to_nat (chunk_end ch - chunk_begin ch)) (chunk_begin ch)
    c ch.

(** [Chunk::empty()] *)
Definition chunk_empty (ch : Chunk) : bool :=
  bool_decide (chunk_end ch ≤ chunk_begin ch).

(** [Chunk::push_back(val)] *)
Definition chunk_push_back (c : option T) (ch : Chunk) : res Chunk unit :=
  letr (ch, _) := place (chunk_end ch) c ch in
  Ret (set_bounds ch (chunk_begin ch) (chunk_end ch + 1)) ().

(** [Chunk::pop_back()] *)
Definition chunk_pop_back (ch : Chunk) : option Chunk :=
  let ch := set_bounds ch (chunk_begin ch) (chunk_end ch - 1) in
  destroy (chunk_end ch) ch.

(** [Chunk::push_front(val)] *)
Definition chunk_push_front (c : option T) (ch : Chunk) : res Chunk unit :=
  letr (ch, _) := place (chunk_begin ch - 1) c ch in
  Ret (set_bounds ch (chunk_begin ch - 1) (chunk_end ch)) ().

(** [Chunk::pop_front()] *)
Definition chunk_pop_front (ch : Chunk) : option Chunk :=
  ch ← destroy (chunk_begin ch) ch;
  Some (set_bounds ch (chunk_begin ch + 1) (chunk_end ch)).

(** [while (!empty()) pop_back();] with [n] elements to go. *)
Fixpoint pop_all (n : nat) (ch : Chunk) : option Chunk :=
  match n with
  | O => Some ch
  | S n' => ch ← chunk_pop_back ch; pop_all n' ch
  end.

(** [Chunk::clear()], which is also [~Chunk()]. *)
Definition chunk_clear (ch : Chunk) : option Chunk :=
  _ ← pop_all (Z.to_nat (chunk_end ch - chunk_begin ch)) ch;
  Some new_chunk.

(** [this->take(chunk)] for [this != &chunk]: the pair of [*this] and
    [chunk] afterwards. *)
Definition chunk_take (this chunk : Chunk) : option (Chunk * Chunk) :=
  _ ← chunk_clear this;
  Some ({| chunk_begin := chunk_begin chunk; chunk_end := chunk_end chunk;
           data := data chunk |},
        set_data chunk None).

(** The destructors of the chunks of a vector. *)
Fixpoint destroy_all (chunks : list Chunk) : option unit :=
  match chunks with
  | [] => Some ()
  | ch :: chunks' => _ ← chunk_clear ch; destroy_all chunks'
  end.

(** ** [Deque] *)

Record t : Type := mk {
  data_ : list Chunk;
  begin_ : Z * Z;
  end_ : Z * Z
}.

Definition set_data_ (d : t) (chunks : list Chunk) : t :=
  {| data_ := chunks; begin_ := begin_ d; end_ := end_ d |}.
Definition set_begin (d : t) (b : Z * Z) : t :=
  {| data_ := data_ d; begin_ := b; end_ := end_ d |}.
Definition set_end (d : t) (e : Z * Z) : t :=
  {| data_ := data_ d; begin_ := begin_ d; end_ := e |}.

(** [Deque()] *)
Definition construct : t :=
  {| data_ := []; begin_ := (0, 0); end_ := (0, -1) |}.

(** [size()] *)
Definition size (d : t) : Z :=
  if decide ((begin_ d).1 < (end_ d).1) then
    to_size_t (((end_ d).1 - (begin_ d).1 - 1) * chunk_size + chunk_size
               - (begin_ d).2 + (end_ d).2 + 1)
  else to_size_t ((end_ d).2 - (begin_ d).2 + 1).

(** [empty()] *)
Definition empty (d : t) : bool := bool_decide (size d = 0).

(** [clear()] *)
Definition clear (d : t) : option t :=
  _ ← destroy_all (data_ d); Some construct.

(** [data_[i]] *)
Definition chunk_at (i : Z) (chunks : list Chunk) : option Chunk :=
  if decide (0 ≤ i) then chunks !! Z.to_nat i else None.

(** [data_[i].op(...)] for an [op] that may throw. *)
Definition on_chunk (i : Z) (op : Chunk → res Chunk unit) (d : t)
  : res t unit :=
  match chunk_at i (data_ d) with
  | None => Undefined
  | Some ch =>
      zoom (λ ch', set_data_ d (<[Z.to_nat i := ch']> (data_ d))) (op ch)
  end.

(** [data_[i].op(...)] for a [noexcept] [op]. *)
Definition with_chunk (i : Z) (op : Chunk → option Chunk) (d : t)
  : option t :=
  ch ← chunk_at i (data_ d);
  ch' ← op ch;
  Some (set_data_ d (<[Z.to_nat i := ch']> (data_ d))).

(** [ceil_divide(first, second)] *)
Definition ceil_divide (first second : Z) : Z := (first - 1) / second + 1.

(** [data_.resize(count)]: a shorter vector destroys the chunks it
    drops, a longer one gets default-constructed chunks at its end. *)
Definition vector_resize (count : Z) (chunks : list Chunk)
  : option (list Chunk) :=
  if decide (count ≤ Z.of_nat (length chunks)) then
    _ ← destroy_all (drop (Z.to_nat count) chunks);
    Some (take (Z.to_nat count) chunks)
  else
    Some (chunks
          ++ replicate (Z.to_nat count - length chunks)%nat new_chunk).

(** [init(size)]: allocates the vector and sets the coordinates. *)
Definition init (size_ : Z) (d : t) : res t unit :=
  leto chunks :=
    vector_resize
      (ceil_divide (Z.max size_ (init_size * chunk_size)) chunk_size)
      (data_ d) in
  let remains := to_size_t (Z.of_nat (length chunks) * chunk_size - size_) in
  let chunks_remains := remains / chunk_size in
  let remains := remains mod chunk_size in
  let b := (chunks_remains / 2, remains / 2) in
  let e :=
    if decide (size_ ≤ to_size_t (chunk_size - b.2)) then
      (b.1, to_int64 (b.2 + size_ - 1))
    else
      let e1 :=
        b.1 + ceil_divide (to_size_t (size_ - (chunk_size - b.2)))
                chunk_size in
      (e1, to_int64 (size_ - (e1 - b.1 - 1) * chunk_size
                     - (chunk_size - b.2) - 1)) in
  let d := {| data_ := chunks; begin_ := b; end_ := e |} in
  (* assert(size == this->size()) *)
  if decide (size_ = size d) then Ret d () else Undefined.

(** The loop of [fill] over the chunks between the first and the
    last: [for (int i = begin_.first + 1; i < end_.first; ++i)], with
    [n] chunks to go. *)
Fixpoint fill_middle (n : nat) (i : Z) (c : option T) (d : t)
  : res t unit :=
  match n with
  | O => Ret d ()
  | S n' =>
      letr (d, _) :=
        on_chunk i (λ ch, chunk_fill c (chunk_init 0 chunk_size ch)) d in
      (* ++i on an int *)
      if decide (i + 1 < 2 ^ 31) then fill_middle n' (i + 1) c d
      else Undefined
  end.

(** [fill(value)] *)
Definition fill (c : option T) (d : t) : res t unit :=
  let b := begin_ d in
  let e := end_ d in
  letr (d, _) :=
    on_chunk b.1
      (λ ch, chunk_fill c
               (chunk_init b.2
                  (if decide (b.1 = e.1) then e.2 + 1 else chunk_size) ch))
      d in
  if decide (b.1 ≠ e.1) then
    letr (d, _) :=
      fill_middle (Z.to_nat (e.1 - to_int (b.1 + 1))) (to_int (b.1 + 1))
        c d in
    on_chunk e.1 (λ ch, chunk_fill c (chunk_init 0 (e.2 + 1) ch)) d
  else Ret d ().

(** [try { body } catch (...) { clear(); throw; }] *)
Definition or_clear (body : res t unit) : res t unit :=
  match body with
  | Thrown d => leto d := clear d in Thrown d
  | o => o
  end.

(** [push_if_empty(value)] *)
Definition push_if_empty (c : option T) (d : t) : res t unit :=
  or_clear (letr (d, _) := init 1 d in fill c d).

(** [Deque(size, value)] *)
Definition construct_count (size_ : Z) (c : option T) : res t unit :=
  or_clear (letr (d, _) := init size_ construct in fill c d).

(** [new_data[i].take(data_[j])] on the pair of [new_data] and
    [data_]. *)
Definition take_at (i j : Z) (s : list Chunk * list Chunk)
  : option (list Chunk * list Chunk) :=
  this ← chunk_at i s.1;
  chunk ← chunk_at j s.2;
  p ← chunk_take this chunk;
  Some (<[Z.to_nat i := p.1]> s.1, <[Z.to_nat j := p.2]> s.2).

(** [for (int64_t i = 0; i <= old_end.first - old_begin.first; ++i)
      new_data[end_.first - i].take(data_[old_end.first - i]);]
    with [n] rounds to go. *)
Fixpoint take_loop (n : nat) (i e1 old_e1 : Z)
    (s : list Chunk * list Chunk) : option (list Chunk * list Chunk) :=
  match n with
  | O => Some s
  | S n' =>
      s ← take_at (e1 - i) (old_e1 - i) s;
      take_loop n' (i + 1) e1 old_e1 s
  end.

(** [resize(size)]: the chunks in use move to the middle of a new
    vector; the old vector is destroyed with its chunks. *)
Definition resize (size_ : Z) (d : t) : option t :=
  (* assert(size >= data_.size()) *)
  if decide (size_ < Z.of_nat (length (data_ d))) then None
  else
    let size_ := Z.max size_ 2 in
    let new_data := replicate (Z.to_nat size_) new_chunk in
    let old_begin := begin_ d in
    let old_end := end_ d in
    let b1 := Z.of_nat (length new_data) / 4 in
    let e1 := b1 + (old_end.1 - old_begin.1) in
    s ← (if decide (e1 = b1) then
           take_at b1 old_begin.1 (new_data, data_ d)
         else
           take_loop (Z.to_nat (old_end.1 - old_begin.1 + 1)) 0 e1
             old_end.1 (new_data, data_ d));
    (* the swap leaves the old chunks to the destructor of new_data *)
    _ ← destroy_all s.2;
    Some {| data_ := s.1; begin_ := (b1, old_begin.2);
            end_ := (e1, old_end.2) |}.

(** [push_back(value)] *)
Definition push_back (c : option T) (d : t) : res t unit :=
  if empty d then push_if_empty c d
  else
    leto d :=
      (if decide (end_ d = (Z.of_nat (length (data_ d)) - 1, chunk_size - 1))
       then resize (2 * Z.of_nat (length (data_ d))) d
       else Some d) in
    let d := set_end d ((end_ d).1, (end_ d).2 + 1) in
    leto d :=
      (if decide ((end_ d).2 = chunk_size) then
         let d := set_end d ((end_ d).1 + 1, 0) in
         with_chunk (end_ d).1 (λ ch, Some (chunk_init 0 0 ch)) d
       else Some d) in
    on_chunk (end_ d).1 (chunk_push_back c) d.

(** [pop_back()] *)
Definition pop_back (d : t) : option t :=
  d ← with_chunk (end_ d).1 chunk_pop_back d;
  if decide ((end_ d).2 = 0) then
    Some (set_end d ((end_ d).1 - 1, chunk_size - 1))
  else Some (set_end d ((end_ d).1, (end_ d).2 - 1)).

(** [push_front(value)] *)
Definition push_front (c : option T) (d : t) : res t unit :=
  if empty d then push_if_empty c d
  else
    leto d :=
      (if decide (begin_ d = (0, 0))
       then resize (2 * Z.of_nat (length (data_ d))) d
       else Some d) in
    let d := set_begin d ((begin_ d).1, (begin_ d).2 - 1) in
    leto d :=
      (if decide ((begin_ d).2 = -1) then
         let d := set_begin d ((begin_ d).1 - 1, (begin_ d).2 + chunk_size) in
         with_chunk (begin_ d).1
           (λ ch, Some (chunk_init chunk_size chunk_size ch)) d
       else Some d) in
    on_chunk (begin_ d).1 (chunk_push_front c) d.

(** [pop_front()] *)
Definition pop_front (d : t) : option t :=
  d ← with_chunk (begin_ d).1 chunk_pop_front d;
  if decide ((begin_ d).2 = chunk_size - 1) then
    Some (set_begin d ((begin_ d).1 + 1, 0))
  else Some (set_begin d ((begin_ d).1, (begin_ d).2 + 1)).

(** ** Iterators

    [first_iter] is the index of a chunk of [data_]; [second_iter] is
    null or points into the array of that chunk, and is the index of
    the slot it points to. *)
Record Iterator : Type := mk_iter {
  first_iter : Z;
  second_iter : option Z
}.

(** The pointer [data + offset] of a chunk: null for a null [data] and
    offset 0; undefined outside the array and its end. *)
Definition pointer (ch : Chunk) (offset : Z) : option (option Z) :=
  match data ch with
  | Some _ =>
      if decide (0 ≤ offset ≤ chunk_size) then Some (Some offset) else None
  | None => if decide (offset = 0) then Some None else None
  end.

(** [begin()] *)
Definition begin (d : t) : option Iterator :=
  if empty d then
    if decide (0 ≤ (begin_ d).1 ≤ Z.of_nat (length (data_ d))) then
      Some {| first_iter := (begin_ d).1; second_iter := None |}
    else None
  else
    ch ← chunk_at (begin_ d).1 (data_ d);
    p ← pointer ch (chunk_begin ch);
    Some {| first_iter := (begin_ d).1; second_iter := p |}.

(** [Iterator::operator+(int add)] *)
Definition iter_add (add : Z) (it : Iterator) (d : t) : option Iterator :=
  match second_iter it with
  | None => Some it
  | Some off =>
      if decide (add = 0) then Some it
      else
        let new_first := first_iter it + Z.quot add chunk_size in
        let add := Z.rem add chunk_size in
        let diff := off + add in
        let s :=
          if decide (0 < add ∧ chunk_size ≤ diff)
          then (new_first + 1, diff - chunk_size) else (new_first, diff) in
        let s :=
          if decide (add < 0 ∧ s.2 < 0)
          then (s.1 - 1, s.2 + chunk_size) else s in
        ch ← chunk_at s.1 (data_ d);
        p ← pointer ch s.2;
        Some {| first_iter := s.1; second_iter := p |}
  end.

(** [Iterator::operator*()] *)
Definition deref (it : Iterator) (d : t) : option T :=
  off ← second_iter it;
  ch ← chunk_at (first_iter it) (data_ d);
  slots ← data ch;
  if decide (0 ≤ off) then mjoin (slots !! Z.to_nat off) else None.

(** [operator[](index)]: [*(begin() + index)] *)
Definition index (i : Z) (d : t) : option T :=
  it ← begin d; it ← iter_add (to_int i) it d; deref it d.

(** [at(index)] *)
Definition at_ (i : Z) (d : t) : res t T :=
  if decide (size d ≤ i) then Thrown d
  else leto x := index i d in Ret d x.

(** ** What the members maintain *)

(** A chunk out of use: no element, and no live object in its array. *)
Definition idle (ch : Chunk) : Prop :=
  chunk_end ch ≤ chunk_begin ch ∧
  ∀ slots, data ch = Some slots →
           slots = replicate (Z.to_nat chunk_size) None.

(** The chunk [ch] at index [c] of a deque with the elements [xs]
    from [b] to [e]: its bounds and its array, with the elements in the
    slots from [chunk_begin] to [chunk_end] and no other live
    object. *)
Definition in_use (b e : Z * Z) (xs : list T) (c : Z) (ch : Chunk)
  : Prop :=
  chunk_begin ch = (if decide (c = b.1) then b.2 else 0) ∧
  chunk_end ch = (if decide (c = e.1) then e.2 + 1 else chunk_size) ∧
  ∃ slots,
    data ch = Some slots ∧
    length slots = Z.to_nat chunk_size ∧
    ∀ o, 0 ≤ o < chunk_size →
      slots !! Z.to_nat o
      = Some (if decide (chunk_begin ch ≤ o < chunk_end ch)
              then xs !! Z.to_nat ((c - b.1) * chunk_size + o - b.2)
              else None).

(** [d] holds the elements [xs], of which there is one at least: the
    coordinates are those of the first and of the last element, the
    chunks between them are in use and the others are out of use. *)
Definition holds_elements (d : t) (xs : list T) : Prop :=
  let n := Z.of_nat (length xs) in
  let b := begin_ d in
  let e := end_ d in
  0 ≤ b.1 ∧ 0 ≤ b.2 < chunk_size ∧
  e.1 = b.1 + (b.2 + n - 1) / chunk_size ∧
  e.2 = (b.2 + n - 1) mod chunk_size ∧
  e.1 < Z.of_nat (length (data_ d)) ∧
  ∀ c ch, chunk_at c (data_ d) = Some ch →
    if decide (b.1 ≤ c ≤ e.1) then in_use b e xs c ch else idle ch.

(** [d] holds the elements [xs], first to last. *)
Definition holds (d : t) (xs : list T) : Prop :=
  match xs with
  | [] => size d = 0 ∧ Forall idle (data_ d)
  | _ :: _ => holds_elements d xs
  end.
End Deque.
End Deque.

(** ** The maps of the scenarios: [int] keys under [std::hash<int>], which
    is the identity on the keys used *)

Module Scenario.
Import UnorderedMap.

Definition hash_int (key : nat) : nat := key.

(** [for (k : keys) m.insert({k, val(k)})] *)
Definition insert_all {Value} (fuel : nat) (val : nat → Value)
    (keys : list nat) (m : t) : res t unit :=
  foldl (λ o k, letr (m, _) := o in
                letr (m, _) := insert hash_int fuel (k, val k) m in
                Ret m ())
        (Ret m ()) keys.

(** Keys 1 .. 13 inserted in a default-constructed map. *)
Definition thirteen {Value} (val : nat → Value) : res t unit :=
  insert_all 2 val (seq 1 13) construct.

(** Keys 1, 23 and 2 with values 10, 230 and 20: under 22 buckets the
    first two share bucket 1. *)
Definition one : t (Key := nat) (Value := nat) :=
  state_of (insert hash_int 2 (1, 10) construct).
Definition two : t (Key := nat) (Value := nat) :=
  state_of (insert hash_int 2 (23, 230) one).
Definition three : t (Key := nat) (Value := nat) :=
  state_of (insert hash_int 2 (2, 20) two).

(** Keys 1 .. 16 with values 10 .. 160: the 22 buckets of the map have
    no room for another entry. *)
Definition sixteen : t (Key := nat) (Value := nat) :=
  state_of (insert_all 2 (λ k, 10 * k) (seq 1 16) construct).

(** A map that no operation builds: the entries of bucket 1, keys 1 and
    23, are separated by an entry of bucket 2. *)
Definition interleaved : t (Key := nat) (Value := nat) :=
  {| max_factor_ := default_factor;
     values_ := {| List.chain := [(0, (1, 10)); (1, (2, 20)); (2, (23, 230))];
                   List.fresh := 3 |};
     buckets_ := <[2 := Node 1]> (<[1 := Node 0]> (replicate 22 End)) |}.

(** Calls on allocators of one storage of 64 bytes at address 1000:
    three [char]s, two [double]s, a hundred [int]s, one [int]. *)
Definition requests : list StackStorage.request :=
  [StackStorage.Allocate 0 1 3; StackStorage.Allocate 3 8 2;
   StackStorage.Deallocate 1000 3; StackStorage.Allocate 2 4 100;
   StackStorage.Allocate 2 4 1].
Definition storage : StackStorage.t := StackStorage.construct 64 1000.

(** [allocate(2^62 + 1)] of [int]s: the product [sizeof(int) * count]
    is 4 modulo [2^64]. *)
Definition many_ints : Z := (2 ^ 62 + 1)%Z.

(** A list of [int]s built by [push_back]. *)
Definition ints (xs : list nat) : List.t (T := nat) :=
  {| List.chain := imap (λ i x, (i, x)) xs; List.fresh := length xs |}.

(** [int] is trivially destructible; [std::vector<int>], a list here,
    has a destructor of its own. *)
#[export] Instance int_destructor : Deque.Destructor nat := true.
#[export] Instance vector_destructor : Deque.Destructor (list nat) :=
  false.

(** [Deque<int> d(33, 7)] and [Deque<int> d(64, 7)]: the second one
    fills its two chunks. *)
Definition deque_of (size_ : Z) : Deque.t (T := nat) :=
  match Deque.construct_count size_ (Some 7) with
  | Ret d _ => d
  | _ => Deque.construct
  end.
Definition deque33 : Deque.t (T := nat) := deque_of 33.
Definition deque64 : Deque.t (T := nat) := deque_of 64.

(** [Deque<std::vector<int>> d(64, {7})] *)
Definition vectors64 : Deque.t (T := list nat) :=
  match Deque.construct_count 64 (Some [7]) with
  | Ret d _ => d
  | _ => Deque.construct
  end.

(** [for (i = 0; i < n; ++i) d.pop_front();] *)
Fixpoint pop_fronts (n : nat) (d : Deque.t (T := nat))
  : option (Deque.t (T := nat)) :=
  match n with
  | O => Some d
  | S n' => d ← Deque.pop_front d; pop_fronts n' d
  end.

(** [for (i = 0; i < n; ++i) d.pop_back();] *)
Fixpoint pop_backs (n : nat) (d : Deque.t (T := nat))
  : option (Deque.t (T := nat)) :=
  match n with
  | O => Some d
  | S n' => d ← Deque.pop_back d; pop_backs n' d
  end.

(** [deque33] after 17 calls of [pop_front] and 15 of [pop_back]: its
    only element is in the first slot of the second chunk. *)
Definition edge : Deque.t (T := nat) :=
  default Deque.construct (d ← pop_fronts 17 deque33; pop_backs 15 d).

(** [deque33] after 16 calls of [pop_front] and 16 of [pop_back]: its
    only element is in the last slot of the first chunk. *)
Definition edge_front : Deque.t (T := nat) :=
  default Deque.construct (d ← pop_fronts 16 deque33; pop_backs 16 d).
End Scenario.

(** * Facts about the node store *)

Section ListFacts.
Context {T : Type}.
Implicit Types (ns pre post : list (nat * T)) (a : nat) (n : nat * T).
Implicit Types (x y : T).

Lemma seek_app pre a x post :
  a ∉ pre.*1 →
  List.seek a (pre ++ (a, x) :: post) = Some ((a, x) :: post).
Proof.
  induction pre as [|n pre IH]; simpl; intros Hnot.
  - by rewrite decide_True.
  - apply not_elem_of_cons in Hnot as [Hne Hnot].
    rewrite decide_False by done. by apply IH.
Qed.

Lemma seek_None a ns : a ∉ ns.*1 → List.seek a ns = None.
Proof.
  induction ns as [|n ns IH]; simpl; [done|]. intros Hnot.
  apply not_elem_of_cons in Hnot as [Hne Hnot].
  rewrite decide_False by done. by apply IH.
Qed.

Lemma seek_Some a ns s :
  List.seek a ns = Some s →
  ∃ pre x post, ns = pre ++ (a, x) :: post ∧ s = (a, x) :: post ∧ a ∉ pre.*1.
Proof.
  induction ns as [|[a' x] ns IH]; simpl; [done|].
  case_decide as Ha; simpl in Ha.
  - intros [= <-]. subst a'. exists [], x, ns. split_and!; [done..|].
    apply not_elem_of_nil.
  - intros (pre & y & post & -> & -> & Hnot)%IH.
    exists ((a', x) :: pre), y, post. split_and!; [done..|].
    simpl. apply not_elem_of_cons. done.
Qed.

Lemma link_app pre a x post n :
  a ∉ pre.*1 →
  List.link a n (pre ++ (a, x) :: post) = Some (pre ++ n :: (a, x) :: post).
Proof.
  induction pre as [|m pre IH]; simpl; intros Hnot.
  - by rewrite decide_True.
  - apply not_elem_of_cons in Hnot as [Hne Hnot].
    rewrite decide_False by done. by rewrite IH.
Qed.

Lemma unlink_app pre a x post :
  a ∉ pre.*1 →
  List.unlink a (pre ++ (a, x) :: post) = Some (pre ++ post).
Proof.
  induction pre as [|m pre IH]; simpl; intros Hnot.
  - by rewrite decide_True.
  - apply not_elem_of_cons in Hnot as [Hne Hnot].
    rewrite decide_False by done. by rewrite IH.
Qed.

Lemma pred_app pre a x post p :
  a ∉ pre.*1 →
  List.pred a p (pre ++ (a, x) :: post)
  = Some (match last pre with Some n => Node n.1 | None => p end).
Proof.
  revert p. induction pre as [|m pre IH]; simpl; intros p Hnot.
  - by rewrite decide_True.
  - apply not_elem_of_cons in Hnot as [Hne Hnot].
    rewrite decide_False by done. rewrite IH by done.
    destruct pre as [|m' pre]; [reflexivity|]. rewrite last_cons_cons.
    destruct (last (m' :: pre)) eqn:E; [done|]. by apply last_None in E.
Qed.

(** An address of the chain splits the chain at its node. *)
Lemma addr_split a ns :
  a ∈ ns.*1 → ∃ pre x post, ns = pre ++ (a, x) :: post ∧ a ∉ pre.*1.
Proof.
  induction ns as [|[a' x] ns IH]; simpl.
  - by intros ?%elem_of_nil.
  - destruct (decide (a' = a)) as [->|Hne].
    + intros _. exists [], x, ns. split; [done|]. apply not_elem_of_nil.
    + intros [?|Hin]%elem_of_cons; [congruence|].
      destruct (IH Hin) as (pre & y & post & -> & Hnot).
      exists ((a', x) :: pre), y, post. split; [done|].
      simpl. apply not_elem_of_cons. done.
Qed.

(** With distinct addresses a node has one place in the chain. *)
Lemma NoDup_addr_app_inv pre a x post pre' x' post' :
  NoDup (pre ++ (a, x) :: post).*1 →
  pre ++ (a, x) :: post = pre' ++ (a, x') :: post' →
  pre = pre' ∧ x = x' ∧ post = post'.
Proof.
  revert pre'. induction pre as [|m pre IH]; intros [|m' pre'] Hnd Heq;
    simpl in *.
  - by simplify_eq.
  - simplify_eq. apply NoDup_cons in Hnd as [Hnot _]. destruct Hnot.
    rewrite fmap_app. apply elem_of_app. right. simpl. apply elem_of_cons.
    by left.
  - simplify_eq. apply NoDup_cons in Hnd as [Hnot _]. destruct Hnot.
    rewrite fmap_app. apply elem_of_app. right. simpl. apply elem_of_cons.
    by left.
  - injection Heq as -> Heq. apply NoDup_cons in Hnd as [_ Hnd].
    destruct (IH _ Hnd Heq) as (-> & -> & ->). done.
Qed.

Lemma NoDup_addr_not_in_pre pre a x post :
  NoDup (pre ++ (a, x) :: post).*1 → a ∉ pre.*1.
Proof.
  rewrite fmap_app. intros (_ & Hdisj & _)%NoDup_app Hin.
  apply (Hdisj _ Hin). simpl. apply elem_of_cons. by left.
Qed.

Lemma deref_app pre a x post fr :
  a ∉ pre.*1 →
  List.deref (Node a) (List.mk (pre ++ (a, x) :: post) fr) = Some x.
Proof. intros Hnot. unfold List.deref. simpl. by rewrite seek_app. Qed.

Lemma deref_Some a x l :
  List.deref (Node a) l = Some x → (a, x) ∈ List.chain l.
Proof.
  unfold List.deref. destruct (List.seek a (List.chain l)) as [s|] eqn:Hs;
    [|done].
  apply seek_Some in Hs as (pre & y & post & Hl & -> & _).
  intros [= <-]. rewrite Hl. apply elem_of_app. right. apply elem_of_cons.
  by left.
Qed.

Lemma deref_elem a x l :
  NoDup (List.chain l).*1 → (a, x) ∈ List.chain l →
  List.deref (Node a) l = Some x.
Proof.
  intros Hnd (pre & post & Hl)%list_elem_of_split. destruct l as [ns fr].
  simpl in Hnd, Hl. subst ns. apply deref_app.
  by eapply NoDup_addr_not_in_pre.
Qed.
End ListFacts.

Import UnorderedMap.

(** * Facts about the runs of a chain *)

Section RunFacts.
Context {Key Value : Type}.
Local Abbreviation node := (nat * (Key * Value))%type.
Implicit Types (bk : node → nat) (ns pre post run : list node) (b : nat).
Implicit Types (x y : node).

(** A node of another bucket linked in anywhere but inside the run. *)
Lemma run_at_insert bk l1 l2 x b head :
  bk x ≠ b →
  (l1 = [] ∨ match l2 with [] => True | n :: _ => bk n ≠ b end) →
  run_at bk (l1 ++ l2) b head → run_at bk (l1 ++ x :: l2) b head.
Proof.
  intros Hx Hcut. destruct head as [|a]; simpl.
  { rewrite !Forall_app, Forall_cons. tauto. }
  intros (pre & e & run & post & Heq & Hpre & Hrun & Hpost).
  apply app_eq_inv in Heq as [(k & -> & Hk)|(k & -> & ->)].
  - destruct k as [|n k]; simpl in Hk.
    + subst l2. exists (pre ++ [x]), e, run, post.
      rewrite <-!app_assoc. split_and!; [done| |done..].
      rewrite Forall_app, Forall_singleton. done.
    + injection Hk as <- Hk.
      destruct Hcut as [Hnil|Hcut]; [by destruct pre|].
      apply app_eq_inv in Hk as [(k2 & -> & ->)|(k2 & -> & ->)].
      * destruct k2 as [|n2 k2].
        -- exists pre, e, k, (x :: post). rewrite !app_nil_r in *.
           rewrite <-!app_assoc. simpl. split_and!; [done..|].
           by apply Forall_cons.
        -- simpl in Hcut. apply Forall_cons in Hrun as [_ Hrun].
           apply Forall_app in Hrun as [_ Hrun].
           apply Forall_cons in Hrun as [? _]. done.
      * exists pre, e, run, (k2 ++ x :: l2). rewrite <-!app_assoc. simpl.
        rewrite <-!app_assoc.
        split_and!; [done..|].
        apply Forall_app in Hpost as [??]. apply Forall_app. split; [done|].
        by apply Forall_cons.
  - exists (l1 ++ x :: k), e, run, post. rewrite <-!app_assoc. simpl.
    split_and!; [done| |done..].
    apply Forall_app in Hpre as [??]. apply Forall_app. split; [done|].
    by apply Forall_cons.
Qed.

(** A node of another bucket unlinked. *)
Lemma run_at_delete bk l1 l2 y b head :
  bk y ≠ b →
  run_at bk (l1 ++ y :: l2) b head → run_at bk (l1 ++ l2) b head.
Proof.
  intros Hy. destruct head as [|a]; simpl.
  { rewrite !Forall_app, Forall_cons. tauto. }
  intros (pre & e & run & post & Heq & Hpre & Hrun & Hpost).
  apply app_eq_inv in Heq as [(k & -> & Hk)|(k & -> & Hk)].
  - destruct k as [|n k]; simpl in Hk.
    { injection Hk as <- _. apply Forall_cons in Hrun as [? _]. done. }
    injection Hk as <- Hk.
    apply app_eq_inv in Hk as [(k2 & -> & Hk)|(k2 & -> & ->)].
    + destruct k2 as [|n2 k2]; simpl in Hk.
      * subst post. exists pre, e, k, l2. rewrite !app_nil_r in *.
        rewrite <-!app_assoc. simpl. split_and!; [done..|].
        by apply Forall_cons in Hpost as [_ ?].
      * injection Hk as <- _. apply Forall_cons in Hrun as [_ Hrun].
        apply Forall_app in Hrun as [_ Hrun].
        apply Forall_cons in Hrun as [? _]. done.
    + exists pre, e, run, (k2 ++ l2). rewrite <-!app_assoc. simpl.
      rewrite <-!app_assoc. split_and!; [done..|].
      apply Forall_app in Hpost as [? Hpost].
      apply Forall_cons in Hpost as [_ ?]. by apply Forall_app.
  - destruct k as [|n k]; simpl in Hk.
    { injection Hk as -> _. apply Forall_cons in Hrun as [? _]. done. }
    injection Hk as <- ->.
    exists (l1 ++ k), e, run, post. rewrite <-!app_assoc.
    split_and!; [done| |done..].
    apply Forall_app in Hpre as [? Hpre].
    apply Forall_cons in Hpre as [_ ?]. by apply Forall_app.
Qed.

(** The bucket of the head is the bucket it heads. *)
Lemma run_at_head_in bk ns b a :
  run_at bk ns b (Node a) → ∃ e, (a, e) ∈ ns ∧ bk (a, e) = b.
Proof.
  intros (pre & e & run & post & -> & _ & Hrun & _). exists e.
  apply Forall_cons in Hrun as [? _]. split; [|done].
  apply elem_of_app. right. apply elem_of_cons. by left.
Qed.

(** A node of bucket [b] gives bucket [b] a head. *)
Lemma run_at_elem bk ns b head x :
  run_at bk ns b head → x ∈ ns → bk x = b → ∃ a, head = Node a.
Proof.
  destruct head as [|a]; [|by eauto]. simpl. intros Hall Hin Hx.
  rewrite Forall_forall in Hall. by destruct (Hall _ Hin).
Qed.
End RunFacts.

(** * Facts about the hash map *)

Section MapFacts.
Context {Key Value : Type} `{EqDecision Key} (hash_ : Key → nat).
Local Abbreviation node := (nat * (Key * Value))%type.
Local Abbreviation map := (t (Key := Key) (Value := Value)).
Implicit Types (m : map) (ns pre post run : list node) (b a : nat).
Implicit Types (k key : Key) (v : Value) (f : factor).

Lemma get_hash_Some key m :
  0 < bucket_count m →
  get_hash hash_ key m = Some (hash_ key mod bucket_count m).
Proof. intros ?. unfold get_hash. rewrite decide_False by lia. done. Qed.

Lemma get_hash_node n m :
  0 < bucket_count m → get_hash hash_ n.2.1 m = Some (bucket_of hash_ m n).
Proof. apply get_hash_Some. Qed.

Lemma bucket_lt key m :
  0 < bucket_count m → hash_ key mod bucket_count m < length (buckets_ m).
Proof. intros ?. apply Nat.mod_upper_bound. unfold bucket_count in *. lia. Qed.

Lemma head_is_Some key m :
  0 < bucket_count m →
  ∃ head, buckets_ m !! (hash_ key mod bucket_count m) = Some head.
Proof.
  intros Hpos. apply lookup_lt_is_Some_2. by apply bucket_lt.
Qed.

Lemma NoDup_keys_split pre r1 a key v rest :
  NoDup (pre ++ r1 ++ (a, (key, v)) :: rest).*2.*1 → key ∉ r1.*2.*1.
Proof.
  rewrite !fmap_app. simpl. intros (_ & _ & Hnd)%NoDup_app Hin.
  apply NoDup_app in Hnd as (_ & Hdisj & _). apply (Hdisj _ Hin).
  apply elem_of_cons. by left.
Qed.

(** ** The scan of [find] *)

Lemma find_loop_miss key b m run post :
  0 < bucket_count m →
  Forall (λ n, bucket_of hash_ m n = b) run →
  Forall (λ n, bucket_of hash_ m n ≠ b) post →
  key ∉ run.*2.*1 →
  find_loop hash_ key b m (run ++ post) = Some End.
Proof.
  intros Hpos Hrun Hpost. induction Hrun as [|n run Hn Hrun IH]; simpl.
  - intros _. destruct Hpost as [|n post Hn _]; simpl; [done|].
    rewrite get_hash_node by done. simpl. by rewrite decide_False.
  - intros [Hne Hnot]%not_elem_of_cons.
    rewrite get_hash_node by done. simpl. rewrite decide_True by done.
    rewrite decide_False by done. by apply IH.
Qed.

Lemma find_loop_hit key v a b m run rest :
  0 < bucket_count m →
  Forall (λ n, bucket_of hash_ m n = b) (run ++ [(a, (key, v))]) →
  key ∉ run.*2.*1 →
  find_loop hash_ key b m (run ++ (a, (key, v)) :: rest) = Some (Node a).
Proof.
  intros Hpos. induction run as [|n run IH]; simpl.
  - intros [Hb _]%Forall_cons _. rewrite get_hash_Some by done. simpl.
    rewrite decide_True by exact Hb. by rewrite decide_True.
  - intros [Hb Hrun]%Forall_cons [Hne Hnot]%not_elem_of_cons.
    rewrite get_hash_node by done. simpl. rewrite decide_True by done.
    rewrite decide_False by done. by apply IH.
Qed.

Lemma wf_nonempty_pos m n :
  wf hash_ m → n ∈ List.chain (values_ m) → 0 < bucket_count m.
Proof.
  intros Hwf Hin. apply (wf_buckets _ _ Hwf). intros Hnil.
  rewrite Hnil in Hin. by apply elem_of_nil in Hin.
Qed.

Lemma empty_false m n : n ∈ List.chain (values_ m) → empty m = false.
Proof.
  intros Hin. unfold empty, size, List.size. apply bool_decide_eq_false.
  destruct (List.chain (values_ m)); [by apply elem_of_nil in Hin|done].
Qed.

(** The run of a bucket, for a map that is well formed. *)
Lemma wf_run m key :
  wf hash_ m → 0 < bucket_count m →
  let b := hash_ key mod bucket_count m in
  ∃ head, buckets_ m !! b = Some head ∧
          run_at (bucket_of hash_ m) (List.chain (values_ m)) b head.
Proof.
  intros Hwf Hpos b. destruct (head_is_Some key m Hpos) as [head Hhead].
  exists head. split; [done|]. by apply (wf_runs _ _ Hwf).
Qed.

Lemma find_hit m a key v :
  wf hash_ m → (a, (key, v)) ∈ List.chain (values_ m) →
  find hash_ key m = Some (Node a).
Proof.
  intros Hwf Hin. pose proof (wf_nonempty_pos _ _ Hwf Hin) as Hpos.
  unfold find. rewrite (empty_false _ _ Hin).
  unfold get_iter. rewrite get_hash_Some by done. simpl.
  destruct (wf_run m key Hwf Hpos) as (head & -> & Hrun). simpl.
  destruct (run_at_elem _ _ _ _ _ Hrun Hin eq_refl) as [a0 ->].
  destruct Hrun as (pre & e & run & post & Hch & Hpre & Hrun & Hpost).
  pose proof (wf_addrs _ _ Hwf) as Hnd. pose proof (wf_keys _ _ Hwf) as Hk.
  unfold keys, entries in Hk. rewrite Hch in Hnd, Hk, Hin.
  simpl. rewrite Hch, seek_app by (by eapply NoDup_addr_not_in_pre).
  change (find_loop hash_ key (hash_ key mod bucket_count m) m
            ((a0, e) :: run ++ post) = Some (Node a)).
  assert ((a, (key, v)) ∈ (a0, e) :: run) as Hin'.
  { rewrite app_comm_cons in Hin.
    apply elem_of_app in Hin as [Hin|Hin].
    { rewrite Forall_forall in Hpre. by destruct (Hpre _ Hin). }
    apply elem_of_app in Hin as [Hin|Hin]; [done|].
    rewrite Forall_forall in Hpost. by destruct (Hpost _ Hin). }
  apply list_elem_of_split in Hin' as (r1 & r2 & Hr).
  rewrite app_comm_cons, Hr, <-app_assoc. simpl.
  apply find_loop_hit; [done| |].
  - rewrite Hr in Hrun. rewrite Forall_app in Hrun.
    destruct Hrun as [? [? _]%Forall_cons]. rewrite Forall_app.
    split; [done|]. by apply Forall_singleton.
  - rewrite app_comm_cons, Hr, <-app_assoc in Hk.
    by eapply NoDup_keys_split.
Qed.

Lemma find_miss m key :
  wf hash_ m → key ∉ keys m → find hash_ key m = Some End.
Proof.
  intros Hwf Hnot. unfold find.
  destruct (empty m) eqn:Hempty; [done|].
  assert (0 < bucket_count m) as Hpos.
  { apply (wf_buckets _ _ Hwf). intros Hnil.
    unfold empty, size, List.size in Hempty. rewrite Hnil in Hempty.
    done. }
  unfold get_iter. rewrite get_hash_Some by done. simpl.
  destruct (wf_run m key Hwf Hpos) as (head & -> & Hrun). simpl.
  destruct head as [|a0]; [done|].
  destruct Hrun as (pre & e & run & post & Hch & Hpre & Hrun & Hpost).
  pose proof (wf_addrs _ _ Hwf) as Hnd. rewrite Hch in Hnd.
  simpl. rewrite Hch, seek_app by (by eapply NoDup_addr_not_in_pre).
  change (find_loop hash_ key (hash_ key mod bucket_count m) m
            ((a0, e) :: run ++ post) = Some End).
  rewrite app_comm_cons. apply find_loop_miss; [done..|].
  intros Hin. apply Hnot. unfold keys, entries. rewrite Hch.
  rewrite !fmap_app. apply elem_of_app. right.
  rewrite app_comm_cons, !fmap_app. apply elem_of_app. by left.
Qed.
End MapFacts.

Section ListEmplace.
Context {T : Type}.
Implicit Types (ns pre post : list (nat * T)) (a : nat) (x y : T).

Lemma list_emplace_front y (l : List.t) :
  List.emplace_front (Some y) l
  = Ret (List.mk ((List.fresh l, y) :: List.chain l) (S (List.fresh l))) ().
Proof.
  unfold List.emplace_front, List.emplace, List.begin, List.prev.
  destruct (List.chain l) as [|n ns]; simpl; [done|].
  by rewrite !decide_True.
Qed.

Lemma list_emplace_back y (l : List.t) :
  List.emplace_back (Some y) l
  = Ret (List.mk (List.chain l ++ [(List.fresh l, y)]) (S (List.fresh l))) ().
Proof. done. Qed.

Lemma list_emplace_before pre a x post y fr :
  a ∉ pre.*1 →
  List.emplace (Node a) (Some y) (List.mk (pre ++ (a, x) :: post) fr)
  = Ret (List.mk (pre ++ (fr, y) :: (a, x) :: post) (S fr)) ().
Proof.
  intros Hnot. unfold List.emplace, List.prev. simpl.
  rewrite pred_app, link_app by done. done.
Qed.

Lemma list_prev_linked pre a x post y fr :
  a ∉ pre.*1 → a ≠ fr →
  List.prev (Node a) (List.mk (pre ++ (fr, y) :: (a, x) :: post) (S fr))
  = Some (Node fr).
Proof.
  intros Hnot Hne. unfold List.prev. simpl.
  rewrite (cons_middle (fr, y)), app_assoc, pred_app.
  - by rewrite last_snoc.
  - rewrite fmap_app. simpl. intros [?|Hin]%elem_of_app; [done|].
    apply list_elem_of_singleton in Hin. done.
Qed.

Lemma list_erase pre a x post fr :
  a ∉ pre.*1 →
  List.erase (Node a) (List.mk (pre ++ (a, x) :: post) fr)
  = Ret (List.mk (pre ++ post) fr) ().
Proof. intros Hnot. unfold List.erase. simpl. by rewrite unlink_app. Qed.

Lemma list_next pre a x post fr :
  a ∉ pre.*1 →
  List.next (Node a) (List.mk (pre ++ (a, x) :: post) fr)
  = Some (match post with [] => End | n :: _ => Node n.1 end).
Proof.
  intros Hnot. unfold List.next. simpl. rewrite seek_app by done.
  by destruct post.
Qed.
End ListEmplace.

Section Arith.
Implicit Types (f : factor) (n c : nat).

Lemma floor_mul_0 f : floor_mul 0 f = 0.
Proof. unfold floor_mul. simpl. apply Nat.Div0.div_0_l. Qed.

Lemma floor_mul_mono n n' f : n ≤ n' → floor_mul n f ≤ floor_mul n' f.
Proof.
  intros ?. unfold floor_mul. apply Nat.Div0.div_le_mono.
  by apply Nat.mul_le_mono_r.
Qed.

(** [reserve(n)] asks for enough buckets to hold [n] entries. *)
Lemma floor_mul_ceil_div n f : n ≤ floor_mul (ceil_div n f) f.
Proof.
  unfold floor_mul, ceil_div.
  pose proof (Pos2Nat.is_pos (num f)) as Hp.
  pose proof (Pos2Nat.is_pos (den f)) as Hq.
  set (p := Pos.to_nat (num f)) in *. set (q := Pos.to_nat (den f)) in *.
  apply Nat.div_le_lower_bound; [lia|].
  pose proof (Nat.div_mod (n * q + (p - 1)) p ltac:(lia)) as Hdm.
  pose proof (Nat.mod_upper_bound (n * q + (p - 1)) p ltac:(lia)) as Hlt.
  lia.
Qed.
End Arith.

Section Emplace.
Context {Key Value : Type} `{EqDecision Key} (hash_ : Key → nat).
Local Abbreviation node := (nat * (Key * Value))%type.
Local Abbreviation map := (t (Key := Key) (Value := Value)).
Implicit Types (m : map) (ns pre post run : list node) (b a : nat).
Implicit Types (k key : Key) (v : Value) (f : factor).

Lemma roomy_pos m : roomy m → 0 < bucket_count m.
Proof.
  unfold roomy. intros Hroomy. destruct (bucket_count m) eqn:Hbc; [|lia].
  rewrite floor_mul_0 in Hroomy. lia.
Qed.

(** Linking a node with a new key, at the front of the chain or before
    the head of its bucket, and making it the head of its bucket. *)
Lemma wf_link m key v l1 l2 :
  wf hash_ m → 0 < bucket_count m → key ∉ keys m →
  List.chain (values_ m) = l1 ++ l2 →
  let b := hash_ key mod bucket_count m in
  let new := (List.fresh (values_ m), (key, v)) in
  (l1 = [] ∨ match l2 with [] => True | n :: _ => bucket_of hash_ m n = b end) →
  run_at (bucket_of hash_ m) (l1 ++ new :: l2) b (Node new.1) →
  wf hash_ {| max_factor_ := max_factor_ m;
              values_ := List.mk (l1 ++ new :: l2) (S new.1);
              buckets_ := <[b := Node new.1]> (buckets_ m) |}.
Proof.
  intros Hwf Hpos Hnot Hch b new Hcut Hrun.
  destruct Hwf as [Haddrs Hfresh Hkeys Hbuckets Hruns].
  unfold keys, entries in *. rewrite Hch in *.
  assert (l1 ++ new :: l2 ≡ₚ new :: l1 ++ l2) as Hperm
    by (symmetry; apply Permutation_middle).
  constructor; unfold keys, entries, bucket_count; simpl.
  - rewrite Hperm. simpl. apply NoDup_cons. split; [|done].
    intros Hin. rewrite Forall_forall in Hfresh. apply Hfresh in Hin. lia.
  - rewrite Hperm. simpl. apply Forall_cons. split; [lia|].
    eapply Forall_impl; [exact Hfresh|]. simpl. lia.
  - rewrite Hperm. simpl. by apply NoDup_cons.
  - intros _. by rewrite length_insert.
  - intros b' head' Hlook. unfold bucket_of, bucket_count. simpl.
    rewrite length_insert. fold (bucket_count m).
    change (run_at (bucket_of hash_ m) (l1 ++ new :: l2) b' head').
    destruct (decide (b' = b)) as [->|Hne].
    + rewrite list_lookup_insert_eq in Hlook by (by apply bucket_lt).
      by injection Hlook as <-.
    + rewrite list_lookup_insert_ne in Hlook by done.
      apply run_at_insert; [done| |by apply Hruns].
      destruct Hcut as [?|Hcut]; [by left|right].
      destruct l2; [done|]. by rewrite Hcut.
Qed.

Lemma emplace_body_new reserve m key v :
  wf hash_ m → roomy m → key ∉ keys m →
  let new := (List.fresh (values_ m), (key, v)) in
  ∃ m' l1 l2,
    emplace_body hash_ reserve (Some (key, v)) m = Ret m' (Node new.1, true) ∧
    wf hash_ m' ∧
    max_factor_ m' = max_factor_ m ∧
    bucket_count m' = bucket_count m ∧
    List.chain (values_ m) = l1 ++ l2 ∧
    List.chain (values_ m') = l1 ++ new :: l2.
Proof.
  intros Hwf Hroomy Hnot new. pose proof (roomy_pos _ Hroomy) as Hpos.
  unfold emplace_body. rewrite decide_False by (unfold roomy in *; lia).
  simpl. rewrite find_miss by done. rewrite decide_False by (by intros []).
  unfold get_iter. rewrite get_hash_Some by done. simpl.
  destruct (wf_run hash_ m key Hwf Hpos) as (head & Hhead & Hrun).
  rewrite Hhead. pose proof (wf_addrs _ _ Hwf) as Hnd.
  pose proof (wf_fresh _ _ Hwf) as Hfr.
  destruct head as [|a0].
  - rewrite decide_True by done. unfold on_values.
    rewrite list_emplace_front. simpl.
    eexists _, [], (List.chain (values_ m)). split; [reflexivity|].
    split_and!; [|done|by unfold bucket_count; simpl; rewrite length_insert
                 |done..].
    apply (wf_link m key v [] _ Hwf Hpos Hnot eq_refl); [by left|].
    exists [], (key, v), [], (List.chain (values_ m)).
    split_and!; [done|done| |done].
    by apply Forall_singleton.
  - rewrite decide_False by done.
    destruct Hrun as (pre & e & run & post & Hch & Hpre & Hrun & Hpost).
    rewrite Hch in Hnd, Hfr.
    assert (a0 ∉ pre.*1) as Hpre0 by (by eapply NoDup_addr_not_in_pre).
    assert (a0 ≠ List.fresh (values_ m)) as Hne.
    { rewrite Forall_forall in Hfr. specialize (Hfr a0).
      rewrite fmap_app in Hfr. simpl in Hfr.
      rewrite elem_of_app, elem_of_cons in Hfr. lia. }
    unfold on_values. destruct m as [mf [ch fr] bs]. simpl in *. subst ch.
    rewrite list_emplace_before by done. simpl. rewrite Hhead.
    rewrite list_prev_linked by done.
    rewrite list_lookup_insert_eq by (by apply bucket_lt).
    eexists _, pre, ((a0, e) :: run ++ post). split; [reflexivity|].
    split_and!; [|done|by unfold bucket_count; simpl; rewrite length_insert
                 |done..].
    apply (wf_link (mk mf (List.mk _ fr) bs) key v pre _ Hwf Hpos Hnot
             eq_refl).
    + right. by apply Forall_cons in Hrun as [? _].
    + exists pre, (key, v), ((a0, e) :: run), post.
      split_and!; [done|done| |done].
      by apply Forall_cons.
Qed.

Lemma emplace_body_dup reserve m a key v0 v :
  wf hash_ m → roomy m → (a, (key, v0)) ∈ List.chain (values_ m) →
  emplace_body hash_ reserve (Some (key, v)) m = Ret m (Node a, false).
Proof.
  intros Hwf Hroomy Hin. unfold emplace_body.
  rewrite decide_False by (unfold roomy in *; lia). simpl.
  rewrite (find_hit _ _ _ _ _ Hwf Hin). by rewrite decide_True.
Qed.

Lemma emplace_body_throw reserve m :
  roomy m → emplace_body hash_ reserve None m = Thrown m.
Proof.
  intros Hroomy. unfold emplace_body.
  by rewrite decide_False by (unfold roomy in *; lia).
Qed.
End Emplace.

Section Growth.
Context {Key Value : Type} `{EqDecision Key} (hash_ : Key → nat).
Local Abbreviation node := (nat * (Key * Value))%type.
Local Abbreviation map := (t (Key := Key) (Value := Value)).
Implicit Types (m : map) (ns pre post run items : list node) (b a : nat).
Implicit Types (k key : Key) (v : Value) (f : factor).
Implicit Types (ins : option (Key * Value) → map → res map (iter * bool)).
Implicit Types (reserve : nat → map → res map ()).

Lemma keys_in_chain m k :
  k ∈ keys m → ∃ a v, (a, (k, v)) ∈ List.chain (values_ m).
Proof.
  unfold keys, entries.
  intros ([k' v] & -> & ([a e] & [= <-] & Hin)%list_elem_of_fmap)%list_elem_of_fmap.
  by exists a, v.
Qed.

Lemma chain_in_entries m a e :
  (a, e) ∈ List.chain (values_ m) → e ∈ entries m.
Proof. intros Hin. unfold entries. by apply (list_elem_of_fmap_2 snd) in Hin. Qed.

Lemma entries_in_chain m e :
  e ∈ entries m → ∃ a, (a, e) ∈ List.chain (values_ m).
Proof.
  unfold entries. intros ([a e'] & -> & Hin)%list_elem_of_fmap. by exists a.
Qed.

Lemma entries_in_keys m k v : (k, v) ∈ entries m → k ∈ keys m.
Proof. intros Hin. unfold keys. by apply (list_elem_of_fmap_2 fst) in Hin. Qed.

Lemma size_entries m : size m = length (entries m).
Proof. unfold size, List.size, entries. by rewrite length_fmap. Qed.

(** ** [emplace] when the capacity test asks for nothing *)

Lemma emplace_body_good_roomy reserve :
  good hash_ roomy (emplace_body hash_ reserve).
Proof.
  intros m [[k v]|] Hwf Hroomy; unfold emplace_post.
  - destruct (decide (k ∈ keys m)) as [Hin|Hnot].
    + destruct (keys_in_chain _ _ Hin) as (a & v0 & Hin').
      exists m, a, false.
      rewrite (emplace_body_dup hash_ reserve m a k v0 v) by done.
      split_and!; [done..|]. exists v0.
      split_and!; [by apply (chain_in_entries _ a)|reflexivity|done|done].
    + destruct (emplace_body_new hash_ reserve m k v Hwf Hroomy Hnot)
        as (m' & l1 & l2 & -> & Hwf' & Hmf & Hbc & Hch & Hch').
      eexists m', _, true.
      split_and!; [reflexivity|done|done|by intros|done| |].
      * unfold entries. rewrite Hch', Hch, !fmap_app. simpl.
        symmetry. apply Permutation_middle.
      * rewrite Hch'. apply elem_of_app. right. apply elem_of_cons.
        by left.
  - exists m. by rewrite emplace_body_throw.
Qed.

(** ** The two loops of [rehash] *)

Lemma drain_spec ns (copy : List.t) :
  ∃ copy', drain ns copy = Ret ([], copy') () ∧
           (List.chain copy').*2 = (List.chain copy).*2 ++ ns.*2.
Proof.
  revert copy. induction ns as [|n ns IH]; intros copy; cbn [drain].
  - exists copy. simpl. by rewrite app_nil_r.
  - rewrite list_emplace_back.
    destruct (IH (List.mk (List.chain copy ++ [(List.fresh copy, n.2)])
                    (S (List.fresh copy)))) as (copy' & -> & Hch).
    exists copy'. split; [done|]. rewrite Hch. simpl.
    rewrite fmap_app, <-app_assoc. done.
Qed.

(** The reinsertion loop, for an [ins] that links every new key and
    keeps an invariant [J] of the number of entries still to come. *)
Lemma reinsert_spec ins (J : nat → map → Prop) items m :
  (∀ j m k v, wf hash_ m → J (S j) m → k ∉ keys m →
     ∃ m' r, ins (Some (k, v)) m = Ret m' r ∧ wf hash_ m' ∧
             entries m' ≡ₚ (k, v) :: entries m ∧ J j m') →
  wf hash_ m → J (length items) m → NoDup (items.*2.*1 ++ keys m) →
  ∃ m', reinsert ins items m = Ret (m', []) () ∧ wf hash_ m' ∧
        entries m' ≡ₚ items.*2 ++ entries m ∧ J 0 m'.
Proof.
  intros Hstep. revert m.
  induction items as [|[a [k v]] items IH]; intros m Hwf HJ Hnd; simpl.
  - by exists m.
  - simpl in Hnd. apply NoDup_cons in Hnd as [Hk Hnd].
    destruct (Hstep (length items) m k v Hwf HJ)
      as (m1 & r & -> & Hwf1 & Hperm1 & HJ1).
    { intros Hin. apply Hk. apply elem_of_app. by right. }
    destruct (IH m1 Hwf1 HJ1) as (m' & -> & Hwf' & Hperm' & HJ').
    { unfold keys. rewrite Hperm1. simpl.
      rewrite <-Permutation_middle. apply NoDup_cons. done. }
    exists m'. split_and!; [done..| |done].
    rewrite Hperm', Hperm1. by rewrite <-Permutation_middle.
Qed.

Lemma wf_drained count m : wf hash_ (drained count m).
Proof.
  constructor; unfold keys, entries; simpl; try by constructor.
  - done.
  - intros b head [-> _]%lookup_replicate. by constructor.
Qed.

Lemma rehash_body_spec ins (J : nat → map → Prop) count m :
  let count' := max count (floor_div (size m) (max_load_factor m)) in
  (∀ j m k v, wf hash_ m → J (S j) m → k ∉ keys m →
     ∃ m' r, ins (Some (k, v)) m = Ret m' r ∧ wf hash_ m' ∧
             entries m' ≡ₚ (k, v) :: entries m ∧ J j m') →
  wf hash_ m →
  (count' ≠ bucket_count m → J (size m) (drained count' m)) →
  ∃ m', rehash_body ins count m = Ret m' () ∧ wf hash_ m' ∧
        entries m' ≡ₚ entries m ∧
        (count' = bucket_count m ∧ m' = m ∨
         count' ≠ bucket_count m ∧ J 0 m').
Proof.
  intros count' Hstep Hwf HJ. unfold rehash_body. fold count'.
  destruct (decide (count' = bucket_count m)) as [Heq|Hne].
  { exists m. split_and!; [done..|]. by left. }
  destruct (drain_spec (List.chain (values_ m)) List.empty_list)
    as (copy & -> & Hcopy).
  simpl in Hcopy. simpl.
  change (set_buckets _ _) with (drained count' m).
  destruct (reinsert_spec ins J (List.chain copy) (drained count' m) Hstep)
    as (m' & -> & Hwf' & Hperm & HJ').
  - apply wf_drained.
  - assert (length (List.chain copy) = size m) as ->; [|by apply HJ].
    unfold size, List.size.
    by rewrite <-(length_fmap snd), Hcopy, length_fmap.
  - change (keys (drained count' m)) with (@nil Key).
    rewrite app_nil_r, Hcopy.
    apply (wf_keys _ _ Hwf).
  - exists m'. simpl. split_and!; [done..| |by right].
    rewrite Hperm, Hcopy.
    change (entries (drained count' m)) with (@nil (Key * Value)).
    by rewrite app_nil_r.
Qed.
End Growth.

Section Fuel.
Context {Key Value : Type} `{EqDecision Key} (hash_ : Key → nat).
Local Abbreviation node := (nat * (Key * Value))%type.
Local Abbreviation map := (t (Key := Key) (Value := Value)).
Implicit Types (m : map) (ns pre post run items : list node) (b a : nat).
Implicit Types (k key : Key) (v : Value) (f : factor).
Implicit Types (ins : option (Key * Value) → map → res map (iter * bool)).
Implicit Types (reserve : nat → map → res map ()).
Implicit Types (D : map → Prop).

(** A good [ins] links a key that is new. *)
Lemma good_new D ins m k v :
  good hash_ D ins → wf hash_ m → D m → k ∉ keys m →
  ∃ m' a, ins (Some (k, v)) m = Ret m' (Node a, true) ∧ wf hash_ m' ∧
          max_factor_ m' = max_factor_ m ∧
          (roomy m → bucket_count m' = bucket_count m) ∧
          entries m' ≡ₚ (k, v) :: entries m ∧
          (a, (k, v)) ∈ List.chain (values_ m').
Proof.
  intros Hgood Hwf HD Hnot.
  destruct (Hgood m (Some (k, v)) Hwf HD)
    as (m' & a & [] & Hins & Hwf' & Hmf & Hbc & Hrest).
  - destruct Hrest as (_ & Hperm & Hin). by exists m', a.
  - destruct Hrest as (v0 & Hin & _). destruct Hnot.
    by eapply entries_in_keys.
Qed.

(** [rehash] to a bucket count that has room for all the entries: no
    reinsertion asks for growth. *)
Lemma rehash_body_roomy ins count m :
  let count' := max count (floor_div (size m) (max_load_factor m)) in
  good hash_ roomy ins → wf hash_ m →
  size m ≤ floor_mul count' (max_load_factor m) →
  ∃ m', rehash_body ins count m = Ret m' () ∧ wf hash_ m' ∧
        entries m' ≡ₚ entries m ∧ max_factor_ m' = max_factor_ m ∧
        bucket_count m' = count'.
Proof.
  intros count' Hgood Hwf Hroom.
  set (J := λ (j : nat) (m' : map),
         max_factor_ m' = max_factor_ m ∧ bucket_count m' = count' ∧
         size m' + j ≤ size m).
  destruct (rehash_body_spec hash_ ins J count m) as (m' & Hre & Hwf' & Hperm & Hcase).
  - intros j m0 k v Hwf0 (Hmf0 & Hbc0 & Hsz0) Hnot.
    assert (roomy m0) as Hroomy0.
    { unfold roomy, max_load_factor in *. rewrite Hbc0, Hmf0. lia. }
    destruct (good_new roomy ins m0 k v Hgood Hwf0 Hroomy0 Hnot)
      as (m1 & a & Hins & Hwf1 & Hmf1 & Hbc1 & Hperm1 & _).
    exists m1, (Node a, true). split_and!; [done..|].
    unfold J. rewrite Hmf1, Hbc1 by done. split_and!; [done..|].
    rewrite (size_entries m1), Hperm1. simpl. rewrite <-size_entries. lia.
  - done.
  - intros _. unfold J, drained, bucket_count, size, List.size. simpl.
    by rewrite length_replicate.
  - exists m'. split_and!; [done..| |].
    + destruct Hcase as [[_ ->]|[_ (? & _)]]; done.
    + destruct Hcase as [[Heq ->]|[_ (_ & ? & _)]]; done.
Qed.

Lemma rehash_body_good ins count m :
  good hash_ (λ _, True) ins → wf hash_ m →
  rehash_post hash_ m (rehash_body ins count m).
Proof.
  intros Hgood Hwf.
  set (J := λ (j : nat) (m' : map), max_factor_ m' = max_factor_ m).
  destruct (rehash_body_spec hash_ ins J count m) as (m' & Hre & Hwf' & Hperm & Hcase).
  - intros j m0 k v Hwf0 Hmf0 Hnot.
    destruct (good_new (λ _, True) ins m0 k v Hgood Hwf0 I Hnot)
      as (m1 & a & Hins & Hwf1 & Hmf1 & Hbc1 & Hperm1 & _).
    exists m1, (Node a, true). split_and!; [done..|].
    unfold J. by rewrite Hmf1.
  - done.
  - done.
  - exists m'. split_and!; [done..|].
    destruct Hcase as [[_ ->]|[_ ?]]; done.
Qed.

Lemma emplace_body_grow reserve c m m1 :
  ¬ roomy m →
  reserve (max default_start_size (growing_coefficient * size m)) m
    = Ret m1 () →
  roomy m1 →
  emplace_body hash_ reserve c m = emplace_body hash_ reserve c m1.
Proof.
  intros Hnr Hre Hr. unfold emplace_body.
  destruct (decide (floor_mul (bucket_count m) (max_load_factor m)
                    < size m + 1)) as [_|?]; [|unfold roomy in *; lia].
  rewrite Hre. simpl.
  destruct (decide (floor_mul (bucket_count m1) (max_load_factor m1)
                    < size m1 + 1)) as [?|_]; [unfold roomy in *; lia|].
  done.
Qed.

Lemma emplace_post_grown m m1 c o :
  entries m1 ≡ₚ entries m → max_factor_ m1 = max_factor_ m → ¬ roomy m →
  emplace_post hash_ m1 c o → emplace_post hash_ m c o.
Proof.
  intros Hperm Hmf Hnr. destruct c as [[k v]|]; simpl.
  - intros (m' & a & isnew & -> & Hwf' & Hmf' & _ & Hrest).
    exists m', a, isnew. split_and!; [done|done|congruence|done|].
    destruct isnew.
    + destruct Hrest as (Hnot & Hperm' & Hin). split_and!; [|by rewrite <-Hperm|done].
      unfold keys in *. by rewrite <-Hperm.
    + destruct Hrest as (v0 & Hin & Hperm' & Hin' & _). exists v0.
      split_and!; [by rewrite <-Hperm|by rewrite <-Hperm|done..].
  - intros (m' & -> & Hwf' & Hperm' & Hmf' & _). exists m'.
    split_and!; [done|done|by rewrite <-Hperm|congruence|done].
Qed.

(** [emplace] over a [rehash] whose reinsertions need no growth. *)
Lemma emplace_body_good ins :
  good hash_ roomy ins →
  good hash_ (λ _, True)
    (emplace_body hash_ (reserve_body (rehash_body ins))).
Proof.
  intros Hgood m c Hwf _.
  destruct (decide (size m + 1
                    ≤ floor_mul (bucket_count m) (max_load_factor m)))
    as [Hr|Hnr]; fold (roomy m) in *.
  { by apply emplace_body_good_roomy. }
  set (n := max default_start_size (growing_coefficient * size m)).
  assert (size m + 1 ≤ n) as Hn.
  { unfold n, default_start_size, growing_coefficient. lia. }
  pose proof (floor_mul_ceil_div n (max_load_factor m)) as Hceil.
  set (count' := max (ceil_div n (max_load_factor m))
                     (floor_div (size m) (max_load_factor m))).
  assert (n ≤ floor_mul count' (max_load_factor m)) as Hroom.
  { etrans; [exact Hceil|]. apply floor_mul_mono. unfold count'. lia. }
  destruct (rehash_body_roomy ins (ceil_div n (max_load_factor m)) m
              Hgood Hwf) as (m1 & Hre & Hwf1 & Hperm & Hmf & Hbc).
  { fold count'. lia. }
  fold count' in Hbc.
  assert (roomy m1) as Hr1.
  { unfold roomy, max_load_factor in *.
    rewrite (size_entries m1), Hperm, <-size_entries, Hbc, Hmf. lia. }
  rewrite (emplace_body_grow _ c m m1 Hnr Hre Hr1).
  apply (emplace_post_grown m m1); [done..|].
  by apply emplace_body_good_roomy.
Qed.

(** ** Enough fuel *)

Lemma emplace_good_roomy fuel :
  good (Value := Value) hash_ roomy (emplace hash_ (S fuel)).
Proof. apply emplace_body_good_roomy. Qed.

Lemma emplace_good fuel :
  good (Value := Value) hash_ (λ _, True) (emplace hash_ (S (S fuel))).
Proof. apply emplace_body_good, emplace_good_roomy. Qed.

Lemma rehash_good fuel count m :
  wf hash_ m → rehash_post hash_ m (rehash hash_ (S (S fuel)) count m).
Proof. intros Hwf. apply rehash_body_good; [apply emplace_good|done]. Qed.

Lemma reserve_good fuel count m :
  wf hash_ m → rehash_post hash_ m (reserve hash_ (S (S fuel)) count m).
Proof. intros Hwf. by apply rehash_good. Qed.

(** ** More fuel changes no outcome *)

Lemma reinsert_mono ins ins' items m :
  (∀ c m, ins c m ≠ OutOfFuel → ins' c m = ins c m) →
  reinsert ins items m ≠ OutOfFuel →
  reinsert ins' items m = reinsert ins items m.
Proof.
  intros Hle. revert m. induction items as [|n items IH]; intros m; simpl;
    [done|].
  destruct (ins (Some n.2) m) as [m1 r| | |] eqn:Hins; intros Hne;
    [| | |done].
  - rewrite Hle, Hins by (by rewrite Hins). by apply IH.
  - by rewrite Hle, Hins by (by rewrite Hins).
  - by rewrite Hle, Hins by (by rewrite Hins).
Qed.

Lemma rehash_body_mono ins ins' count m :
  (∀ c m, ins c m ≠ OutOfFuel → ins' c m = ins c m) →
  rehash_body ins count m ≠ OutOfFuel →
  rehash_body ins' count m = rehash_body ins count m.
Proof.
  intros Hle. unfold rehash_body.
  destruct (decide _); [done|].
  destruct (drain_spec (List.chain (values_ m)) List.empty_list)
    as (copy & -> & _). simpl.
  match goal with
  | |- context [reinsert ins ?items ?m0] =>
      destruct (reinsert ins items m0) as [[m1 rest] r| | |] eqn:Hre;
      intros Hne; [| | |done];
      rewrite (reinsert_mono ins ins' items m0 Hle), Hre
        by (by rewrite Hre); done
  end.
Qed.

Lemma emplace_body_mono reserve reserve' c m :
  (∀ n m, reserve n m ≠ OutOfFuel → reserve' n m = reserve n m) →
  emplace_body hash_ reserve c m ≠ OutOfFuel →
  emplace_body hash_ reserve' c m = emplace_body hash_ reserve c m.
Proof.
  intros Hle. unfold emplace_body. destruct (decide _); [|done].
  match goal with
  | |- context [reserve ?n m] =>
      destruct (reserve n m) as [m1 r| | |] eqn:Hre; intros Hne;
      [| | |done]; by rewrite Hle, Hre by (by rewrite Hre)
  end.
Qed.

Lemma emplace_mono_S fuel c m :
  emplace hash_ fuel c m ≠ OutOfFuel →
  emplace hash_ (S fuel) c m = emplace hash_ fuel c m.
Proof.
  revert c m. induction fuel as [|fuel IH]; intros c m; [done|].
  cbn [emplace]. apply emplace_body_mono. intros n m'. unfold reserve_body.
  apply rehash_body_mono. exact IH.
Qed.

Lemma emplace_mono fuel fuel' c m :
  fuel ≤ fuel' → emplace hash_ fuel c m ≠ OutOfFuel →
  emplace hash_ fuel' c m = emplace hash_ fuel c m.
Proof.
  induction 1 as [|fuel' _ IH]; [done|]. intros Hne.
  rewrite emplace_mono_S; [by apply IH|]. by rewrite IH.
Qed.

Lemma emplace_fuel fuel c m o :
  emplace hash_ fuel c m = o → o ≠ OutOfFuel →
  emplace hash_ (S (S fuel)) c m = o.
Proof.
  intros <- Hne. apply emplace_mono; [lia|done].
Qed.

Lemma rehash_fuel fuel count m o :
  rehash hash_ fuel count m = o → o ≠ OutOfFuel →
  rehash hash_ (S (S fuel)) count m = o.
Proof.
  intros <- Hne. apply rehash_body_mono; [|done].
  intros c m'. apply emplace_mono. lia.
Qed.
End Fuel.

Section EraseRuns.
Context {Key Value : Type}.
Local Abbreviation node := (nat * (Key * Value))%type.
Implicit Types (bk : node → nat) (ns pre post run : list node) (b a : nat).
Implicit Types (e : Key * Value).

(** The head of a run unlinked: the next node inherits the bucket when
    it belongs to it. *)
Lemma run_at_delete_head bk pre a e post b :
  NoDup (pre ++ (a, e) :: post).*1 →
  run_at bk (pre ++ (a, e) :: post) b (Node a) →
  run_at bk (pre ++ post) b
    (match post with
     | n :: _ => if decide (bk n = b) then Node n.1 else End
     | [] => End
     end).
Proof.
  intros Hnd (pre0 & e0 & run & post0 & Heq & Hpre & Hrun & Hpost).
  apply NoDup_addr_app_inv in Heq as (<- & <- & ->); [|done].
  apply Forall_cons in Hrun as [_ Hrun].
  destruct run as [|[a1 e1] run]; simpl.
  - destruct post0 as [|n post0]; simpl.
    + by rewrite app_nil_r.
    + pose proof Hpost as [Hn _]%Forall_cons.
      rewrite decide_False by done. simpl. by apply Forall_app.
  - pose proof Hrun as [Hn _]%Forall_cons. rewrite decide_True by done.
    by exists pre, e1, run, post0.
Qed.

(** A node inside a run unlinked. *)
Lemma run_at_delete_inner bk pre a e post b a0 :
  NoDup (pre ++ (a, e) :: post).*1 → a ≠ a0 → bk (a, e) = b →
  run_at bk (pre ++ (a, e) :: post) b (Node a0) →
  run_at bk (pre ++ post) b (Node a0).
Proof.
  intros Hnd Hne Hb (pre0 & e0 & run & post0 & Heq & Hpre & Hrun & Hpost).
  assert ((a, e) ∈ run) as Hin.
  { assert ((a, e) ∈ pre0 ++ (a0, e0) :: run ++ post0) as Hin.
    { rewrite <-Heq. apply elem_of_app. right. apply elem_of_cons. by left. }
    apply elem_of_app in Hin as [Hin|Hin].
    { rewrite Forall_forall in Hpre. by destruct (Hpre _ Hin). }
    apply elem_of_cons in Hin as [?|Hin]; [congruence|].
    apply elem_of_app in Hin as [Hin|Hin]; [done|].
    rewrite Forall_forall in Hpost. by destruct (Hpost _ Hin). }
  apply list_elem_of_split in Hin as (r1 & r2 & ->).
  assert (pre ++ (a, e) :: post
          = (pre0 ++ (a0, e0) :: r1) ++ (a, e) :: (r2 ++ post0)) as Heq'.
  { rewrite Heq. by simplify_list_eq. }
  apply NoDup_addr_app_inv in Heq' as (-> & _ & ->); [|done].
  exists pre0, e0, (r1 ++ r2), post0.
  split_and!; [by simplify_list_eq|done| |done].
  apply Forall_cons in Hrun as [? Hrun]. apply Forall_cons. split; [done|].
  rewrite !Forall_app, Forall_cons in Hrun. rewrite Forall_app. tauto.
Qed.
End EraseRuns.

Section Erase.
Context {Key Value : Type} `{EqDecision Key} (hash_ : Key → nat).
Local Abbreviation map := (t (Key := Key) (Value := Value)).
Implicit Types (m : map) (ns pre post run : list (nat * (Key * Value))).
Implicit Types (b a : nat) (e : Key * Value).

Lemma wf_unlink m pre a e post buckets' :
  wf hash_ m →
  List.chain (values_ m) = pre ++ (a, e) :: post →
  length buckets' = bucket_count m →
  (∀ b head, buckets' !! b = Some head →
     run_at (bucket_of hash_ m) (pre ++ post) b head) →
  wf hash_ {| max_factor_ := max_factor_ m;
              values_ := List.mk (pre ++ post) (List.fresh (values_ m));
              buckets_ := buckets' |}.
Proof.
  intros [Haddrs Hfresh Hkeys Hbuckets Hruns] Hch Hlen Hruns'.
  unfold keys, entries in *. rewrite Hch in *.
  assert (0 < bucket_count m) as Hpos by (apply Hbuckets; by destruct pre).
  constructor; unfold keys, entries, bucket_count; simpl.
  - rewrite fmap_app in *. simpl in Haddrs.
    apply NoDup_app in Haddrs as (? & Hdisj & [_ ?]%NoDup_cons).
    apply NoDup_app. split_and!; [done| |done].
    intros x Hx Hx'. apply (Hdisj _ Hx). apply elem_of_cons. by right.
  - rewrite fmap_app, Forall_app in *. simpl in Hfresh.
    rewrite Forall_cons in Hfresh. tauto.
  - rewrite !fmap_app in *. simpl in Hkeys.
    apply NoDup_app in Hkeys as (? & Hdisj & [_ ?]%NoDup_cons).
    apply NoDup_app. split_and!; [done| |done].
    intros x Hx Hx'. apply (Hdisj _ Hx). apply elem_of_cons. by right.
  - intros _. by rewrite Hlen.
  - intros b head Hlook. unfold bucket_of, bucket_count. simpl.
    rewrite Hlen. by apply Hruns'.
Qed.

Lemma erase_spec m a e :
  wf hash_ m → (a, e) ∈ List.chain (values_ m) →
  ∃ m' pre post,
    List.chain (values_ m) = pre ++ (a, e) :: post ∧
    erase hash_ (Node a) m
      = Ret m' (match post with [] => End | n :: _ => Node n.1 end) ∧
    wf hash_ m' ∧
    List.chain (values_ m') = pre ++ post ∧
    max_factor_ m' = max_factor_ m ∧
    bucket_count m' = bucket_count m.
Proof.
  intros Hwf Hin. pose proof (wf_nonempty_pos _ _ _ Hwf Hin) as Hpos.
  pose proof (wf_addrs _ _ Hwf) as Hnd0. pose proof Hnd0 as Hnd.
  destruct (list_elem_of_split _ _ Hin) as (pre & post & Hch).
  rewrite Hch in Hnd.
  assert (a ∉ pre.*1) as Hpre by (by eapply NoDup_addr_not_in_pre).
  set (b := hash_ e.1 mod bucket_count m).
  destruct (wf_run hash_ m e.1 Hwf Hpos) as (head & Hhead & Hrun).
  fold b in Hhead, Hrun.
  destruct (run_at_elem _ _ _ _ _ Hrun Hin eq_refl) as [a0 ->].
  rewrite Hch in Hrun.
  (* the iterator that [erase] returns *)
  set (result := match post with [] => End | n :: _ => Node n.1 end).
  assert ((if decide (result ≠ End) then
             e' ← List.deref result (values_ m);
             r ← find hash_ e'.1 m;
             if decide (r ≠ End) then Some r else None
           else Some End) = Some result) as Hresult.
  { destruct post as [|[a1 [k1 v1]] post]; [done|]. unfold result.
    rewrite decide_True by done.
    assert ((a1, (k1, v1)) ∈ List.chain (values_ m)) as Hin1.
    { rewrite Hch. apply elem_of_app. right. apply elem_of_cons. right.
      apply elem_of_cons. by left. }
    rewrite (deref_elem a1 (k1, v1)) by done. simpl.
    rewrite (find_hit hash_ m a1 k1 v1 Hwf Hin1). done. }
  (* the bucket heads after the call *)
  set (buckets' :=
         if decide (a = a0) then
           <[b := match post with
                  | n :: _ => if decide (bucket_of hash_ m n = b)
                              then Node n.1 else End
                  | [] => End
                  end]> (buckets_ m)
         else buckets_ m).
  assert ((if decide (Node a = Node a0) then
             if decide (result ≠ End) then
               e' ← List.deref result (values_ m);
               h ← get_hash hash_ e'.1 m;
               if decide (h = b) then Some (<[b := result]> (buckets_ m))
               else Some (<[b := End]> (buckets_ m))
             else Some (<[b := End]> (buckets_ m))
           else Some (buckets_ m)) = Some buckets') as Hbuckets.
  { unfold buckets'. destruct (decide (a = a0)) as [->|Hne].
    - rewrite decide_True by done.
      destruct post as [|[a1 e1] post]; [done|]. unfold result.
      rewrite decide_True by done.
      assert ((a1, e1) ∈ List.chain (values_ m)) as Hin1.
      { rewrite Hch. apply elem_of_app. right. apply elem_of_cons. right.
        apply elem_of_cons. by left. }
      rewrite (deref_elem a1 e1) by done. simpl.
      rewrite get_hash_Some by done. simpl.
      unfold bucket_of. simpl. by repeat case_decide.
    - rewrite decide_False by congruence. done. }
  exists {| max_factor_ := max_factor_ m;
            values_ := List.mk (pre ++ post) (List.fresh (values_ m));
            buckets_ := buckets' |}, pre, post.
  split; [done|]. split.
  { unfold erase. rewrite (deref_elem a e) by done.
    rewrite get_hash_Some by done. fold b.
    destruct m as [mf [ch fr] bs].
    cbn [values_ buckets_ max_factor_ List.chain List.fresh] in *. subst ch.
    rewrite list_next by done. fold result. unfold end_, List.end_.
    rewrite Hresult, Hhead, Hbuckets. unfold on_values. simpl.
    rewrite (unlink_app pre a e post Hpre). reflexivity. }
  split.
  { apply (wf_unlink m pre a e post buckets' Hwf Hch).
    - unfold buckets'. destruct (decide (a = a0)); [|done].
      by rewrite length_insert.
    - intros b' head' Hlook.
      destruct (decide (b' = b)) as [->|Hne'].
      + unfold buckets' in Hlook. destruct (decide (a = a0)) as [->|Hne].
        * rewrite list_lookup_insert_eq in Hlook by (by apply bucket_lt).
          injection Hlook as <-.
          by apply (run_at_delete_head _ pre a0 e post b).
        * rewrite Hhead in Hlook. injection Hlook as <-.
          by apply (run_at_delete_inner _ pre a e post b a0).
      + apply (run_at_delete _ pre post (a, e)); [done|].
        rewrite <-Hch. apply (wf_runs _ _ Hwf).
        unfold buckets' in Hlook. destruct (decide (a = a0)); [|done].
        by rewrite list_lookup_insert_ne in Hlook. }
  split_and!; [done..|]. unfold bucket_count, buckets'. simpl.
  destruct (decide (a = a0)); [|done]. by rewrite length_insert.
Qed.

(** [erase] returns only for an iterator to an entry of the map. *)
Lemma erase_Ret_inv it m m' r :
  erase hash_ it m = Ret m' r →
  ∃ a e, it = Node a ∧ (a, e) ∈ List.chain (values_ m).
Proof.
  unfold erase. destruct (List.deref it (values_ m)) as [e|] eqn:He; [|done].
  intros _. destruct it as [|a]; [done|]. exists a, e. split; [done|].
  by apply deref_Some.
Qed.
End Erase.

Section Reachable.
Context {Key Value : Type} `{EqDecision Key} (hash_ : Key → nat).
Local Abbreviation map := (t (Key := Key) (Value := Value)).
Implicit Types (m : map) (ns pre post run : list (nat * (Key * Value))).
Implicit Types (b a : nat) (e : Key * Value) (k key : Key) (v : Value).

Lemma wf_construct : wf (Value := Value) hash_ construct.
Proof. apply (wf_drained hash_ 0 construct). Qed.

Lemma wf_set_max_load_factor f m :
  wf hash_ m → wf hash_ (set_max_load_factor f m).
Proof. intros [? ? ? ? ?]. by constructor. Qed.

(** ** [find] on a well-formed map *)

Lemma find_entry m k v : wf hash_ m → (k, v) ∈ entries m → maps_to hash_ m k v.
Proof.
  intros Hwf (a & Hin)%entries_in_chain. exists a.
  split; [by eapply find_hit|]. apply deref_elem; [|done].
  apply (wf_addrs _ _ Hwf).
Qed.

Lemma maps_to_entry m k v : maps_to hash_ m k v → (k, v) ∈ entries m.
Proof.
  intros (a & _ & Hin%deref_Some). by eapply chain_in_entries.
Qed.

Lemma find_total m k :
  wf hash_ m →
  ∃ it, find hash_ k m = Some it ∧
        (it = End ↔ k ∉ keys m) ∧
        (∀ a, it = Node a →
           ∃ v, List.deref (Node a) (values_ m) = Some (k, v)).
Proof.
  intros Hwf. destruct (decide (k ∈ keys m)) as [Hin|Hnot].
  - destruct (keys_in_chain _ _ Hin) as (a & v & Hin').
    exists (Node a). split; [by eapply find_hit|]. split; [done|].
    intros ? [= <-]. exists v. apply deref_elem; [|done].
    apply (wf_addrs _ _ Hwf).
  - exists End. split; [by apply find_miss|]. done.
Qed.

(** ** The runs as the traversal sees them *)

Lemma take_while_run {A} (p : A → bool) (run post : list A) :
  Forall (λ x, p x = true) run → Forall (λ x, p x = false) post →
  take_while p (run ++ post) = run.
Proof.
  intros Hrun Hpost. induction Hrun as [|x run Hx _ IH]; simpl.
  - destruct Hpost as [|y post Hy _]; simpl; [done|]. by rewrite Hy.
  - by rewrite Hx, IH.
Qed.

Lemma wf_run_of m b a pre e run post :
  wf hash_ m → buckets_ m !! b = Some (Node a) →
  List.chain (values_ m) = pre ++ (a, e) :: run ++ post →
  Forall (λ n, bucket_of hash_ m n = b) ((a, e) :: run) →
  Forall (λ n, bucket_of hash_ m n ≠ b) post →
  run_of hash_ b m = (a, e) :: run.
Proof.
  intros Hwf Hhead Hch Hrun Hpost. unfold run_of. rewrite Hhead. simpl.
  pose proof (wf_addrs _ _ Hwf) as Hnd. rewrite Hch in Hnd.
  rewrite Hch, seek_app by (by eapply NoDup_addr_not_in_pre).
  apply Forall_cons in Hrun as [Hb Hrun]. f_equal.
  apply take_while_run.
  - eapply Forall_impl; [exact Hrun|]. intros n Hn. simpl in Hn.
    apply bool_decide_eq_true. congruence.
  - eapply Forall_impl; [exact Hpost|]. intros n Hn. simpl in Hn.
    apply bool_decide_eq_false. congruence.
Qed.

Lemma wf_contiguous m : wf hash_ m → contiguous hash_ m.
Proof.
  intros Hwf b Hb.
  destruct (lookup_lt_is_Some_2 (buckets_ m) b Hb) as [head Hhead].
  pose proof (wf_runs _ _ Hwf b head Hhead) as Hrun.
  destruct head as [|a].
  - unfold run_of. rewrite Hhead. simpl. split.
    + by intros n ?%elem_of_nil.
    + intros n Hin Hn. simpl in Hrun. rewrite Forall_forall in Hrun.
      by destruct (Hrun _ Hin).
  - destruct Hrun as (pre & e & run & post & Hch & Hpre & Hrun & Hpost).
    rewrite (wf_run_of m b a pre e run post) by done. split.
    + intros n Hin. rewrite Forall_forall in Hrun. by apply Hrun.
    + intros n Hin Hn. rewrite Hch in Hin.
      apply elem_of_app in Hin as [Hin|Hin].
      { rewrite Forall_forall in Hpre. by destruct (Hpre _ Hin). }
      rewrite app_comm_cons in Hin.
      apply elem_of_app in Hin as [Hin|Hin]; [done|].
      rewrite Forall_forall in Hpost. by destruct (Hpost _ Hin).
Qed.

(** ** Every operation keeps the map well formed *)

Lemma emplace_Ret_wf fuel c m m' r :
  wf hash_ m → emplace hash_ fuel c m = Ret m' r → wf hash_ m'.
Proof.
  intros Hwf Hem. apply emplace_fuel in Hem; [|done].
  pose proof (emplace_good hash_ fuel m c Hwf I) as Hpost.
  rewrite Hem in Hpost. destruct c as [[k v]|]; simpl in Hpost.
  - destruct Hpost as (m'' & a & isnew & [= <- _] & ? & _). done.
  - by destruct Hpost as (m'' & [=] & _).
Qed.

Lemma emplace_Thrown_wf fuel c m m' :
  wf hash_ m → emplace hash_ fuel c m = Thrown m' → wf hash_ m'.
Proof.
  intros Hwf Hem. apply emplace_fuel in Hem; [|done].
  pose proof (emplace_good hash_ fuel m c Hwf I) as Hpost.
  rewrite Hem in Hpost. destruct c as [[k v]|]; simpl in Hpost.
  - by destruct Hpost as (m'' & a & isnew & [=] & _).
  - destruct Hpost as (m'' & [= <-] & ? & _). done.
Qed.

Lemma erase_Ret_wf it m m' r :
  wf hash_ m → erase hash_ it m = Ret m' r → wf hash_ m'.
Proof.
  intros Hwf Her. destruct (erase_Ret_inv _ _ _ _ _ Her) as (a & e & -> & Hin).
  destruct (erase_spec hash_ m a e Hwf Hin)
    as (m'' & pre & post & _ & Her' & Hwf' & _).
  rewrite Her' in Her. by injection Her as <- _.
Qed.

Lemma rehash_Ret_wf fuel count m m' :
  wf hash_ m → rehash hash_ fuel count m = Ret m' () → wf hash_ m'.
Proof.
  intros Hwf Hre. apply rehash_fuel in Hre; [|done].
  destruct (rehash_good hash_ fuel count m Hwf) as (m'' & Hre' & ? & _).
  rewrite Hre' in Hre. by injection Hre as <-.
Qed.

Lemma operator_index_move_Ret_wf fuel v key m m' r :
  wf hash_ m → operator_index_move hash_ fuel v key m = Ret m' r →
  wf hash_ m'.
Proof.
  intros Hwf. unfold operator_index_move.
  destruct (emplace hash_ fuel (Some (key, v)) m) as [m1 r1| | |] eqn:Hem;
    [|done..].
  simpl. destruct (List.deref _ _); [|done]. intros [= <- _].
  by eapply emplace_Ret_wf.
Qed.

(** ** The move constructor *)

Lemma move_construct_spec fuel m :
  wf hash_ m →
  ∃ this,
    move_construct hash_ (S (S fuel)) m
      = Ret (this, {| max_factor_ := max_factor_ m;
                      values_ := List.mk [] (List.fresh (values_ m));
                      buckets_ := [] |}) () ∧
    wf hash_ this ∧ entries this ≡ₚ entries m.
Proof.
  intros Hwf. unfold move_construct.
  destruct (reinsert_spec hash_ (emplace hash_ (S (S fuel))) (λ _ _, True)
              (List.chain (values_ m))
              (drained (bucket_count m) construct))
    as (this & Hre & Hwf' & Hperm & _).
  - intros j m0 k v Hwf0 _ Hnot.
    destruct (good_new hash_ (λ _, True) _ m0 k v
                (emplace_good hash_ fuel) Hwf0 I Hnot)
      as (m1 & a & Hins & Hwf1 & _ & _ & Hperm1 & _).
    by exists m1, (Node a, true).
  - apply wf_drained.
  - done.
  - change (keys (drained (bucket_count m) construct)) with (@nil Key).
    rewrite app_nil_r. apply (wf_keys _ _ Hwf).
  - exists this. split_and!; [|done|].
    + change (reinsert _ _ _)
        with (reinsert (emplace hash_ (S (S fuel))) (List.chain (values_ m))
                (drained (bucket_count m) construct)).
      rewrite Hre. done.
    + rewrite Hperm.
      change (entries (drained (bucket_count m) construct))
        with (@nil (Key * Value)).
      by rewrite app_nil_r.
Qed.

Lemma move_construct_fuel fuel m o :
  move_construct hash_ fuel m = o → o ≠ OutOfFuel →
  move_construct hash_ (S (S fuel)) m = o.
Proof.
  unfold move_construct. intros <- Hne.
  rewrite (reinsert_mono (emplace hash_ fuel) (emplace hash_ (S (S fuel)))).
  - done.
  - intros c m'. apply emplace_mono. lia.
  - intros Heq. by rewrite Heq in Hne.
Qed.

Lemma move_construct_Ret_wf fuel m this m' :
  wf hash_ m → move_construct hash_ fuel m = Ret (this, m') () →
  wf hash_ this ∧ wf hash_ m'.
Proof.
  intros Hwf Hmv. apply move_construct_fuel in Hmv; [|done].
  destruct (move_construct_spec fuel m Hwf) as (this' & Hmv' & Hwf' & _).
  rewrite Hmv' in Hmv. injection Hmv as <- <-. split; [done|].
  apply (wf_drained hash_ 0 m).
Qed.

Lemma reachable_wf m : reachable hash_ m → wf hash_ m.
Proof.
  induction 1 as [|f m _ IH|fuel c m m' r _ IH Hop|fuel c m m' _ IH Hop
                  |it m m' r _ IH Hop|fuel count m m' _ IH Hop
                  |fuel count m m' _ IH Hop|fuel v key m m' r _ IH Hop
                  |fuel m this m' _ IH Hop|fuel m this m' _ IH Hop].
  - apply wf_construct.
  - by apply wf_set_max_load_factor.
  - by eapply emplace_Ret_wf.
  - by eapply emplace_Thrown_wf.
  - by eapply erase_Ret_wf.
  - by eapply rehash_Ret_wf.
  - unfold reserve, reserve_body in Hop. by eapply rehash_Ret_wf.
  - by eapply operator_index_move_Ret_wf.
  - by destruct (move_construct_Ret_wf _ _ _ _ IH Hop).
  - by destruct (move_construct_Ret_wf _ _ _ _ IH Hop).
Qed.
End Reachable.

(** * The properties of the specification *)

Section Claims.
Context {Key Value : Type} `{EqDecision Key} (hash_ : Key → nat).
Local Abbreviation map := (t (Key := Key) (Value := Value)).
Implicit Types (m : map) (ns pre post run : list (nat * (Key * Value))).
Implicit Types (b a : nat) (e : Key * Value) (k key : Key) (v : Value).

Lemma entries_functional m k v v' :
  wf hash_ m → (k, v) ∈ entries m → (k, v') ∈ entries m → v = v'.
Proof.
  intros Hwf. pose proof (wf_keys _ _ Hwf) as Hnd. unfold keys in Hnd.
  induction (entries m) as [|[k0 v0] l IH]; simpl in Hnd.
  { by intros ?%elem_of_nil. }
  apply NoDup_cons in Hnd as [Hnot Hnd].
  intros [[= -> ->]|Hin]%elem_of_cons [[= ->]|Hin']%elem_of_cons.
  - done.
  - destruct Hnot. by apply (list_elem_of_fmap_2 fst) in Hin'.
  - subst. destruct Hnot. by apply (list_elem_of_fmap_2 fst) in Hin.
  - by apply IH.
Qed.

Lemma wf_same_content m m' :
  wf hash_ m' → entries m' ≡ₚ entries m → same_content hash_ m m'.
Proof.
  intros Hwf' Hperm. split_and!; [|done|].
  - by rewrite !size_entries, Hperm.
  - intros k v Hto%maps_to_entry. apply find_entry; [done|].
    by rewrite Hperm.
Qed.

Lemma fuel_two (P : nat → Prop) :
  (∀ fuel', P (S (S fuel'))) → ∀ fuel, 2 ≤ fuel → P fuel.
Proof. intros HP fuel Hle. destruct fuel as [|[|fuel]]; [lia..|]. apply HP. Qed.

(** C1.  Bucket-chain contiguity: in every map reachable from the empty
    map by insert/emplace, erase and rehash, for every bucket [b] the
    maximal run of consecutive entries that starts at the head of [b]
    holds only entries whose key hashes to [b], and no entry whose key
    hashes to [b] lies outside that run.  Each of insert, erase and
    rehash returns on such a map (insert and rehash with fuel 2, erase
    on an iterator to an entry) and leaves a map with the same
    property. *)
Theorem contiguity_invariant m :
  reachable hash_ m →
  contiguous hash_ m ∧
  (∀ fuel c m' r,
     emplace hash_ fuel c m = Ret m' r → contiguous hash_ m') ∧
  (∀ it m' r, erase hash_ it m = Ret m' r → contiguous hash_ m') ∧
  (∀ fuel count m',
     rehash hash_ fuel count m = Ret m' () → contiguous hash_ m') ∧
  (∀ fuel node, 2 ≤ fuel → ∃ m' r, insert hash_ fuel node m = Ret m' r) ∧
  (∀ a e, (a, e) ∈ List.chain (values_ m) →
          ∃ m' r, erase hash_ (Node a) m = Ret m' r) ∧
  (∀ fuel count, 2 ≤ fuel → ∃ m', rehash hash_ fuel count m = Ret m' ()).
Proof.
  intros Hwf%reachable_wf. split_and!.
  - by apply wf_contiguous.
  - intros fuel c m' r Hop. eapply wf_contiguous, emplace_Ret_wf; done.
  - intros it m' r Hop. eapply wf_contiguous, erase_Ret_wf; done.
  - intros fuel count m' Hop. eapply wf_contiguous, rehash_Ret_wf; done.
  - intros fuel [k v] Hfuel. revert fuel Hfuel. apply fuel_two. intros fuel.
    destruct (emplace_good hash_ fuel m (Some (k, v)) Hwf I)
      as (m' & a & isnew & Hop & _). by exists m', (Node a, isnew).
  - intros a e Hin.
    destruct (erase_spec hash_ m a e Hwf Hin) as (m' & pre & post & _ & Hop & _).
    by eexists _, _.
  - intros fuel count Hfuel. revert fuel Hfuel. apply fuel_two. intros fuel.
    destruct (rehash_good hash_ fuel count m Hwf) as (m' & Hop & _).
    by exists m'.
Qed.

(** C3.  Rehash preserves content: on every reachable map, and for
    every target count, [rehash] and [reserve] return and leave
    [size()] unchanged, the entries met by a traversal from [begin()]
    to [end()] unchanged up to their order, and every key that was
    found still found with the same mapped value. *)
Theorem rehash_preserves_content fuel count m :
  reachable hash_ m → 2 ≤ fuel →
  (∃ m', rehash hash_ fuel count m = Ret m' () ∧ same_content hash_ m m') ∧
  (∃ m', reserve hash_ fuel count m = Ret m' () ∧ same_content hash_ m m').
Proof.
  intros Hwf%reachable_wf Hfuel. revert fuel Hfuel. apply fuel_two.
  intros fuel. split.
  - destruct (rehash_good hash_ fuel count m Hwf) as (m' & Hop & ? & ? & _).
    exists m'. split; [done|]. by apply wf_same_content.
  - destruct (reserve_good hash_ fuel count m Hwf) as (m' & Hop & ? & ? & _).
    exists m'. split; [done|]. by apply wf_same_content.
Qed.

(** [rehash] to a count that has room for the entries at the maximal
    load factor ends with that count of buckets. *)
Lemma rehash_bucket_count fuel count m :
  reachable hash_ m → 1 ≤ fuel →
  let count' := max count (floor_div (size m) (max_load_factor m)) in
  size m ≤ floor_mul count' (max_load_factor m) →
  ∃ m', rehash hash_ fuel count m = Ret m' () ∧ bucket_count m' = count'.
Proof.
  intros Hwf%reachable_wf Hfuel count' Hroom.
  destruct fuel as [|fuel]; [lia|].
  destruct (rehash_body_roomy hash_ (emplace hash_ (S fuel)) count m
              (emplace_good_roomy hash_ fuel) Hwf Hroom)
    as (m' & Hop & _ & _ & _ & Hbc).
  by exists m'.
Qed.

(** The non-const [find] never fails on a reachable map: it returns the
    end iterator exactly when no entry has the key, and otherwise an
    iterator to the entry of the key. *)
Lemma find_reachable m k :
  reachable hash_ m →
  ∃ it, find hash_ k m = Some it ∧
        (it = End ↔ k ∉ keys m) ∧
        (∀ a, it = Node a →
           ∃ v, List.deref (Node a) (values_ m) = Some (k, v)).
Proof. intros Hwf%reachable_wf. by apply find_total. Qed.


(** C5.  Duplicate insert: on every reachable map that holds an entry
    [(k, v1)], inserting [(k, v2)] returns the pair of an iterator to
    the entry of [k] and [false], and leaves [size()] and the value
    stored for [k] unchanged. *)
Theorem duplicate_insert fuel m k v1 v2 :
  reachable hash_ m → 2 ≤ fuel → (k, v1) ∈ entries m →
  ∃ m' a,
    insert hash_ fuel (k, v2) m = Ret m' (Node a, false) ∧
    size m' = size m ∧
    maps_to hash_ m' k v1 ∧
    find hash_ k m' = Some (Node a) ∧
    List.deref (Node a) (values_ m') = Some (k, v1).
Proof.
  intros Hwf%reachable_wf Hfuel Hin. revert fuel Hfuel. apply fuel_two.
  intros fuel.
  destruct (emplace_good hash_ fuel m (Some (k, v2)) Hwf I)
    as (m' & a & [] & Hop & Hwf' & _ & _ & Hrest).
  { destruct Hrest as (Hnot & _). destruct Hnot.
    by eapply entries_in_keys. }
  destruct Hrest as (v0 & Hin0 & Hperm & Hin' & _).
  assert (v0 = v1) as -> by (by apply (entries_functional m k)).
  exists m', a. split_and!.
  - done.
  - by rewrite !size_entries, Hperm.
  - apply find_entry; [done|]. by rewrite Hperm.
  - by eapply find_hit.
  - apply deref_elem; [|done]. apply (wf_addrs _ _ Hwf').
Qed.


(** C8, as amended.  When the constructor of the entry throws, the
    exception leaves the call and no node is linked: [List::emplace]
    leaves the list as it was; [UnorderedMap::emplace] on a reachable
    map leaves a map with the same size and the same entries, every key
    still found with its value, and, for a map with the default
    maximal load factor, leaves the map exactly as it was when the
    capacity test asked for no growth. *)
Theorem emplace_constructor_failure fuel m :
  reachable hash_ m → 2 ≤ fuel →
  (∀ it (l : List.t (T := Key * Value)),
     is_Some (List.prev it l) → List.emplace it None l = Thrown l) ∧
  ∃ m', emplace hash_ fuel None m = Thrown m' ∧
        same_content hash_ m m' ∧
        (max_load_factor m = default_factor → roomy m → m' = m).
Proof.
  intros Hwf%reachable_wf Hfuel. split.
  { intros it l [p Hp]. unfold List.emplace. by rewrite Hp. }
  revert fuel Hfuel. apply fuel_two. intros fuel.
  destruct (emplace_good hash_ fuel m None Hwf I)
    as (m' & Hop & Hwf' & Hperm & _ & Hsame).
  exists m'. split_and!; [done| |by intros _]. by apply wf_same_content.
Qed.

(** C10.  Move construction drains the source: from every reachable map
    the move constructor builds a map with the entries the source
    held (same size, every key found with its value) and leaves the
    source with [size() == 0] and [bucket_count() == 0]. *)
Theorem move_construct_drains fuel m :
  reachable hash_ m → 2 ≤ fuel →
  ∃ this m',
    move_construct hash_ fuel m = Ret (this, m') () ∧
    same_content hash_ m this ∧
    size m' = 0 ∧ bucket_count m' = 0.
Proof.
  intros Hwf%reachable_wf Hfuel. revert fuel Hfuel. apply fuel_two.
  intros fuel.
  destruct (move_construct_spec hash_ fuel m Hwf) as (this & Hop & Hwf' & Hperm).
  eexists this, _. split; [exact Hop|]. split_and!; [|done..].
  by apply wf_same_content.
Qed.
End Claims.

(** * The scenarios *)

Section Scenarios.
Import Scenario.

Lemma one_reachable : reachable hash_int one.
Proof.
  apply (reach_emplace hash_int 2 (Some (1, 10)) construct one (Node 0, true)).
  - apply reach_construct.
  - vm_compute. reflexivity.
Qed.

Lemma two_reachable : reachable hash_int two.
Proof.
  apply (reach_emplace hash_int 2 (Some (23, 230)) one two (Node 1, true)).
  - apply one_reachable.
  - vm_compute. reflexivity.
Qed.

Lemma three_reachable : reachable hash_int three.
Proof.
  apply (reach_emplace hash_int 2 (Some (2, 20)) two three (Node 2, true)).
  - apply two_reachable.
  - vm_compute. reflexivity.
Qed.

Lemma insert_all_reachable {Value} fuel (val : nat → Value) ks m m' :
  reachable hash_int m → insert_all fuel val ks m = Ret m' () →
  reachable hash_int m'.
Proof.
  unfold insert_all. revert m'.
  induction ks as [|k ks IH] using rev_ind; intros m' Hm.
  { by intros [= <-]. }
  rewrite foldl_app. simpl.
  destruct (foldl _ _ ks) as [m1 []| | |]; [|done..].
  simpl. destruct (insert hash_int fuel (k, val k) m1) as [m2 r| | |] eqn:Hop;
    [|done..].
  simpl. intros [= <-].
  eapply reach_emplace; [by apply IH|exact Hop].
Qed.

Lemma sixteen_reachable : reachable hash_int sixteen.
Proof.
  apply (insert_all_reachable 2 (λ k, 10 * k) (seq 1 16) construct);
    [apply reach_construct|].
  vm_compute. reflexivity.
Qed.

Lemma sixteen_full : ¬ roomy sixteen.
Proof. unfold roomy. vm_compute. lia. Qed.

Lemma three_roomy : roomy three.
Proof. unfold roomy. vm_compute. lia. Qed.

Lemma three_value :
  three = {| max_factor_ := default_factor;
             values_ := List.mk [(2, (2, 20)); (1, (23, 230)); (0, (1, 10))] 3;
             buckets_ := <[2 := Node 2]> (<[1 := Node 1]> (replicate 22 End)) |}.
Proof. vm_compute. reflexivity. Qed.

(** The property is not vacuous: a chain in which an entry of bucket 2
    separates the entries of bucket 1 does not have it, and there [find]
    misses a key that is present. *)
Lemma interleaved_not_contiguous :
  ¬ contiguous hash_int interleaved ∧
  23 ∈ keys interleaved ∧
  find hash_int 23 interleaved = Some End.
Proof.
  split_and!.
  - intros Hc. destruct (Hc 1) as [_ Hall]; [vm_compute; lia|].
    specialize (Hall (2, (23, 230))).
    assert ((2, (23, 230)) ∈ run_of hash_int 1 interleaved) as Hin.
    { apply Hall; [|done].
      apply (bool_decide_unpack _). vm_compute. exact I. }
    vm_compute in Hin. apply list_elem_of_singleton in Hin. discriminate.
  - apply (bool_decide_unpack _). vm_compute. exact I.
  - vm_compute. reflexivity.
Qed.

(** C2, as amended.  Keys 1 .. 13 inserted one after the other in a
    default-constructed map, whose maximal load factor is 0.75: the
    first insert reserves room for 16 entries, that is 22 buckets, no
    later insert grows the map, and the map ends with 22 buckets and 13
    entries; [find(7)] returns an iterator to the entry of key 7 and
    [find(99)] returns the end iterator. *)
Theorem growth_scenario {Value} (val : nat → Value) :
  ∃ m a,
    thirteen val = Ret m () ∧
    bucket_count m = 22 ∧ size m = 13 ∧
    find hash_int 7 m = Some (Node a) ∧
    List.deref (Node a) (values_ m) = Some (7, val 7) ∧
    find hash_int 99 m = Some End.
Proof.
  eexists _, _. split; [vm_compute; reflexivity|]. vm_compute. done.
Qed.

(** C2 as stated fails: the thirteen inserts do not end with 32
    buckets. *)
Lemma growth_scenario_counterexample :
  ¬ ∃ m a,
      thirteen (λ k, k) = Ret m () ∧
      bucket_count m = 32 ∧ size m = 13 ∧
      find hash_int 7 m = Some (Node a) ∧
      find hash_int 99 m = Some End.
Proof.
  intros (m & a & Hrun & Hbc & _). vm_compute in Hrun.
  injection Hrun as <-. vm_compute in Hbc. discriminate.
Qed.


(** C6.  On the map of the thirteen keys, which has 22 buckets,
    [rehash(0)] clamps the count to 17, the integer part of
    [13 / 0.75], and not to 18; the 13th reinsertion then finds the 17
    buckets too few and grows the map: the call ends with 32 buckets. *)
Theorem rehash_clamp_truncates :
  ∃ m m',
    thirteen (λ k, k) = Ret m () ∧
    bucket_count m = 22 ∧
    ceil_div (size m) (max_load_factor m) = 18 ∧
    floor_div (size m) (max_load_factor m) = 17 ∧
    rehash hash_int 2 0 m = Ret m' () ∧
    bucket_count m' = 32.
Proof.
  eexists _, _. split; [vm_compute; reflexivity|].
  split_and!; [vm_compute; reflexivity..| |]; [vm_compute; reflexivity|].
  vm_compute. reflexivity.
Qed.

(** C8 as stated fails: a constructor that throws in [emplace] on the
    default-constructed map leaves a map with 22 buckets. *)
Lemma emplace_failure_counterexample :
  ∃ m', emplace (Value := nat) hash_int 2 None construct = Thrown m' ∧
        bucket_count (construct (Key := nat) (Value := nat)) = 0 ∧
        bucket_count m' = 22 ∧
        m' ≠ construct.
Proof.
  eexists. split; [vm_compute; reflexivity|]. split_and!; [done..|].
  intros [=].
Qed.

(** C9.  [operator==] advances the first iterator twice and the second
    never: the lists [1, 2] and [1, 3] compare equal, and the
    comparison of the list [1] with itself does not terminate. *)
Theorem list_equality_skips :
  List.operator_eq 2 (ints [1; 2]) (ints [1; 3]) = Ret () true ∧
  (∀ fuel, List.operator_eq fuel (ints [1]) (ints [1]) = OutOfFuel).
Proof.
  split; [done|]. intros fuel. unfold List.operator_eq. simpl.
  induction fuel as [|fuel IH]; [done|]. simpl. exact IH.
Qed.
End Scenarios.

(** * The theorems at the map of the keys 1, 23 and 2 *)

Section Witnesses.
Import Scenario.

Lemma contiguity_invariant_witness :
  reachable hash_int three ∧ contiguous hash_int three.
Proof.
  split; [apply three_reachable|].
  exact (proj1 (contiguity_invariant hash_int three three_reachable)).
Defined.

Lemma rehash_preserves_content_witness :
  2 ≤ 2 ∧
  ∃ m', rehash hash_int 2 40 three = Ret m' () ∧
        same_content hash_int three m'.
Proof.
  split; [lia|].
  exact (proj1 (rehash_preserves_content hash_int 2 40 three
                  three_reachable (le_n 2))).
Defined.

Lemma duplicate_insert_witness :
  (23, 230) ∈ entries three ∧
  ∃ m' a,
    insert hash_int 2 (23, 7) three = Ret m' (Node a, false) ∧
    size m' = size three ∧
    maps_to hash_int m' 23 230 ∧
    find hash_int 23 m' = Some (Node a) ∧
    List.deref (Node a) (values_ m') = Some (23, 230).
Proof.
  assert ((23, 230) ∈ entries three) as Hin.
  { apply (bool_decide_unpack _). vm_compute. exact I. }
  split; [exact Hin|].
  apply (duplicate_insert hash_int 2 three 23 230 7);
    [apply three_reachable|lia|exact Hin].
Defined.



Lemma emplace_constructor_failure_witness :
  max_load_factor three = default_factor ∧ roomy three ∧
  ∃ m', emplace hash_int 2 None three = Thrown m' ∧
        same_content hash_int three m' ∧
        m' = three.
Proof.
  split; [reflexivity|]. split; [exact three_roomy|].
  destruct (proj2 (emplace_constructor_failure hash_int 2 three
                     three_reachable (le_n 2)))
    as (m' & Hop & Hsame & Heq).
  exists m'. split; [exact Hop|]. split; [exact Hsame|].
  exact (Heq eq_refl three_roomy).
Defined.

Lemma move_construct_drains_witness :
  ∃ this m',
    move_construct hash_int 2 three = Ret (this, m') () ∧
    same_content hash_int three this ∧
    size m' = 0 ∧ bucket_count m' = 0.
Proof.
  apply (move_construct_drains hash_int 2 three);
    [apply three_reachable|lia].
Defined.
End Witnesses.

(** * The other members of the node store *)

Section ListMembers.
Context {T : Type}.
Implicit Types (l this list : List.t (T := T)) (ns : list (nat * T)).
Implicit Types (a fr : nat) (x y : T) (copy : T → option T).

Lemma valid_sub ns ns' fr fr' :
  (∀ a, a ∈ ns'.*1 → a ∈ ns.*1) → NoDup ns'.*1 → fr ≤ fr' →
  List.valid (List.mk ns fr) → List.valid (List.mk ns' fr').
Proof.
  intros Hsub Hnd Hfr [_ Hall]. split; [done|]. simpl in *.
  rewrite Forall_forall in *. intros a Ha. apply Hsub, Hall in Ha. lia.
Qed.

Lemma valid_take n ns fr :
  List.valid (List.mk ns fr) → List.valid (List.mk (take n ns) fr).
Proof.
  intros [Hnd Hall]. split; simpl in *.
  - rewrite fmap_take. eapply sublist_NoDup; [done|apply sublist_take].
  - rewrite fmap_take. by apply Forall_take.
Qed.

Lemma valid_drop n ns fr :
  List.valid (List.mk ns fr) → List.valid (List.mk (drop n ns) fr).
Proof.
  intros [Hnd Hall]. split; simpl in *.
  - rewrite fmap_drop. eapply sublist_NoDup; [done|apply sublist_drop].
  - rewrite fmap_drop. by apply Forall_drop.
Qed.

Lemma valid_snoc ns fr x :
  List.valid (List.mk ns fr) →
  List.valid (List.mk (ns ++ [(fr, x)]) (S fr)).
Proof.
  intros [Hnd Hall]. simpl in *. split; simpl; rewrite fmap_app; simpl.
  - apply NoDup_app. split_and!; [done| |apply NoDup_singleton].
    intros a Ha ->%list_elem_of_singleton.
    rewrite Forall_forall in Hall. apply Hall in Ha. lia.
  - apply Forall_app. split; [|apply Forall_singleton; lia].
    eapply Forall_impl; [done|]. simpl. lia.
Qed.

Lemma valid_cons ns fr x :
  List.valid (List.mk ns fr) →
  List.valid (List.mk ((fr, x) :: ns) (S fr)).
Proof.
  intros [Hnd Hall]. simpl in *. split; simpl.
  - apply NoDup_cons. split; [|done]. intros Ha.
    rewrite Forall_forall in Hall. apply Hall in Ha. lia.
  - apply Forall_cons. split; [lia|].
    eapply Forall_impl; [done|]. simpl. lia.
Qed.

Lemma valid_empty_list : List.valid (List.empty_list (T := T)).
Proof. split; simpl; constructor. Qed.

Lemma pop_back_snoc ns a x fr :
  a ∉ ns.*1 →
  List.pop_back (List.mk (ns ++ [(a, x)]) fr) = Ret (List.mk ns fr) ().
Proof.
  intros Hnot. unfold List.pop_back, List.prev, List.end_. simpl.
  rewrite last_snoc. simpl. rewrite unlink_app by done.
  by rewrite app_nil_r.
Qed.

Lemma pop_front_cons a x ns fr :
  List.pop_front (List.mk ((a, x) :: ns) fr) = Ret (List.mk ns fr) ().
Proof.
  unfold List.pop_front, List.begin, List.erase. simpl.
  by rewrite decide_True.
Qed.

Lemma valid_snoc_inv ns a x fr :
  List.valid (List.mk (ns ++ [(a, x)]) fr) →
  (a ∉ ns.*1) ∧ List.valid (List.mk ns fr).
Proof.
  intros [Hnd Hall]. simpl in *. rewrite fmap_app in Hnd, Hall.
  apply NoDup_app in Hnd as (Hnd & Hdisj & _).
  apply Forall_app in Hall as [Hall _]. split; [|done].
  intros Ha. apply (Hdisj _ Ha). simpl. apply elem_of_cons. by left.
Qed.

(** ** The popping loops *)

Lemma pop_while_back fuel bound l :
  List.valid l → List.size l - bound ≤ fuel →
  List.pop_while List.pop_back fuel bound l
  = Ret (List.mk (take bound (List.chain l)) (List.fresh l)) ().
Proof.
  revert l. induction fuel as [|fuel IH]; intros [ch fr] Hv Hfuel;
    simpl in *; unfold List.size in *; simpl in *.
  - case_decide; [lia|]. by rewrite take_ge by lia.
  - case_decide as Hlt; [|by rewrite take_ge by lia].
    destruct (last ch) as [[a x]|] eqn:Hlast.
    2:{ apply last_None in Hlast. subst ch. simpl in Hlt. lia. }
    apply last_Some in Hlast as [ns ->].
    rewrite length_app in Hlt, Hfuel. simpl in Hlt, Hfuel.
    destruct (valid_snoc_inv _ _ _ _ Hv) as [Hnot Hv'].
    rewrite pop_back_snoc by done. simpl.
    rewrite (IH (List.mk ns fr)) by (done || simpl; lia). simpl.
    by rewrite take_app_le by lia.
Qed.

Lemma pop_while_front fuel bound l :
  List.size l - bound ≤ fuel →
  List.pop_while List.pop_front fuel bound l
  = Ret (List.mk (drop (List.size l - bound) (List.chain l))
           (List.fresh l)) ().
Proof.
  revert l. induction fuel as [|fuel IH]; intros [ch fr] Hfuel;
    simpl in *; unfold List.size in *; simpl in *.
  - case_decide; [lia|]. by replace (length ch - bound) with 0 by lia.
  - case_decide as Hlt;
      [|by replace (length ch - bound) with 0 by lia].
    destruct ch as [|[a x] ns]; simpl in *; [lia|].
    rewrite pop_front_cons. simpl.
    rewrite (IH (List.mk ns fr)) by (simpl; lia). simpl.
    by replace (S (length ns) - bound) with (S (length ns - bound)) by lia.
Qed.

Lemma clear_spec l :
  List.valid l → List.clear l = Ret (List.mk [] (List.fresh l)) ().
Proof.
  intros Hv. unfold List.clear. rewrite pop_while_back by (done || lia).
  by rewrite take_0.
Qed.

(** ** The copying loop *)

Lemma push_all_spec copy items l :
  ∃ l' extra,
    List.chain l' = List.chain l ++ extra ∧
    (List.valid l → List.valid l') ∧
    match mapM copy items.*2 with
    | Some ys => List.push_all copy items l = Ret l' () ∧ extra.*2 = ys
    | None => List.push_all copy items l = Thrown l'
    end.
Proof.
  revert l. induction items as [|[a x] items IH]; intros l.
  { exists l, []. by rewrite app_nil_r. }
  cbn [List.push_all fmap list_fmap mapM snd]. simpl.
  destruct (copy x) as [y|] eqn:Hcopy; simpl.
  - destruct (IH (List.mk (List.chain l ++ [(List.fresh l, y)])
                    (S (List.fresh l)))) as (l' & extra & Hch & Hv & Hrun).
    exists l', ((List.fresh l, y) :: extra). simpl in Hch.
    split; [by rewrite Hch, <-app_assoc|].
    split.
    { intros Hl. apply Hv. destruct l. by apply valid_snoc. }
    destruct (mapM copy items.*2) as [ys|]; simpl.
    + destruct Hrun as [-> <-]. done.
    + by rewrite Hrun.
  - exists l, []. by rewrite app_nil_r.
Qed.

Lemma mapM_Some_id (xs : list T) : mapM Some xs = Some xs.
Proof. induction xs as [|x xs IH]; simpl; [done|]. by rewrite IH. Qed.
End ListMembers.

(** * Properties of the node store *)

Section ListProperties.
Context {T : Type}.
Implicit Types (l this list : List.t (T := T)) (ns : list (nat * T)).
Implicit Types (a fr : nat) (x y : T) (copy : T → option T).

(** X1.  The two ends of a list: [push_back] and [push_front] add the
    value after the last and before the first entry; with a copy that
    throws they leave the list as it was; [pop_back] and [pop_front]
    remove the last and the first entry of a list that has one, and on
    an empty list they erase the sentinel, which is undefined. *)
Theorem list_ends l x :
  List.valid l →
  (∃ l', List.push_back (Some x) l = Ret l' () ∧ List.valid l' ∧
         List.values l' = List.values l ++ [x]) ∧
  (∃ l', List.push_front (Some x) l = Ret l' () ∧ List.valid l' ∧
         List.values l' = x :: List.values l) ∧
  List.push_back None l = Thrown l ∧
  List.push_front None l = Thrown l ∧
  match List.values l with
  | [] => List.pop_back l = Undefined ∧ List.pop_front l = Undefined
  | _ :: _ =>
      (∃ l', List.pop_back l = Ret l' () ∧ List.valid l' ∧
             List.values l' = take (List.size l - 1) (List.values l)) ∧
      (∃ l', List.pop_front l = Ret l' () ∧ List.valid l' ∧
             List.values l' = drop 1 (List.values l))
  end.
Proof.
  intros Hv. destruct l as [ch fr]. split_and!.
  - eexists. split; [reflexivity|]. split; [by apply valid_snoc|].
    unfold List.values. simpl. by rewrite fmap_app.
  - fold (List.emplace_front (Some x) (List.mk ch fr)).
    rewrite list_emplace_front. eexists. split; [reflexivity|].
    split; [by apply valid_cons|]. done.
  - done.
  - unfold List.push_front, List.emplace, List.begin, List.prev. simpl.
    destruct ch as [|n ns]; simpl; [done|]. by rewrite decide_True.
  - unfold List.values, List.size. cbn [List.chain].
    destruct (decide (ch = [])) as [->|Hne]; [done|].
    destruct (ch.*2) as [|v vs] eqn:Hval; [by destruct ch|].
    rewrite <-Hval. clear Hval v vs. split.
    + destruct (last ch) as [[a y]|] eqn:Hlast.
      2:{ by apply last_None in Hlast. }
      apply last_Some in Hlast as [ns' ->].
      destruct (valid_snoc_inv _ _ _ _ Hv) as [Hnot Hv'].
      rewrite pop_back_snoc by done. eexists. split; [reflexivity|].
      split; [done|]. cbn [List.chain].
      rewrite length_app, fmap_app. simpl.
      replace (length ns' + 1 - 1) with (length ns'.*2)
        by (rewrite length_fmap; lia).
      by rewrite take_app_length.
    + destruct ch as [|[a y] ns]; [done|]. rewrite pop_front_cons.
      eexists. split; [reflexivity|]. split; [|done].
      by apply (valid_drop 1) in Hv.
Qed.

(** X2.  [clear()] returns and leaves no entry: its loop pops the last
    entry at most [size()] times and never reaches the sentinel. *)
Theorem list_clear l :
  List.valid l →
  ∃ l', List.clear l = Ret l' () ∧ List.valid l' ∧
        List.size l' = 0 ∧ List.is_empty l' = true ∧
        List.begin l' = List.end_ l'.
Proof.
  intros Hv. rewrite clear_spec by done. eexists. split; [reflexivity|].
  split_and!; [|done..]. split; simpl; constructor.
Qed.

(** X3.  The copy constructor never throws: it returns a list with the
    copies of the entries in the same order, and when the copy of an
    entry throws it swallows the exception and returns an empty
    list. *)
Theorem list_copy_construct copy list :
  ∃ l', List.copy_construct copy list = Ret l' () ∧ List.valid l' ∧
        List.values l' = default [] (mapM copy (List.values list)).
Proof.
  unfold List.copy_construct.
  destruct (push_all_spec copy (List.chain list) List.empty_list)
    as (l' & extra & Hch & Hv & Hrun).
  specialize (Hv valid_empty_list). unfold List.values.
  destruct (mapM copy (List.chain list).*2) as [ys|]; simpl.
  - destruct Hrun as [-> <-]. exists l'. split_and!; [done..|].
    by rewrite Hch.
  - rewrite Hrun, clear_spec by done. eexists. split; [reflexivity|].
    split; [|done]. split; simpl; constructor.
Qed.

(** X4.  Copy assignment from another list: when every copy succeeds
    the list ends with the copies of the entries of the source, in
    order.  When a copy throws, the exception is swallowed, the copies
    made are removed, and the old entries are then popped from the
    front until no more than [list.size()] of them are left. *)
Theorem list_copy_assign copy list this :
  List.valid this →
  ∃ this', List.copy_assign copy list this = Ret this' () ∧
           List.valid this' ∧
           List.values this'
           = match mapM copy (List.values list) with
             | Some ys => ys
             | None => drop (List.size this - List.size list)
                         (List.values this)
             end.
Proof.
  intros Hv. unfold List.copy_assign.
  destruct (push_all_spec copy (List.chain list) this)
    as (l' & extra & Hch & Hv' & Hrun).
  specialize (Hv' Hv). unfold List.values.
  destruct (mapM copy (List.chain list).*2) as [ys|] eqn:HmapM.
  - destruct Hrun as [-> <-]. cbn [bind].
    rewrite pop_while_front by lia. eexists. split; [reflexivity|].
    split; [destruct l'; by apply valid_drop|]. simpl.
    apply length_mapM in HmapM. rewrite !length_fmap in HmapM.
    unfold List.size. rewrite Hch, length_app, fmap_drop, fmap_app.
    replace (length (List.chain this) + length extra
             - length (List.chain list))
      with (length (List.chain this).*2)
      by (rewrite length_fmap; lia).
    by rewrite drop_app_length.
  - rewrite Hrun. rewrite pop_while_back by (done || lia). cbn [bind].
    rewrite pop_while_front by lia. eexists. split; [reflexivity|].
    assert (take (List.size this) (List.chain l') = List.chain this)
      as Htake.
    { rewrite Hch. by apply take_app_length'. }
    unfold List.size. cbn [List.chain List.fresh]. fold (List.size this).
    rewrite Htake. split; [|by rewrite fmap_drop].
    apply valid_drop. rewrite <-Htake. destruct l'. by apply valid_take.
Qed.

(** X5.  [List(count, value)] holds [count] copies of the value, and
    throws, for a positive count, when the copy throws. *)
Theorem list_construct_count x count :
  (∃ l', List.construct_count (Some x) count = Ret l' () ∧
         List.valid l' ∧ List.values l' = replicate count x) ∧
  (∃ l', List.construct_count (T := T) None count
         = if decide (count = 0) then Ret l' () else Thrown l').
Proof.
  split.
  - unfold List.construct_count.
    assert (∀ l, List.valid l →
              ∃ l', List.push_n (Some x) count l = Ret l' () ∧
                    List.valid l' ∧
                    List.values l' = List.values l ++ replicate count x)
      as Hgen.
    { induction count as [|count IH]; intros l Hl; simpl.
      - exists l. by rewrite app_nil_r.
      - destruct (IH (List.mk (List.chain l ++ [(List.fresh l, x)])
                        (S (List.fresh l)))) as (l' & Hrun & Hv' & Hval).
        { destruct l. by apply valid_snoc. }
        exists l'. split_and!; [done..|]. rewrite Hval.
        unfold List.values. simpl. by rewrite fmap_app, <-app_assoc. }
    destruct (Hgen List.empty_list valid_empty_list) as (l' & ? & ? & ?).
    by exists l'.
  - exists List.empty_list. by destruct count.
Qed.

(** X6.  The move constructor gives the new list the entries of the
    source, in order, and leaves the source empty. *)
Theorem list_move_construct list :
  List.valid list →
  ∃ this list',
    List.move_construct list = Ret (this, list') () ∧
    List.valid this ∧ List.values this = List.values list ∧
    List.valid list' ∧ List.values list' = [].
Proof.
  intros Hv. unfold List.move_construct.
  destruct (push_all_spec Some (List.chain list) List.empty_list)
    as (this & extra & Hch & Hv' & Hrun).
  rewrite mapM_Some_id in Hrun. destruct Hrun as [-> Hextra].
  rewrite clear_spec by done. simpl. eexists _, _.
  split; [reflexivity|]. split_and!.
  - apply Hv', valid_empty_list.
  - unfold List.values. by rewrite Hch.
  - split; simpl; constructor.
  - done.
Qed.

(** X7.  Move assignment never returns: [std::swap] move-constructs a
    temporary and then move-assigns, which enters the operator
    again. *)
Theorem list_move_assign_diverges fuel this list :
  List.valid this → List.move_assign fuel this list = OutOfFuel.
Proof.
  revert this list. induction fuel as [|fuel IH]; intros this list Hv;
    [done|].
  cbn [List.move_assign].
  destruct (list_move_construct this Hv)
    as (tmp & this' & -> & _ & _ & Hv' & _).
  cbn [bind]. by rewrite IH.
Qed.
End ListProperties.

(** * The other members of the map *)

Section MapMembers.
Context {Key Value : Type} `{EqDecision Key} (hash_ : Key → nat).
Local Abbreviation map := (t (Key := Key) (Value := Value)).
Implicit Types (m this : map) (ns pre post mid : list (nat * (Key * Value))).
Implicit Types (b a : nat) (e : Key * Value) (k key : Key) (v : Value).
Implicit Types (items : list (Key * Value)).

Lemma wf_valid m : wf hash_ m → List.valid (values_ m).
Proof. intros Hwf. split; [apply (wf_addrs _ _ Hwf)|apply (wf_fresh _ _ Hwf)]. Qed.

(** The head of a chain, as an iterator. *)
Lemma begin_chain m :
  begin m = match List.chain (values_ m) with
            | [] => End
            | n :: _ => Node n.1
            end.
Proof. done. Qed.

(** ** [emplace] after its capacity check *)

Lemma emplace_via_roomy fuel m :
  wf hash_ m →
  ∃ m1, wf hash_ m1 ∧ roomy m1 ∧ entries m1 ≡ₚ entries m ∧
        max_factor_ m1 = max_factor_ m ∧ (roomy m → m1 = m) ∧
        (¬ roomy m →
           bucket_count m1
           = max (ceil_div
                    (max default_start_size (growing_coefficient * size m))
                    (max_load_factor m))
                 (floor_div (size m) (max_load_factor m))) ∧
        ∀ c, emplace hash_ (S (S fuel)) c m
             = emplace_body hash_
                 (reserve_body (rehash_body (emplace hash_ (S fuel))))
                 c m1.
Proof.
  intros Hwf.
  destruct (decide (size m + 1
                    ≤ floor_mul (bucket_count m) (max_load_factor m)))
    as [Hr|Hnr]; fold (roomy m) in *.
  { exists m. split_and!; done. }
  set (n := max default_start_size (growing_coefficient * size m)).
  assert (size m + 1 ≤ n) as Hn.
  { unfold n, default_start_size, growing_coefficient. lia. }
  pose proof (floor_mul_ceil_div n (max_load_factor m)) as Hceil.
  set (count' := max (ceil_div n (max_load_factor m))
                     (floor_div (size m) (max_load_factor m))).
  assert (n ≤ floor_mul count' (max_load_factor m)) as Hroom.
  { etrans; [exact Hceil|]. apply floor_mul_mono. unfold count'. lia. }
  destruct (rehash_body_roomy hash_ (emplace hash_ (S fuel))
              (ceil_div n (max_load_factor m)) m
              (emplace_good_roomy hash_ fuel) Hwf)
    as (m1 & Hre & Hwf1 & Hperm & Hmf & Hbc).
  { fold count'. lia. }
  fold count' in Hbc.
  assert (roomy m1) as Hr1.
  { unfold roomy, max_load_factor in *.
    rewrite (size_entries m1), Hperm, <-size_entries, Hbc, Hmf. lia. }
  exists m1. split_and!; [done..| | |].
  - intros ?. done.
  - done.
  - intros c. cbn [emplace].
    by rewrite (emplace_body_grow hash_ _ c m m1 Hnr Hre Hr1).
Qed.

(** ** Range insertion *)

Lemma insert_range_spec fuel items m :
  wf hash_ m →
  ∃ m', insert_range hash_ (S (S fuel)) items m = Ret m' () ∧
        wf hash_ m' ∧ max_factor_ m' = max_factor_ m ∧
        ∀ k v, (k, v) ∈ entries m' ↔
               (k, v) ∈ entries m ∨
               ((k ∉ keys m) ∧
                ∃ front back, items = front ++ (k, v) :: back ∧
                              k ∉ front.*1).
Proof.
  revert m. induction items as [|[k0 v0] items IH]; intros m Hwf.
  { exists m. split_and!; [done..|]. intros k v. split; [by left|].
    intros [?|(_ & front & back & Heq & _)]; [done|].
    by destruct front. }
  cbn [insert_range]. unfold insert.
  destruct (emplace_good hash_ fuel m (Some (k0, v0)) Hwf I)
    as (m1 & a & isnew & -> & Hwf1 & Hmf1 & _ & Hrest).
  cbn [bind].
  destruct (IH m1 Hwf1) as (m' & -> & Hwf' & Hmf' & Hiff).
  exists m'. split_and!; [done|done|congruence|].
  intros k v. rewrite Hiff. clear Hiff IH.
  destruct isnew.
  - destruct Hrest as (Hnot & Hperm & _).
    assert (∀ k', k' ∈ keys m1 ↔ k' = k0 ∨ k' ∈ keys m) as Hkeys.
    { intros k'. unfold keys. rewrite Hperm. simpl. apply elem_of_cons. }
    rewrite Hperm, elem_of_cons. split.
    + intros [[[= -> ->]|Hin]|(Hk & front & back & -> & Hpre)].
      * right. split; [done|]. exists [], items. split; [done|].
        apply not_elem_of_nil.
      * by left.
      * right. rewrite Hkeys in Hk. split; [tauto|].
        exists ((k0, v0) :: front), back. split; [done|]. simpl.
        apply not_elem_of_cons. split; [|done]. intros ->. tauto.
    + intros [Hin|(Hk & front & back & Heq & Hpre)]; [by left; right|].
      destruct front as [|p front0]; simpl in Heq.
      * simplify_eq. by left; left.
      * simplify_eq. simpl in Hpre.
        apply not_elem_of_cons in Hpre as [Hne Hpre]. right.
        split; [rewrite Hkeys; intros [?|?]; done|]. by exists front0, back.
  - destruct Hrest as (v1 & Hin1 & Hperm & _).
    assert (k0 ∈ keys m) as Hk0 by (by eapply entries_in_keys).
    unfold keys. rewrite Hperm. fold (keys m). split.
    + intros [Hin|(Hk & front & back & -> & Hpre)]; [by left|]. right.
      split; [done|]. exists ((k0, v0) :: front), back. split; [done|].
      simpl. apply not_elem_of_cons. split; [|done]. by intros ->.
    + intros [Hin|(Hk & front & back & Heq & Hpre)]; [by left|].
      destruct front as [|p front0]; simpl in Heq.
      * by simplify_eq.
      * simplify_eq. simpl in Hpre.
        apply not_elem_of_cons in Hpre as [Hne Hpre]. right.
        split; [done|]. by exists front0, back.
Qed.

Lemma insert_range_mono fuel items m :
  insert_range hash_ fuel items m ≠ OutOfFuel →
  insert_range hash_ (S (S fuel)) items m = insert_range hash_ fuel items m.
Proof.
  revert m. induction items as [|node items IH]; intros m; [done|].
  cbn [insert_range]. unfold insert.
  destruct (emplace hash_ fuel (Some node) m) as [m1 r| | |] eqn:Hem;
    intros Hne; [| | |done];
    rewrite (emplace_fuel hash_ fuel (Some node) m _ Hem) by done;
    [|done..].
  cbn [bind] in *. by apply IH.
Qed.

Lemma insert_range_Ret_wf fuel items m m' :
  wf hash_ m → insert_range hash_ fuel items m = Ret m' () → wf hash_ m'.
Proof.
  intros Hwf Hop.
  destruct (insert_range_spec fuel items m Hwf) as (m'' & Hop' & Hwf' & _).
  rewrite insert_range_mono in Hop' by (by rewrite Hop). congruence.
Qed.

(** ** Range erasure *)

Local Abbreviation it_of ns :=
  (match ns return iter with [] => End | n :: _ => Node n.1 end).

Lemma erase_at m pre a e post :
  wf hash_ m → List.chain (values_ m) = pre ++ (a, e) :: post →
  ∃ m', erase hash_ (Node a) m = Ret m' (it_of post) ∧ wf hash_ m' ∧
        List.chain (values_ m') = pre ++ post ∧
        max_factor_ m' = max_factor_ m ∧
        bucket_count m' = bucket_count m.
Proof.
  intros Hwf Hch.
  destruct (erase_spec hash_ m a e Hwf)
    as (m' & pre' & post' & Hch' & Hop & Hwf' & Hch'' & Hmf & Hbc).
  { rewrite Hch. apply elem_of_app. right. apply elem_of_cons. by left. }
  rewrite Hch in Hch'.
  apply NoDup_addr_app_inv in Hch' as (-> & _ & ->).
  2:{ rewrite <-Hch. apply (wf_addrs _ _ Hwf). }
  by exists m'.
Qed.

Lemma erase_range_loop_spec fuel m pre mid post it :
  wf hash_ m → List.chain (values_ m) = pre ++ mid ++ post →
  length mid ≤ fuel →
  ∃ m', erase_range_loop hash_ fuel (it_of (mid ++ post)) (it_of post) it m
        = Ret m' (match mid with [] => it | _ :: _ => it_of post end) ∧
        wf hash_ m' ∧ List.chain (values_ m') = pre ++ post ∧
        max_factor_ m' = max_factor_ m ∧
        bucket_count m' = bucket_count m.
Proof.
  revert fuel m it. induction mid as [|[a e] mid IH];
    intros fuel m it Hwf Hch Hfuel.
  { exists m. split_and!; [|done..]. simpl.
    destruct fuel; simpl; by rewrite decide_False by (by intros []). }
  destruct fuel as [|fuel]; [simpl in Hfuel; lia|].
  assert (Node a ≠ it_of post) as Hne.
  { pose proof (wf_addrs _ _ Hwf) as Hnd. rewrite Hch in Hnd.
    rewrite !fmap_app in Hnd. apply NoDup_app in Hnd as (_ & _ & Hnd).
    simpl in Hnd. apply NoDup_cons in Hnd as [Hnot _].
    destruct post as [|[a' e'] post]; simpl; [done|]. intros [= <-].
    destruct Hnot. apply elem_of_app. right. simpl. apply elem_of_cons.
    by left. }
  cbn [erase_range_loop app fst]. rewrite decide_True by done.
  destruct (erase_at m pre a e (mid ++ post) Hwf Hch)
    as (m1 & -> & Hwf1 & Hch1 & Hmf1 & Hbc1).
  cbn [bind].
  destruct (IH fuel m1 (it_of (mid ++ post)) Hwf1 Hch1)
    as (m' & -> & Hwf' & Hch' & Hmf' & Hbc'); [simpl in Hfuel; lia|].
  exists m'. split_and!; [|done|done|congruence|congruence].
  by destruct mid.
Qed.

Lemma erase_range_loop_Ret_wf fuel first second it m m' r :
  wf hash_ m →
  erase_range_loop hash_ fuel first second it m = Ret m' r → wf hash_ m'.
Proof.
  revert first it m. induction fuel as [|fuel IH]; intros first it m Hwf;
    simpl.
  - destruct (decide (first ≠ second)); [done|]. by intros [= <- _].
  - destruct (decide (first ≠ second)); [|by intros [= <- _]].
    destruct (erase hash_ first m) as [m1 r1| | |] eqn:Her; [|done..].
    cbn [bind]. apply IH. by eapply erase_Ret_wf.
Qed.

(** ** Move assignment *)

Lemma move_assign_spec fuel this m :
  wf hash_ this → wf hash_ m →
  ∃ this',
    move_assign hash_ (S (S fuel)) this m
      = Ret (this', {| max_factor_ := max_factor_ m;
                       values_ := List.mk [] (List.fresh (values_ m));
                       buckets_ := [] |}) () ∧
    wf hash_ this' ∧ entries this' ≡ₚ entries m ∧
    max_factor_ this' = max_factor_ this.
Proof.
  intros Hthis Hwf. unfold move_assign, on_values.
  rewrite clear_spec by (by apply wf_valid). cbn [zoom].
  destruct (reinsert_spec hash_ (emplace hash_ (S (S fuel)))
              (λ _ m', max_factor_ m' = max_factor_ this)
              (List.chain (values_ m))
              (drained (bucket_count m) this))
    as (this' & Hre & Hwf' & Hperm & Hmf).
  - intros j m0 k v Hwf0 Hmf0 Hnot.
    destruct (good_new hash_ (λ _, True) _ m0 k v
                (emplace_good hash_ fuel) Hwf0 I Hnot)
      as (m1 & a & Hins & Hwf1 & Hmf1 & _ & Hperm1 & _).
    exists m1, (Node a, true). split_and!; [done..|]. congruence.
  - apply wf_drained.
  - done.
  - change (keys (drained (bucket_count m) this)) with (@nil Key).
    rewrite app_nil_r. apply (wf_keys _ _ Hwf).
  - exists this'. split_and!; [|done| |done].
    + change (reinsert _ _ _)
        with (reinsert (emplace hash_ (S (S fuel))) (List.chain (values_ m))
                (drained (bucket_count m) this)).
      rewrite Hre. done.
    + rewrite Hperm.
      change (entries (drained (bucket_count m) this))
        with (@nil (Key * Value)).
      by rewrite app_nil_r.
Qed.

Lemma move_assign_fuel fuel this m o :
  move_assign hash_ fuel this m = o → o ≠ OutOfFuel →
  move_assign hash_ (S (S fuel)) this m = o.
Proof.
  unfold move_assign. intros <- Hne.
  destruct (on_values List.clear this) as [this1 []| | |]; [|done..].
  rewrite (reinsert_mono (emplace hash_ fuel) (emplace hash_ (S (S fuel)))).
  - done.
  - intros c m'. apply emplace_mono. lia.
  - intros Heq. by rewrite Heq in Hne.
Qed.

Lemma move_assign_Ret_wf fuel this m this' m' :
  wf hash_ this → wf hash_ m →
  move_assign hash_ fuel this m = Ret (this', m') () →
  wf hash_ this' ∧ wf hash_ m'.
Proof.
  intros Hthis Hwf Hmv. apply move_assign_fuel in Hmv; [|done].
  destruct (move_assign_spec fuel this m Hthis Hwf)
    as (this'' & Hmv' & Hwf' & _).
  rewrite Hmv' in Hmv. injection Hmv as <- <-. split; [done|].
  apply (wf_drained hash_ 0 m).
Qed.

Lemma move_assign_self_spec m :
  wf hash_ m →
  move_assign_self m
  = Ret {| max_factor_ := max_factor_ m;
           values_ := List.mk [] (List.fresh (values_ m));
           buckets_ := [] |} ().
Proof.
  intros Hwf. unfold move_assign_self, on_values.
  by rewrite clear_spec by (by apply wf_valid).
Qed.

(** ** Every member keeps the map well formed *)

Lemma built_wf m : built hash_ m → wf hash_ m.
Proof.
  induction 1 as [m Hm|f m _ IH|fuel c m m' r _ IH Hop|fuel c m m' _ IH Hop
                  |it m m' r _ IH Hop|fuel count m m' _ IH Hop
                  |fuel count m m' _ IH Hop|fuel v key m m' r _ IH Hop
                  |fuel m this m' _ IH Hop|fuel m this m' _ IH Hop
                  |fuel items m m' _ IH Hop
                  |fuel first second m m' r _ IH Hop
                  |fuel this m this' m' _ IH1 _ IH2 Hop
                  |fuel this m this' m' _ IH1 _ IH2 Hop
                  |m m' _ IH Hop].
  - by apply reachable_wf.
  - by apply wf_set_max_load_factor.
  - by eapply emplace_Ret_wf.
  - by eapply emplace_Thrown_wf.
  - by eapply erase_Ret_wf.
  - by eapply rehash_Ret_wf.
  - unfold reserve, reserve_body in Hop. by eapply rehash_Ret_wf.
  - by eapply operator_index_move_Ret_wf.
  - by destruct (move_construct_Ret_wf _ _ _ _ _ IH Hop).
  - by destruct (move_construct_Ret_wf _ _ _ _ _ IH Hop).
  - by eapply insert_range_Ret_wf.
  - by eapply erase_range_loop_Ret_wf.
  - by destruct (move_assign_Ret_wf _ _ _ _ _ IH1 IH2 Hop).
  - by destruct (move_assign_Ret_wf _ _ _ _ _ IH1 IH2 Hop).
  - rewrite move_assign_self_spec in Hop by done. injection Hop as <-.
    apply (wf_drained hash_ 0 m).
Qed.
End MapMembers.

(** * Properties of the map on every map a program can build *)

Section MapProperties.
Context {Key Value : Type} `{EqDecision Key} (hash_ : Key → nat).
Local Abbreviation map := (t (Key := Key) (Value := Value)).
Implicit Types (m this : map) (ns pre post mid : list (nat * (Key * Value))).
Implicit Types (b a : nat) (e : Key * Value) (k key : Key) (v : Value).
Implicit Types (items front back : list (Key * Value)).
Local Abbreviation it_of ns :=
  (match ns return iter with [] => End | n :: _ => Node n.1 end).

Lemma key_split k items :
  k ∈ items.*1 →
  ∃ front v back, items = front ++ (k, v) :: back ∧ k ∉ front.*1.
Proof using Type*.
  induction items as [|[k' v] items IH]; simpl.
  - by intros ?%elem_of_nil.
  - destruct (decide (k' = k)) as [->|Hne].
    + intros _. exists [], v, items. split; [done|]. apply not_elem_of_nil.
    + intros [?|Hin]%elem_of_cons; [congruence|].
      destruct (IH Hin) as (front & y & back & -> & Hnot).
      exists ((k', v) :: front), y, back. split; [done|]. simpl.
      apply not_elem_of_cons. split; [congruence|done].
Qed.

Lemma entries_chain_app m pre x post :
  List.chain (values_ m) = pre ++ x :: post →
  entries m = pre.*2 ++ x.2 :: post.*2.
Proof. unfold entries. intros ->. by rewrite fmap_app. Qed.

(** X9.  Whatever members built the map, range insertion, range
    erasure and move assignment included: no two entries have the same
    key, the entries of every bucket are contiguous from the head of
    the bucket, a map with an entry has a bucket, and the head of a
    bucket is never dangling: it is the end iterator or the node of an
    entry whose key hashes to the bucket. *)
Theorem built_invariant m :
  built hash_ m →
  NoDup (keys m) ∧ contiguous hash_ m ∧
  (size m ≠ 0 → 0 < bucket_count m) ∧
  ∀ b a, buckets_ m !! b = Some (Node a) →
    ∃ e, List.deref (Node a) (values_ m) = Some e ∧
         hash_ e.1 mod bucket_count m = b.
Proof.
  intros Hwf%built_wf. split_and!.
  - apply (wf_keys _ _ Hwf).
  - by apply wf_contiguous.
  - intros Hsize. apply (wf_buckets _ _ Hwf). intros Hnil.
    unfold size, List.size in Hsize. by rewrite Hnil in Hsize.
  - intros b a Hb. apply (wf_runs _ _ Hwf) in Hb.
    destruct (run_at_head_in _ _ _ _ Hb) as (e & Hin & Hbk).
    exists e. split; [|done]. apply deref_elem; [|done].
    apply (wf_addrs _ _ Hwf).
Qed.

(** X10.  [at(key)] returns the value stored for a key of the map and
    throws for any other key; the map is the same after both. *)
Theorem at_spec m k :
  built hash_ m →
  (∀ v, (k, v) ∈ entries m → at_ hash_ k m = Ret m v) ∧
  (k ∉ keys m → at_ hash_ k m = Thrown m).
Proof.
  intros Hwf%built_wf. unfold at_. split.
  - intros v (a & -> & Hderef)%(find_entry hash_ m k v Hwf).
    cbn beta iota. rewrite decide_False by done. by rewrite Hderef.
  - intros Hnot. rewrite (find_miss _ _ _ Hwf Hnot). cbn beta iota.
    by rewrite decide_True.
Qed.

(** X11.  Inserting a key the map does not hold returns an iterator to
    the new entry and [true]: the size grows by one, the key is found
    with the inserted value, and every key that was found is still
    found with its value. *)
Theorem insert_new fuel m k v :
  built hash_ m → 2 ≤ fuel → k ∉ keys m →
  ∃ m' a,
    insert hash_ fuel (k, v) m = Ret m' (Node a, true) ∧
    size m' = S (size m) ∧
    find hash_ k m' = Some (Node a) ∧
    List.deref (Node a) (values_ m') = Some (k, v) ∧
    (∀ k' v', maps_to hash_ m k' v' → maps_to hash_ m' k' v') ∧
    (∀ k', k' ∈ keys m' ↔ k' = k ∨ k' ∈ keys m).
Proof.
  intros Hwf%built_wf Hfuel Hnot. revert fuel Hfuel. apply fuel_two.
  intros fuel.
  destruct (good_new hash_ (λ _, True) _ m k v
              (emplace_good hash_ fuel) Hwf I Hnot)
    as (m' & a & Hop & Hwf' & _ & _ & Hperm & Hin).
  exists m', a. split_and!.
  - done.
  - by rewrite !size_entries, Hperm.
  - by eapply find_hit.
  - apply deref_elem; [|done]. apply (wf_addrs _ _ Hwf').
  - intros k' v' Hto%maps_to_entry. apply find_entry; [done|].
    rewrite Hperm. apply elem_of_cons. by right.
  - intros k'. unfold keys. rewrite Hperm. simpl. apply elem_of_cons.
Qed.

(** X12.  On a map with the default maximal load factor, after every
    [emplace] the size is within the capacity
    [bucket_count() * max_load_factor()] the capacity check computes.
    With room for one more entry the bucket count stays; without, it
    becomes the count [reserve] asks [rehash] for, entry new or
    not. *)
Theorem emplace_load_factor fuel m k v :
  built hash_ m → max_load_factor m = default_factor → 2 ≤ fuel →
  ∃ m' r,
    emplace hash_ fuel (Some (k, v)) m = Ret m' r ∧
    size m' ≤ floor_mul (bucket_count m') (max_load_factor m') ∧
    max_load_factor m' = max_load_factor m ∧
    (roomy m → bucket_count m' = bucket_count m) ∧
    (¬ roomy m →
       bucket_count m'
       = max (ceil_div
                (max default_start_size (growing_coefficient * size m))
                (max_load_factor m))
             (floor_div (size m) (max_load_factor m))).
Proof.
  intros Hwf%built_wf _ Hfuel. revert fuel Hfuel. apply fuel_two.
  intros fuel.
  destruct (emplace_via_roomy hash_ fuel m Hwf)
    as (m1 & Hwf1 & Hr1 & Hperm & Hmf & Hsame & Hbc & Hem).
  rewrite Hem.
  destruct (emplace_body_good_roomy hash_
              (reserve_body (rehash_body (emplace hash_ (S fuel))))
              m1 (Some (k, v)) Hwf1 Hr1)
    as (m' & a & isnew & -> & Hwf' & Hmf' & Hbc' & Hrest).
  specialize (Hbc' Hr1).
  exists m', (Node a, isnew). unfold max_load_factor.
  split_and!; [done| |congruence| |].
  - rewrite Hbc', Hmf'. unfold roomy, max_load_factor in Hr1.
    destruct isnew.
    + destruct Hrest as (_ & Hperm' & _).
      rewrite (size_entries m'), Hperm'. simpl. rewrite <-size_entries.
      lia.
    + destruct Hrest as (v0 & _ & _ & _ & Heq). rewrite (Heq Hr1). lia.
  - intros Hr. by rewrite Hbc', (Hsame Hr).
  - intros Hnr. by rewrite Hbc', (Hbc Hnr).
Qed.

(** X13.  [erase] of the end iterator is undefined.  [erase] of an
    iterator to an entry returns the iterator that followed it: the
    entry leaves the traversal, which keeps the order of the others,
    its key is no longer found, every other key is found with its
    value, and the bucket count stays. *)
Theorem erase_entry m pre a k v post :
  built hash_ m → List.chain (values_ m) = pre ++ (a, (k, v)) :: post →
  erase hash_ (end_ m) m = Undefined ∧
  ∃ m' r,
    erase hash_ (Node a) m = Ret m' r ∧
    List.next (Node a) (values_ m) = Some r ∧
    entries m = pre.*2 ++ (k, v) :: post.*2 ∧
    entries m' = pre.*2 ++ post.*2 ∧
    size m' + 1 = size m ∧
    find hash_ k m' = Some End ∧
    (∀ k' v', k' ≠ k → maps_to hash_ m k' v' → maps_to hash_ m' k' v') ∧
    bucket_count m' = bucket_count m.
Proof.
  intros Hwf%built_wf Hch. split; [done|].
  destruct (erase_at hash_ m pre a (k, v) post Hwf Hch)
    as (m' & Hop & Hwf' & Hch' & _ & Hbc).
  pose proof (entries_chain_app m _ _ _ Hch) as Hen. simpl in Hen.
  assert (entries m' = pre.*2 ++ post.*2) as Hen'.
  { unfold entries. by rewrite Hch', fmap_app. }
  exists m', (it_of post). split_and!; [done| |done|done| | | |done].
  - destruct (values_ m) as [ch fr] eqn:Hvals. simpl in Hch. subst ch.
    apply list_next. eapply NoDup_addr_not_in_pre.
    pose proof (wf_addrs _ _ Hwf) as Hnd. by rewrite Hvals in Hnd.
  - rewrite !size_entries, Hen, Hen', !length_app. simpl. lia.
  - apply find_miss; [done|]. pose proof (wf_keys _ _ Hwf) as Hnd.
    unfold keys in *. rewrite Hen in Hnd. rewrite Hen'.
    rewrite fmap_app in *. simpl in Hnd.
    apply NoDup_app in Hnd as (_ & Hdisj & Hnd).
    apply NoDup_cons in Hnd as [Hnot _].
    intros [Hin|Hin]%elem_of_app; [|done].
    apply (Hdisj _ Hin). apply elem_of_cons. by left.
  - intros k' v' Hne Hto%maps_to_entry. apply find_entry; [done|].
    rewrite Hen in Hto. rewrite Hen'.
    apply elem_of_app in Hto as [?|Hto]; [apply elem_of_app; by left|].
    apply elem_of_cons in Hto as [[= ? ?]|?]; [done|].
    apply elem_of_app. by right.
Qed.

(** X14.  Iterators stay valid: an insertion that finds room, so does
    not rehash, in a map with the default maximal load factor, and an
    erasure in any map, leave every other node where it was, with its
    entry. *)
Theorem iterator_stability m :
  built hash_ m →
  (∀ fuel node m' r,
     max_load_factor m = default_factor → roomy m →
     insert hash_ fuel node m = Ret m' r →
     ∀ b e, List.deref (Node b) (values_ m) = Some e →
            List.deref (Node b) (values_ m') = Some e) ∧
  (∀ a m' r,
     erase hash_ (Node a) m = Ret m' r →
     ∀ b e, b ≠ a → List.deref (Node b) (values_ m) = Some e →
            List.deref (Node b) (values_ m') = Some e).
Proof.
  intros Hwf%built_wf. split.
  - intros [|fuel] [k v] m' r _ Hr; [done|]. unfold insert. cbn [emplace].
    destruct (decide (k ∈ keys m)) as [Hin|Hnot].
    + destruct (keys_in_chain _ _ Hin) as (a & v0 & Hin').
      rewrite (emplace_body_dup hash_ _ m a k v0 v) by done.
      by intros [= <- _].
    + destruct (emplace_body_new hash_
                  (reserve_body (rehash_body (emplace hash_ fuel)))
                  m k v Hwf Hr Hnot)
        as (m'' & l1 & l2 & -> & Hwf' & _ & _ & Hch & Hch').
      intros [= <- _] b e Hderef%deref_Some.
      apply deref_elem; [apply (wf_addrs _ _ Hwf')|].
      rewrite Hch in Hderef. rewrite Hch'.
      apply elem_of_app in Hderef as [?|?]; apply elem_of_app;
        [by left|right]. apply elem_of_cons. by right.
  - intros a m' r Hop b e Hne Hderef%deref_Some.
    destruct (erase_Ret_inv _ _ _ _ _ Hop) as (a' & e0 & [= <-] & Hin).
    destruct (erase_spec hash_ m a e0 Hwf Hin)
      as (m'' & pre & post & Hch & Hop' & Hwf' & Hch' & _).
    rewrite Hop' in Hop. injection Hop as <- _.
    apply deref_elem; [apply (wf_addrs _ _ Hwf')|].
    rewrite Hch in Hderef. rewrite Hch'.
    apply elem_of_app in Hderef as [?|Hderef]; apply elem_of_app;
      [by left|right].
    apply elem_of_cons in Hderef as [[= ? ?]|?]; done.
Qed.

(** X15.  Range insertion returns: the entries of the map keep their
    values, a key the map did not hold gets the value of the first
    element of the range with that key, and the keys afterwards are
    those of the map and of the range. *)
Theorem insert_range_first_wins fuel items m :
  built hash_ m → 2 ≤ fuel →
  ∃ m',
    insert_range hash_ fuel items m = Ret m' () ∧
    (∀ k v, (k, v) ∈ entries m → maps_to hash_ m' k v) ∧
    (∀ front k v back,
       items = front ++ (k, v) :: back → k ∉ front.*1 → k ∉ keys m →
       maps_to hash_ m' k v) ∧
    (∀ k, k ∈ keys m' ↔ k ∈ keys m ∨ k ∈ items.*1).
Proof.
  intros Hwf%built_wf Hfuel. revert fuel Hfuel. apply fuel_two.
  intros fuel.
  destruct (insert_range_spec hash_ fuel items m Hwf)
    as (m' & Hop & Hwf' & _ & Hiff).
  exists m'. split_and!; [done| | |].
  - intros k v Hin. apply find_entry; [done|]. apply Hiff. by left.
  - intros front k v back Heq Hfront Hnot. apply find_entry; [done|].
    apply Hiff. right. split; [done|]. by exists front, back.
  - intros k. split.
    + intros (a & v & Hin%chain_in_entries)%keys_in_chain.
      apply Hiff in Hin as [Hin|(_ & front & back & -> & _)].
      * left. by eapply entries_in_keys.
      * right. rewrite fmap_app. apply elem_of_app. right. simpl.
        apply elem_of_cons. by left.
    + destruct (decide (k ∈ keys m)) as [Hin|Hnot].
      * intros _. destruct (keys_in_chain _ _ Hin) as (a & v & Hin').
        apply (entries_in_keys _ _ v), Hiff. left.
        by apply (chain_in_entries _ a).
      * intros [?|Hin]; [done|].
        destruct (key_split _ _ Hin) as (front & v & back & Heq & Hfront).
        apply (entries_in_keys _ _ v), Hiff. right. split; [done|].
        by exists front, back.
Qed.

(** X16.  Range erasure, from the first node of [mid] to the node
    after its last one: the entries of the range leave the traversal,
    which keeps the order of the others, and the call returns the
    second iterator; for an empty range it returns [end()], whatever
    the second iterator is. *)
Theorem erase_range_spec fuel m pre mid post :
  built hash_ m → List.chain (values_ m) = pre ++ mid ++ post →
  length mid ≤ fuel →
  ∃ m',
    erase_range hash_ fuel (it_of (mid ++ post)) (it_of post) m
    = Ret m' (match mid with [] => end_ m | _ :: _ => it_of post end) ∧
    entries m' = pre.*2 ++ post.*2 ∧
    bucket_count m' = bucket_count m.
Proof.
  intros Hwf%built_wf Hch Hfuel. unfold erase_range.
  destruct (erase_range_loop_spec hash_ fuel m pre mid post (end_ m)
              Hwf Hch Hfuel) as (m' & Hop & _ & Hch' & _ & Hbc).
  exists m'. split_and!; [done| |done].
  unfold entries. by rewrite Hch', fmap_app.
Qed.

(** X17.  Move assignment from another map: the target ends with the
    entries of the source, every key of the source found with its
    value, and keeps its own maximal load factor; the source is left
    with no entry and no bucket. *)
Theorem move_assign_moves fuel this m :
  built hash_ this → built hash_ m → 2 ≤ fuel →
  ∃ this' m',
    move_assign hash_ fuel this m = Ret (this', m') () ∧
    same_content hash_ m this' ∧
    max_load_factor this' = max_load_factor this ∧
    size m' = 0 ∧ bucket_count m' = 0.
Proof.
  intros Hthis%built_wf Hwf%built_wf Hfuel. revert fuel Hfuel.
  apply fuel_two. intros fuel.
  destruct (move_assign_spec hash_ fuel this m Hthis Hwf)
    as (this' & Hop & Hwf' & Hperm & Hmf).
  eexists this', _. split; [exact Hop|]. split_and!; [|done..].
  by apply wf_same_content.
Qed.

(** X18.  Move assignment of a map to itself returns and leaves it
    with no entry and no bucket: the entries are cleared before the
    loop looks for entries to move. *)
Theorem move_assign_self_empties m :
  built hash_ m →
  ∃ m', move_assign_self m = Ret m' () ∧
        size m' = 0 ∧ bucket_count m' = 0 ∧
        max_load_factor m' = max_load_factor m.
Proof.
  intros Hwf%built_wf. rewrite (move_assign_self_spec hash_) by done.
  by eexists.
Qed.

(** X19.  On a map with the default maximal load factor [reserve(n)]
    for [n] not below the size returns with fuel for a single nesting,
    keeps the content, and leaves
    [max(ceil(n / max_load_factor()), size() / max_load_factor())]
    buckets, which have capacity for [n] entries. *)
Theorem reserve_capacity fuel n m :
  built hash_ m → max_load_factor m = default_factor →
  1 ≤ fuel → size m ≤ n →
  ∃ m',
    reserve hash_ fuel n m = Ret m' () ∧
    same_content hash_ m m' ∧
    bucket_count m'
    = max (ceil_div n (max_load_factor m))
          (floor_div (size m) (max_load_factor m)) ∧
    n ≤ floor_mul (bucket_count m') (max_load_factor m').
Proof.
  intros Hwf%built_wf _ Hfuel Hn. destruct fuel as [|fuel]; [lia|].
  pose proof (floor_mul_ceil_div n (max_load_factor m)) as Hceil.
  set (count' := max (ceil_div n (max_load_factor m))
                     (floor_div (size m) (max_load_factor m))).
  assert (n ≤ floor_mul count' (max_load_factor m)) as Hroom.
  { etrans; [exact Hceil|]. apply floor_mul_mono. unfold count'. lia. }
  destruct (rehash_body_roomy hash_ (emplace hash_ (S fuel))
              (ceil_div n (max_load_factor m)) m
              (emplace_good_roomy hash_ fuel) Hwf)
    as (m' & Hop & Hwf' & Hperm & Hmf & Hbc).
  { fold count'. lia. }
  fold count' in Hbc.
  exists m'. split_and!; [done| |done|].
  - by apply wf_same_content.
  - unfold max_load_factor in *. by rewrite Hbc, Hmf.
Qed.
End MapProperties.

(** * The stack storage *)

Section StackStorageProperties.
Variable N : Z.
Implicit Types (s : StackStorage.t) (rs : list StackStorage.request).
Implicit Types (blocks : list (Z * Z)).
Local Open Scope Z_scope.

(** Rounding [p] up to a multiple of [a]. *)
Lemma align_up a p :
  0 < a →
  let q := (p + (a - 1)) / a * a in
  q mod a = 0 ∧ p ≤ q ∧ q < p + a ∧ ∀ r, r mod a = 0 → p ≤ r → q ≤ r.
Proof.
  intros Ha q. subst q.
  pose proof (Z.div_mod (p + (a - 1)) a ltac:(lia)) as Hdm.
  pose proof (Z.mod_pos_bound (p + (a - 1)) a Ha) as Hlt.
  set (d := (p + (a - 1)) / a) in *. set (x := (p + (a - 1)) mod a) in *.
  split_and!.
  - apply Z_mod_mult.
  - nia.
  - nia.
  - intros r Hr Hle. pose proof (Z.div_mod r a ltac:(lia)) as Hr'.
    rewrite Hr in Hr'. set (c := r / a) in *.
    destruct (decide (d ≤ c)); [nia|]. assert (c + 1 ≤ d) by lia. nia.
Qed.

Lemma pow2_pos (k : nat) : 0 < 2 ^ Z.of_nat k.
Proof. apply Z.pow_pos_nonneg; lia. Qed.

Lemma used_eq s :
  0 ≤ StackStorage.size_ s ≤ N → N < 2 ^ 64 →
  StackStorage.used N s = N - StackStorage.size_ s.
Proof.
  intros Hsz HN. unfold StackStorage.used, StackStorage.to_size_t.
  apply Z.mod_small. lia.
Qed.

(** What a call of [create_with_alignment] for [size] bytes does. *)
Lemma create_with_alignment_cases k sizeof count s :
  0 ≤ StackStorage.size_ s ≤ N → N < 2 ^ 64 →
  let st := StackStorage.base s + (N - StackStorage.size_ s) in
  let size := (sizeof * count) mod 2 ^ 64 in
  let aligned := (st + (2 ^ Z.of_nat k - 1)) / 2 ^ Z.of_nat k
                 * 2 ^ Z.of_nat k in
  0 ≤ size < 2 ^ 64 ∧
  if decide (aligned + size ≤ StackStorage.base s + N) then
    StackStorage.create_with_alignment N k sizeof count s
    = ({| StackStorage.base := StackStorage.base s;
          StackStorage.size_ := StackStorage.base s + N - aligned - size |},
       Some aligned)
  else StackStorage.create_with_alignment N k sizeof count s = (s, None).
Proof.
  intros Hsz HN st size aligned.
  assert (0 ≤ size < 2 ^ 64) as Hsize by (apply Z.mod_pos_bound; lia).
  split; [done|].
  unfold StackStorage.create_with_alignment, StackStorage.align.
  rewrite (used_eq s Hsz HN). unfold StackStorage.to_size_t.
  fold st. fold size. fold aligned.
  destruct (align_up (2 ^ Z.of_nat k) st (pow2_pos k)) as (_ & Hle & _).
  fold aligned in Hle.
  destruct (decide (aligned + size ≤ StackStorage.base s + N)) as [Hfit|Hno].
  - rewrite decide_False by lia. rewrite decide_False by lia.
    do 2 f_equal. unfold st. lia.
  - destruct (decide (StackStorage.size_ s < size)); [done|].
    rewrite decide_True; [done|]. unfold st in *. lia.
Qed.

(** X20.  [create_with_alignment] returns the lowest address, from the
    first byte not handed out, that is a multiple of the alignment and
    leaves room inside the array for [sizeof(T) * count] bytes, a
    product taken modulo [2 ^ 64]; the bytes up to the end of that
    block then count as used.  It returns [nullptr], with the storage
    unchanged, exactly when no such address exists. *)
Theorem create_with_alignment_spec k sizeof count s :
  0 ≤ StackStorage.size_ s ≤ N → N < 2 ^ 64 →
  let st := StackStorage.base s + StackStorage.used N s in
  let size := (sizeof * count) mod 2 ^ 64 in
  let fits p :=
    p mod 2 ^ Z.of_nat k = 0 ∧ st ≤ p ∧
    p + size ≤ StackStorage.base s + N in
  match StackStorage.create_with_alignment N k sizeof count s with
  | (s', Some ptr) =>
      fits ptr ∧ (∀ p, fits p → ptr ≤ p) ∧
      StackStorage.base s' = StackStorage.base s ∧
      0 ≤ StackStorage.size_ s' ≤ N ∧
      StackStorage.base s' + StackStorage.used N s' = ptr + size
  | (s', None) => s' = s ∧ ∀ p, ¬ fits p
  end.
Proof.
  intros Hsz HN st size fits.
  destruct (create_with_alignment_cases k sizeof count s Hsz HN)
    as [Hsize Hcases].
  cbv zeta in Hcases. fold size in Hsize, Hcases.
  subst st fits. cbv beta. rewrite (used_eq s Hsz HN).
  destruct (align_up (2 ^ Z.of_nat k)
              (StackStorage.base s + (N - StackStorage.size_ s))
              (pow2_pos k)) as (Hmod & Hle & Hlt & Hleast).
  set (aligned := (StackStorage.base s + (N - StackStorage.size_ s)
                   + (2 ^ Z.of_nat k - 1)) / 2 ^ Z.of_nat k
                  * 2 ^ Z.of_nat k) in *.
  destruct (decide (aligned + size ≤ StackStorage.base s + N))
    as [Hfit|Hno]; rewrite Hcases.
  - set (s1 := {| StackStorage.base := StackStorage.base s;
                  StackStorage.size_ :=
                    StackStorage.base s + N - aligned - size |}).
    assert (0 ≤ StackStorage.size_ s1 ≤ N) as Hsz' by (simpl; lia).
    rewrite (used_eq s1 Hsz' HN). cbn [StackStorage.base StackStorage.size_ s1].
    split_and!; [done|lia|lia| |done|lia|lia|lia].
    intros p (Hp & ? & ?). by apply Hleast.
  - split; [done|]. intros p (Hp & ? & ?).
    specialize (Hleast p Hp ltac:(done)). lia.
Qed.

(** X21.  For calls that ask for a number of bytes a [size_t] counts,
    the blocks that the [allocate] calls of any sequence of requests
    return lie inside the array, after the bytes used before, and
    every block ends before the next one begins: no byte is handed out
    twice, whatever was deallocated in between. *)
Theorem serve_blocks rs s :
  0 ≤ StackStorage.size_ s ≤ N → N < 2 ^ 64 →
  Forall StackStorage.countable rs →
  let s' := (StackStorage.serve N rs s).1 in
  let blocks := (StackStorage.serve N rs s).2 in
  0 ≤ StackStorage.size_ s' ≤ N ∧
  StackStorage.base s' = StackStorage.base s ∧
  StackStorage.used N s ≤ StackStorage.used N s' ≤ N ∧
  (∀ i p n, blocks !! i = Some (p, n) →
     0 ≤ n ∧
     StackStorage.base s + StackStorage.used N s ≤ p ∧
     p + n ≤ StackStorage.base s + StackStorage.used N s') ∧
  (∀ i j p n q n', (i < j)%nat → blocks !! i = Some (p, n) →
     blocks !! j = Some (q, n') → p + n ≤ q).
Proof.
  intros Hsz HN Hrs. revert s Hsz.
  induction Hrs as [|[k sizeof count|ptr size] rs Hr _ IH]; intros s Hsz.
  - simpl. rewrite (used_eq s Hsz HN).
    split_and!; [lia|lia|done|lia|lia| |]; intros; simplify_eq.
  - cbn [StackStorage.serve]. unfold StackStorage.allocate.
    destruct (create_with_alignment_cases k sizeof count s Hsz HN)
      as [Hsize Hcases].
    cbv zeta in Hcases.
    destruct Hr as (Hsizeof & Hcount & Hprod).
    rewrite (Z.mod_small (sizeof * count)) in Hsize, Hcases by nia.
    destruct (align_up (2 ^ Z.of_nat k)
                (StackStorage.base s + (N - StackStorage.size_ s))
                (pow2_pos k)) as (_ & Hle & _).
    set (aligned := (StackStorage.base s + (N - StackStorage.size_ s)
                     + (2 ^ Z.of_nat k - 1)) / 2 ^ Z.of_nat k
                    * 2 ^ Z.of_nat k) in *.
    destruct (decide (aligned + sizeof * count ≤ StackStorage.base s + N))
      as [Hfit|Hno]; rewrite Hcases.
    + set (s1 := {| StackStorage.base := StackStorage.base s;
                    StackStorage.size_ :=
                      StackStorage.base s + N - aligned - sizeof * count |}).
      assert (0 ≤ StackStorage.size_ s1 ≤ N) as Hsz1 by (simpl; lia).
      specialize (IH s1 Hsz1).
      destruct (StackStorage.serve N rs s1) as [s' blocks].
      cbv zeta in IH. cbn [fst snd] in *.
      destruct IH as (Hsz' & Hbase' & Hmono & Hin & Hsep).
      rewrite (used_eq s Hsz HN). rewrite (used_eq s1 Hsz1 HN) in *.
      unfold s1 in *. cbn [StackStorage.base StackStorage.size_] in *.
      split_and!; [lia|lia|done|lia|lia| |].
      * intros [|i] p n Hi; simpl in Hi.
        { injection Hi as <- <-. lia. }
        apply Hin in Hi. lia.
      * intros i [|j] p n q n' Hlt Hi Hj; [lia|].
        simpl in Hj. apply Hin in Hj as Hj'.
        destruct i as [|i]; simpl in Hi.
        { injection Hi as <- <-. lia. }
        apply (Hsep i j p n q n'); [lia|done..].
    + specialize (IH s Hsz).
      by destruct (StackStorage.serve N rs s) as [s' blocks].
  - cbn [StackStorage.serve]. unfold StackStorage.deallocate.
    apply IH, Hsz.
Qed.
End StackStorageProperties.

(** * The properties at concrete containers *)

Section MoreWitnesses.
Import Scenario.
Local Abbreviation it_of ns :=
  (match ns return iter with [] => End | n :: _ => Node n.1 end).

Lemma ints_valid : List.valid (ints [1; 2; 3]).
Proof.
  split; apply (bool_decide_unpack _); vm_compute; exact I.
Qed.

Lemma three_built : built hash_int three.
Proof. apply built_reachable, three_reachable. Qed.

Lemma one_built : built hash_int one.
Proof. apply built_reachable, one_reachable. Qed.

Lemma sixteen_built : built hash_int sixteen.
Proof. apply built_reachable, sixteen_reachable. Qed.

Lemma three_default : max_load_factor three = default_factor.
Proof. vm_compute. reflexivity. Qed.

Lemma sixteen_default : max_load_factor sixteen = default_factor.
Proof. vm_compute. reflexivity. Qed.

Lemma three_chain :
  List.chain (values_ three)
  = [(2, (2, 20))] ++ (1, (23, 230)) :: [(0, (1, 10))].
Proof. vm_compute. reflexivity. Qed.

Lemma three_misses_5 : 5 ∉ keys three.
Proof. apply (bool_decide_unpack _). vm_compute. exact I. Qed.

Lemma list_ends_witness :
  List.valid (ints [1; 2; 3]) ∧
  ∃ l', List.push_back (Some 4) (ints [1; 2; 3]) = Ret l' () ∧
        List.valid l' ∧
        List.values l' = List.values (ints [1; 2; 3]) ++ [4].
Proof.
  split; [exact ints_valid|].
  exact (proj1 (list_ends (ints [1; 2; 3]) 4 ints_valid)).
Defined.

Lemma list_clear_witness :
  List.valid (ints [1; 2; 3]) ∧
  ∃ l', List.clear (ints [1; 2; 3]) = Ret l' () ∧ List.valid l' ∧
        List.size l' = 0 ∧ List.is_empty l' = true ∧
        List.begin l' = List.end_ l'.
Proof.
  split; [exact ints_valid|].
  exact (list_clear (ints [1; 2; 3]) ints_valid).
Defined.

Lemma list_copy_assign_witness :
  List.valid (ints [1; 2; 3]) ∧
  ∃ this', List.copy_assign (λ _, None) (ints [7; 8]) (ints [1; 2; 3])
           = Ret this' () ∧
           List.valid this' ∧
           List.values this'
           = match mapM (λ _ : nat, @None nat) (List.values (ints [7; 8])) with
             | Some ys => ys
             | None => drop (List.size (ints [1; 2; 3])
                             - List.size (ints [7; 8]))
                         (List.values (ints [1; 2; 3]))
             end.
Proof.
  split; [exact ints_valid|].
  exact (list_copy_assign (λ _, None) (ints [7; 8]) (ints [1; 2; 3])
           ints_valid).
Defined.

Lemma list_move_construct_witness :
  List.valid (ints [1; 2; 3]) ∧
  ∃ this list',
    List.move_construct (ints [1; 2; 3]) = Ret (this, list') () ∧
    List.valid this ∧ List.values this = List.values (ints [1; 2; 3]) ∧
    List.valid list' ∧ List.values list' = [].
Proof.
  split; [exact ints_valid|].
  exact (list_move_construct (ints [1; 2; 3]) ints_valid).
Defined.

Lemma list_move_assign_diverges_witness :
  List.valid (ints [1; 2; 3]) ∧
  List.move_assign 5 (ints [1; 2; 3]) (ints [7; 8]) = OutOfFuel.
Proof.
  split; [exact ints_valid|].
  exact (list_move_assign_diverges 5 (ints [1; 2; 3]) (ints [7; 8])
           ints_valid).
Defined.

Lemma built_invariant_witness :
  built hash_int three ∧
  NoDup (keys three) ∧ contiguous hash_int three ∧
  (size three ≠ 0 → 0 < bucket_count three) ∧
  ∀ b a, buckets_ three !! b = Some (Node a) →
    ∃ e, List.deref (Node a) (values_ three) = Some e ∧
         hash_int e.1 mod bucket_count three = b.
Proof.
  split; [exact three_built|].
  exact (built_invariant hash_int three three_built).
Defined.

Lemma at_spec_witness :
  built hash_int three ∧
  (∀ v, (23, v) ∈ entries three → at_ hash_int 23 three = Ret three v) ∧
  (23 ∉ keys three → at_ hash_int 23 three = Thrown three).
Proof.
  split; [exact three_built|].
  exact (at_spec hash_int three 23 three_built).
Defined.

Lemma insert_new_witness :
  (5 ∉ keys three) ∧
  ∃ m' a,
    insert hash_int 2 (5, 50) three = Ret m' (Node a, true) ∧
    size m' = S (size three) ∧
    find hash_int 5 m' = Some (Node a) ∧
    List.deref (Node a) (values_ m') = Some (5, 50) ∧
    (∀ k' v', maps_to hash_int three k' v' → maps_to hash_int m' k' v') ∧
    (∀ k', k' ∈ keys m' ↔ k' = 5 ∨ k' ∈ keys three).
Proof.
  split; [exact three_misses_5|].
  exact (insert_new hash_int 2 three 5 50 three_built (le_n 2)
           three_misses_5).
Defined.

Lemma emplace_load_factor_witness :
  max_load_factor sixteen = default_factor ∧ 2 ≤ 2 ∧ ¬ roomy sixteen ∧
  ∃ m' r,
    emplace hash_int 2 (Some (17, 170)) sixteen = Ret m' r ∧
    size m' ≤ floor_mul (bucket_count m') (max_load_factor m') ∧
    max_load_factor m' = max_load_factor sixteen ∧
    bucket_count m'
    = max (ceil_div
             (max default_start_size (growing_coefficient * size sixteen))
             (max_load_factor sixteen))
          (floor_div (size sixteen) (max_load_factor sixteen)) ∧
    bucket_count m' = 43.
Proof.
  split; [exact sixteen_default|]. split; [exact (le_n 2)|].
  split; [exact sixteen_full|].
  destruct (emplace_load_factor hash_int 2 sixteen 17 170 sixteen_built
              sixteen_default (le_n 2))
    as (m' & r & Hop & Hsize & Hmf & _ & Hbc).
  exists m', r. split; [exact Hop|]. split; [exact Hsize|].
  split; [exact Hmf|]. split; [exact (Hbc sixteen_full)|].
  rewrite (Hbc sixteen_full). vm_compute. reflexivity.
Defined.

Lemma erase_entry_witness :
  List.chain (values_ three)
  = [(2, (2, 20))] ++ (1, (23, 230)) :: [(0, (1, 10))] ∧
  ∃ m' r,
    erase hash_int (Node 1) three = Ret m' r ∧
    List.next (Node 1) (values_ three) = Some r ∧
    entries three = [(2, (2, 20))].*2 ++ (23, 230) :: [(0, (1, 10))].*2 ∧
    entries m' = [(2, (2, 20))].*2 ++ [(0, (1, 10))].*2 ∧
    size m' + 1 = size three ∧
    find hash_int 23 m' = Some End ∧
    (∀ k' v', k' ≠ 23 → maps_to hash_int three k' v' →
              maps_to hash_int m' k' v') ∧
    bucket_count m' = bucket_count three.
Proof.
  split; [exact three_chain|].
  exact (proj2 (erase_entry hash_int three [(2, (2, 20))] 1 23 230
                  [(0, (1, 10))] three_built three_chain)).
Defined.

Lemma iterator_stability_witness :
  built hash_int three ∧ max_load_factor three = default_factor ∧
  roomy three ∧
  (∃ m' r,
     insert hash_int 2 (5, 50) three = Ret m' r ∧
     ∀ b e, List.deref (Node b) (values_ three) = Some e →
            List.deref (Node b) (values_ m') = Some e) ∧
  ∀ a m' r,
    erase hash_int (Node a) three = Ret m' r →
    ∀ b e, b ≠ a → List.deref (Node b) (values_ three) = Some e →
           List.deref (Node b) (values_ m') = Some e.
Proof.
  split; [exact three_built|]. split; [exact three_default|].
  split; [exact three_roomy|]. split.
  - assert (∃ m' r, insert hash_int 2 (5, 50) three = Ret m' r)
      as (m' & r & Hop).
    { eexists _, _. vm_compute. reflexivity. }
    exists m', r. split; [exact Hop|].
    exact (proj1 (iterator_stability hash_int three three_built)
             2 (5, 50) m' r three_default three_roomy Hop).
  - exact (proj2 (iterator_stability hash_int three three_built)).
Defined.

Lemma insert_range_first_wins_witness :
  2 ≤ 2 ∧
  ∃ m',
    insert_range hash_int 2 [(5, 50); (5, 51); (1, 11)] three = Ret m' () ∧
    (∀ k v, (k, v) ∈ entries three → maps_to hash_int m' k v) ∧
    (∀ front k v back,
       [(5, 50); (5, 51); (1, 11)] = front ++ (k, v) :: back →
       k ∉ front.*1 → k ∉ keys three → maps_to hash_int m' k v) ∧
    (∀ k, k ∈ keys m' ↔
          k ∈ keys three ∨ k ∈ [(5, 50); (5, 51); (1, 11)].*1).
Proof.
  split; [exact (le_n 2)|].
  exact (insert_range_first_wins hash_int 2 [(5, 50); (5, 51); (1, 11)]
           three three_built (le_n 2)).
Defined.

Lemma erase_range_spec_witness :
  List.chain (values_ three)
  = [(2, (2, 20))] ++ [(1, (23, 230))] ++ [(0, (1, 10))] ∧
  ∃ m',
    erase_range hash_int 1
      (it_of ([(1, (23, 230))] ++ [(0, (1, 10))]))
      (it_of [(0, (1, 10))]) three
    = Ret m' (match [(1, (23, 230))] with
              | [] => end_ three
              | _ :: _ => it_of [(0, (1, 10))]
              end) ∧
    entries m' = [(2, (2, 20))].*2 ++ [(0, (1, 10))].*2 ∧
    bucket_count m' = bucket_count three.
Proof.
  split; [exact three_chain|].
  exact (erase_range_spec hash_int 1 three [(2, (2, 20))] [(1, (23, 230))]
           [(0, (1, 10))] three_built three_chain (le_n 1)).
Defined.

Lemma move_assign_moves_witness :
  2 ≤ 2 ∧
  ∃ this' m',
    move_assign hash_int 2 one three = Ret (this', m') () ∧
    same_content hash_int three this' ∧
    max_load_factor this' = max_load_factor one ∧
    size m' = 0 ∧ bucket_count m' = 0.
Proof.
  split; [exact (le_n 2)|].
  exact (move_assign_moves hash_int 2 one three one_built three_built
           (le_n 2)).
Defined.

Lemma move_assign_self_empties_witness :
  built hash_int three ∧
  ∃ m', move_assign_self three = Ret m' () ∧
        size m' = 0 ∧ bucket_count m' = 0 ∧
        max_load_factor m' = max_load_factor three.
Proof.
  split; [exact three_built|].
  exact (move_assign_self_empties hash_int three three_built).
Defined.

Lemma three_size : size three ≤ 100.
Proof. vm_compute. lia. Qed.

Lemma reserve_capacity_witness :
  max_load_factor three = default_factor ∧ size three ≤ 100 ∧
  ∃ m',
    reserve hash_int 1 100 three = Ret m' () ∧
    same_content hash_int three m' ∧
    bucket_count m'
    = max (ceil_div 100 (max_load_factor three))
          (floor_div (size three) (max_load_factor three)) ∧
    100 ≤ floor_mul (bucket_count m') (max_load_factor m').
Proof.
  split; [exact three_default|]. split; [exact three_size|].
  exact (reserve_capacity hash_int 1 100 three three_built three_default
           (le_n 1) three_size).
Defined.
End MoreWitnesses.

Section StorageWitnesses.
Import Scenario.
Local Open Scope Z_scope.

Lemma storage_size : 0 ≤ StackStorage.size_ storage ≤ 64.
Proof. simpl. lia. Qed.

Lemma sixty_four : 64 < 2 ^ 64.
Proof. lia. Qed.

Lemma requests_countable : Forall StackStorage.countable requests.
Proof. repeat constructor; simpl; lia. Qed.

Lemma create_with_alignment_spec_witness :
  0 ≤ StackStorage.size_ storage ≤ 64 ∧ 64 < 2 ^ 64 ∧
  StackStorage.create_with_alignment 64 2 4 many_ints storage
  = (StackStorage.mk 1000 60, Some 1000) ∧
  let st := StackStorage.base storage + StackStorage.used 64 storage in
  let size := (4 * many_ints) mod 2 ^ 64 in
  let fits p :=
    p mod 2 ^ Z.of_nat 2 = 0 ∧ st ≤ p ∧
    p + size ≤ StackStorage.base storage + 64 in
  match StackStorage.create_with_alignment 64 2 4 many_ints storage with
  | (s', Some ptr) =>
      fits ptr ∧ (∀ p, fits p → ptr ≤ p) ∧
      StackStorage.base s' = StackStorage.base storage ∧
      0 ≤ StackStorage.size_ s' ≤ 64 ∧
      StackStorage.base s' + StackStorage.used 64 s' = ptr + size
  | (s', None) => s' = storage ∧ ∀ p, ¬ fits p
  end.
Proof.
  split; [exact storage_size|]. split; [exact sixty_four|].
  split; [vm_compute; reflexivity|].
  exact (create_with_alignment_spec 64 2 4 many_ints storage storage_size
           sixty_four).
Defined.

Lemma serve_blocks_witness :
  0 ≤ StackStorage.size_ storage ≤ 64 ∧ 64 < 2 ^ 64 ∧
  Forall StackStorage.countable requests ∧
  let s' := (StackStorage.serve 64 requests storage).1 in
  let blocks := (StackStorage.serve 64 requests storage).2 in
  0 ≤ StackStorage.size_ s' ≤ 64 ∧
  StackStorage.base s' = StackStorage.base storage ∧
  StackStorage.used 64 storage ≤ StackStorage.used 64 s' ≤ 64 ∧
  (∀ i p n, blocks !! i = Some (p, n) →
     0 ≤ n ∧
     StackStorage.base storage + StackStorage.used 64 storage ≤ p ∧
     p + n ≤ StackStorage.base storage + StackStorage.used 64 s') ∧
  (∀ i j p n q n', (i < j)%nat → blocks !! i = Some (p, n) →
     blocks !! j = Some (q, n') → p + n ≤ q).
Proof.
  split; [exact storage_size|]. split; [exact sixty_four|].
  split; [exact requests_countable|].
  exact (serve_blocks 64 requests storage storage_size sixty_four
           requests_countable).
Defined.
End StorageWitnesses.

(** * The deque: reading a deque that holds its elements *)

Section DequeFacts.
Context {T : Type} {destructor : Deque.Destructor T}.
Implicit Types (d : Deque.t (T := T)) (ch : Deque.Chunk (T := T)).
Implicit Types (xs : list T) (chunks : list (Deque.Chunk (T := T))).
Local Open Scope Z_scope.

Local Ltac zlia :=
  unfold Deque.chunk_size, Deque.init_size, Deque.to_size_t,
    Deque.to_int64, Deque.to_int in *;
  Z.to_euclidean_division_equations; lia.

Lemma chunk_at_Some i chunks ch :
  Deque.chunk_at i chunks = Some ch ↔
  0 ≤ i ∧ chunks !! Z.to_nat i = Some ch.
Proof.
  unfold Deque.chunk_at. destruct (decide (0 ≤ i)); [tauto|].
  split; [done|intros [? _]; lia].
Qed.

Lemma chunk_at_lt i chunks ch :
  Deque.chunk_at i chunks = Some ch → 0 ≤ i < Z.of_nat (length chunks).
Proof.
  intros [? Hl%lookup_lt_Some]%chunk_at_Some. lia.
Qed.

Lemma chunk_at_is_Some i chunks :
  0 ≤ i < Z.of_nat (length chunks) → is_Some (Deque.chunk_at i chunks).
Proof.
  intros [? ?]. unfold Deque.chunk_at. rewrite decide_True by done.
  apply lookup_lt_is_Some. lia.
Qed.

Lemma chunk_at_insert i chunks ch :
  0 ≤ i < Z.of_nat (length chunks) →
  Deque.chunk_at i (<[Z.to_nat i := ch]> chunks) = Some ch.
Proof.
  intros [? ?]. unfold Deque.chunk_at. rewrite decide_True by done.
  apply list_lookup_insert_eq. lia.
Qed.

Lemma chunk_at_insert_ne i j chunks ch :
  0 ≤ i → i ≠ j →
  Deque.chunk_at j (<[Z.to_nat i := ch]> chunks) = Deque.chunk_at j chunks.
Proof.
  intros ? ?. unfold Deque.chunk_at. destruct (decide (0 ≤ j)); [|done].
  apply list_lookup_insert_ne. lia.
Qed.

Lemma holds_nonempty d xs :
  xs ≠ [] → Deque.holds d xs ↔ Deque.holds_elements d xs.
Proof. by destruct xs. Qed.

(** ** The size and the elements of a deque that holds [xs] *)

Lemma holds_size d xs :
  Deque.holds d xs → Z.of_nat (length xs) < 2 ^ 63 →
  Deque.size d = Z.of_nat (length xs).
Proof.
  unfold Deque.holds. destruct xs as [|x xs]; [by intros [? _]|].
  set (n := Z.of_nat (length (x :: xs))).
  assert (1 ≤ n) by (unfold n; simpl; lia).
  unfold Deque.holds_elements. fold n.
  intros (Hb1 & Hb2 & He1 & He2 & _) Hn. unfold Deque.size.
  destruct (Deque.begin_ d) as [b1 b2], (Deque.end_ d) as [e1 e2].
  simpl in *. case_decide; zlia.
Qed.

Lemma holds_index d xs i x :
  Deque.holds d xs → Z.of_nat (length xs) < 2 ^ 31 →
  xs !! i = Some x → Deque.index (Z.of_nat i) d = Some x.
Proof.
  intros Hd Hn Hi. pose proof (lookup_lt_Some _ _ _ Hi) as Hlt.
  pose proof (holds_size d xs Hd ltac:(lia)) as Hsize.
  apply holds_nonempty in Hd; [|by intros ->].
  set (n := Z.of_nat (length xs)) in *.
  destruct Hd as (Hb1 & Hb2 & He1 & He2 & Hlen & Hchunks). fold n in He1, He2.
  unfold Deque.index, Deque.begin, Deque.empty.
  rewrite bool_decide_false by lia.
  destruct (Deque.begin_ d) as [b1 b2] eqn:Hb,
           (Deque.end_ d) as [e1 e2] eqn:He. simpl in *.
  assert (b1 ≤ e1) by zlia.
  destruct (chunk_at_is_Some b1 (Deque.data_ d)) as [ch0 Hch0]; [lia|].
  rewrite Hch0. simpl.
  pose proof (Hchunks b1 ch0 Hch0) as H0.
  rewrite decide_True in H0 by lia.
  destruct H0 as (Hcb0 & Hce0 & slots0 & Hdata0 & Hlen0 & Hslots0).
  simpl in Hcb0. rewrite decide_True in Hcb0 by done.
  unfold Deque.pointer. rewrite Hdata0, Hcb0.
  rewrite decide_True by (unfold Deque.chunk_size in *; lia). simpl.
  assert (Deque.to_int (Z.of_nat i) = Z.of_nat i) as -> by zlia.
  set (c := b1 + (b2 + Z.of_nat i) / 32).
  set (o := (b2 + Z.of_nat i) mod 32).
  assert (b1 ≤ c ≤ e1) as Hc by (unfold c; zlia).
  destruct (chunk_at_is_Some c (Deque.data_ d)) as [ch Hch]; [lia|].
  pose proof (Hchunks c ch Hch) as H1.
  rewrite decide_True in H1 by lia.
  destruct H1 as (Hcb & Hce & slots & Hdata & Hlens & Hslots).
  simpl in Hcb, Hce, Hslots.
  assert (0 ≤ o < 32) as Ho by (unfold o; zlia).
  assert (Deque.chunk_begin ch ≤ o < Deque.chunk_end ch) as Hin.
  { rewrite Hcb, Hce. unfold c, o in *. repeat case_decide; zlia. }
  assert (Z.to_nat ((c - b1) * Deque.chunk_size + o - b2) = i) as Hidx.
  { unfold c, o. zlia. }
  specialize (Hslots o Ho). rewrite decide_True in Hslots by done.
  rewrite Hidx, Hi in Hslots.
  assert (Deque.deref
            {| Deque.first_iter := c; Deque.second_iter := Some o |} d
          = Some x) as Hderef.
  { unfold Deque.deref. simpl. rewrite Hch. simpl. rewrite Hdata. simpl.
    rewrite decide_True by lia. by rewrite Hslots. }
  unfold Deque.iter_add. simpl.
  destruct (decide (Z.of_nat i = 0)) as [Hi0|Hi0].
  { simpl. rewrite <-Hderef.
    assert (c = b1) as Hc0 by (unfold c; zlia).
    assert (o = b2) as Ho0 by (unfold o; zlia).
    by rewrite Hc0, Ho0. }
  set (s1 := if decide (0 < Z.rem (Z.of_nat i) Deque.chunk_size
                        ∧ Deque.chunk_size
                          ≤ b2 + Z.rem (Z.of_nat i) Deque.chunk_size)
             then (b1 + Z.quot (Z.of_nat i) Deque.chunk_size + 1,
                   b2 + Z.rem (Z.of_nat i) Deque.chunk_size
                   - Deque.chunk_size)
             else (b1 + Z.quot (Z.of_nat i) Deque.chunk_size,
                   b2 + Z.rem (Z.of_nat i) Deque.chunk_size)).
  assert (s1 = (c, o)) as Hs1.
  { unfold s1, c, o. clear -Hb2 Hi0.
    destruct (decide (_ ∧ _)); f_equal; zlia. }
  rewrite Hs1. cbn [fst snd].
  rewrite decide_False by zlia.
  cbn [fst snd]. rewrite Hch. cbn [mbind option_bind].
  unfold Deque.pointer. rewrite Hdata.
  rewrite decide_True by (unfold Deque.chunk_size; lia).
  exact Hderef.
Qed.
End DequeFacts.

(** * The deque: adding at the ends *)

Section DequePush.
Context {T : Type} {destructor : Deque.Destructor T}.
Implicit Types (d : Deque.t (T := T)) (ch : Deque.Chunk (T := T)).
Implicit Types (xs : list T) (chunks : list (Deque.Chunk (T := T))).
Implicit Types (slots : list (option T)).
Local Open Scope Z_scope.

Local Ltac zlia :=
  unfold Deque.chunk_size, Deque.init_size, Deque.to_size_t,
    Deque.to_int64, Deque.to_int in *;
  Z.to_euclidean_division_equations; lia.

Lemma slots_insert slots o0 o (y : option T) :
  0 ≤ o0 → 0 ≤ o → (Z.to_nat o0 < length slots)%nat →
  <[Z.to_nat o0 := y]> slots !! Z.to_nat o
  = if decide (o = o0) then Some y else slots !! Z.to_nat o.
Proof.
  intros ? ? ?. destruct (decide (o = o0)) as [->|?].
  - by apply list_lookup_insert_eq.
  - apply list_lookup_insert_ne. lia.
Qed.

Lemma idle_init b e ch :
  Deque.idle ch →
  Deque.chunk_init b e ch
  = {| Deque.chunk_begin := b; Deque.chunk_end := e;
       Deque.data := Some (replicate (Z.to_nat Deque.chunk_size) None) |}.
Proof.
  intros [_ Hslots]. unfold Deque.chunk_init. f_equal.
  destruct (Deque.data ch) as [slots|]; [|done]. by rewrite (Hslots slots).
Qed.

Lemma lookup_blank o :
  0 ≤ o < Deque.chunk_size →
  replicate (Z.to_nat Deque.chunk_size) (@None T) !! Z.to_nat o = Some None.
Proof.
  intros ?. apply lookup_replicate_2. unfold Deque.chunk_size in *. lia.
Qed.

Lemma with_chunk_Some i op d ch ch' :
  Deque.chunk_at i (Deque.data_ d) = Some ch → op ch = Some ch' →
  Deque.with_chunk i op d
  = Some (Deque.set_data_ d (<[Z.to_nat i := ch']> (Deque.data_ d))).
Proof. intros Hch Hop. unfold Deque.with_chunk. by rewrite Hch; simpl; rewrite Hop. Qed.

Lemma on_chunk_Ret i op d ch ch' :
  Deque.chunk_at i (Deque.data_ d) = Some ch → op ch = Ret ch' () →
  Deque.on_chunk i op d
  = Ret (Deque.set_data_ d (<[Z.to_nat i := ch']> (Deque.data_ d))) ().
Proof. intros Hch Hop. unfold Deque.on_chunk. by rewrite Hch, Hop. Qed.

Lemma on_chunk_Thrown i op d ch ch' :
  Deque.chunk_at i (Deque.data_ d) = Some ch → op ch = Thrown ch' →
  Deque.on_chunk i op d
  = Thrown (Deque.set_data_ d (<[Z.to_nat i := ch']> (Deque.data_ d))).
Proof. intros Hch Hop. unfold Deque.on_chunk. by rewrite Hch, Hop. Qed.

Lemma chunk_push_back_Ret ch slots v :
  Deque.data ch = Some slots → 0 ≤ Deque.chunk_end ch < Deque.chunk_size →
  Deque.chunk_push_back (Some v) ch
  = Ret {| Deque.chunk_begin := Deque.chunk_begin ch;
           Deque.chunk_end := Deque.chunk_end ch + 1;
           Deque.data :=
             Some (<[Z.to_nat (Deque.chunk_end ch) := Some v]> slots) |} ().
Proof.
  intros Hdata ?. unfold Deque.chunk_push_back, Deque.place.
  rewrite Hdata. by rewrite decide_True by done.
Qed.

Lemma chunk_push_front_Ret ch slots v :
  Deque.data ch = Some slots →
  0 ≤ Deque.chunk_begin ch - 1 < Deque.chunk_size →
  Deque.chunk_push_front (Some v) ch
  = Ret {| Deque.chunk_begin := Deque.chunk_begin ch - 1;
           Deque.chunk_end := Deque.chunk_end ch;
           Deque.data :=
             Some (<[Z.to_nat (Deque.chunk_begin ch - 1) := Some v]> slots)
        |} ().
Proof.
  intros Hdata ?. unfold Deque.chunk_push_front, Deque.place.
  rewrite Hdata. by rewrite decide_True by done.
Qed.

Local Ltac fields :=
  cbn [Deque.data_ Deque.begin_ Deque.end_ Deque.set_data_ Deque.set_end
       Deque.set_begin Deque.chunk_begin Deque.chunk_end Deque.data
       Deque.set_bounds Deque.set_data fst snd] in *.

(** [push_back] on a deque with an element, short of the end of the
    last chunk of the vector. *)
Lemma push_back_holds d xs v :
  Deque.holds d xs → xs ≠ [] → Z.of_nat (length xs) < 2 ^ 62 →
  Deque.end_ d ≠ (Z.of_nat (length (Deque.data_ d)) - 1,
                  Deque.chunk_size - 1) →
  ∃ d', Deque.push_back (Some v) d = Ret d' () ∧
        Deque.holds d' (xs ++ [v]) ∧
        Deque.begin_ d' = Deque.begin_ d ∧
        length (Deque.data_ d') = length (Deque.data_ d).
Proof.
  intros Hd Hne Hn Hcap.
  pose proof (holds_size d xs Hd ltac:(lia)) as Hsize.
  apply holds_nonempty in Hd; [|done].
  set (n := Z.of_nat (length xs)) in *.
  assert (1 ≤ n) by (destruct xs; [done|]; unfold n; simpl; lia).
  destruct Hd as (Hb1 & Hb2 & He1 & He2 & Hlen & Hchunks).
  fold n in He1, He2.
  unfold Deque.push_back, Deque.empty.
  rewrite bool_decide_false by lia. rewrite decide_False by done.
  clear Hsize.
  destruct d as [chunks [b1 b2] [e1 e2]]. fields.
  assert (b1 ≤ e1) by zlia.
  assert (0 ≤ e2 < 32) by zlia.
  assert (Z.of_nat (length (xs ++ [v])) = n + 1) as Hn'.
  { unfold n. rewrite length_app. simpl. lia. }
  assert (xs ++ [v] ≠ []) as Hne' by (by destruct xs).
  destruct (decide (e2 + 1 = Deque.chunk_size)) as [Hfull|Hroom].
  - (* the element opens the next chunk *)
    assert (e1 + 1 < Z.of_nat (length chunks)) as Hnext.
    { destruct (decide (e1 = Z.of_nat (length chunks) - 1)) as [->|];
        [|lia]. destruct Hcap. f_equal. unfold Deque.chunk_size in *. lia. }
    destruct (chunk_at_is_Some (e1 + 1) chunks) as [ch1 Hch1]; [lia|].
    pose proof (Hchunks _ _ Hch1) as Hidle.
    rewrite decide_False in Hidle by lia.
    erewrite with_chunk_Some; [|exact Hch1|reflexivity].
    rewrite (idle_init 0 0 ch1 Hidle). fields.
    erewrite on_chunk_Ret;
      [|fields; apply chunk_at_insert; lia
       |apply chunk_push_back_Ret; [reflexivity|fields;
                                    unfold Deque.chunk_size; lia]].
    fields. rewrite list_insert_insert_eq.
    eexists. split; [reflexivity|]. split; [|split; [done|]].
    2:{ fields. by rewrite !length_insert. }
    apply holds_nonempty; [done|]. unfold Deque.holds_elements.
    fields. rewrite Hn'. rewrite !length_insert.
    split_and!; [done|lia|lia|zlia|zlia|lia|].
    intros c ch Hc.
    destruct (decide (c = e1 + 1)) as [->|Hce].
    + rewrite chunk_at_insert in Hc by lia. apply (inj Some) in Hc; subst ch. fields.
      rewrite decide_True by lia. unfold Deque.in_use. fields.
      rewrite decide_False by lia. rewrite decide_True by done.
      split_and!; [done|done|].
      eexists. split; [done|]. split; [by rewrite length_insert,
                                         length_replicate|].
      intros o Ho.
      rewrite slots_insert, lookup_blank
        by (rewrite ?length_replicate; unfold Deque.chunk_size in *; lia).
      destruct (decide (o = 0)) as [->|?].
      * rewrite decide_True by lia. f_equal.
        rewrite lookup_app_r by zlia.
        replace (Z.to_nat ((e1 + 1 - b1) * Deque.chunk_size + 0 - b2)
                 - length xs)%nat with 0%nat by zlia.
        done.
      * by rewrite decide_False by lia.
    + rewrite chunk_at_insert_ne in Hc by lia.
      specialize (Hchunks c ch Hc).
      destruct (decide (b1 ≤ c ≤ e1)) as [Hin|Hout].
      * rewrite decide_True by lia. unfold Deque.in_use in *. fields.
        destruct Hchunks as (Hcb & Hce' & slots & Hdata & Hlens & Hslots).
        split_and!; [done|..].
        { rewrite Hce'. rewrite (decide_False (P := c = e1 + 1)) by done.
          destruct (decide (c = e1)); [|done].
          unfold Deque.chunk_size in *. lia. }
        exists slots. split_and!; [done..|].
        intros o Ho. rewrite (Hslots o Ho).
        destruct (decide (_ ≤ o < _)) as [Hin'|]; [|done].
        f_equal. symmetry. apply lookup_app_l.
        rewrite Hcb, Hce' in Hin'. clear Hcb Hce'.
        repeat case_decide; zlia.
      * by rewrite decide_False by lia.
  - (* the element goes to the chunk of the last one *)
    destruct (chunk_at_is_Some e1 chunks) as [ch1 Hch1]; [lia|].
    pose proof (Hchunks _ _ Hch1) as Hlast.
    rewrite decide_True in Hlast by lia. unfold Deque.in_use in Hlast.
    fields.
    destruct Hlast as (Hcb1 & Hce1 & slots1 & Hdata1 & Hlens1 & Hslots1).
    rewrite decide_True in Hce1 by done.
    erewrite on_chunk_Ret;
      [|exact Hch1
       |apply chunk_push_back_Ret; [exact Hdata1|
          rewrite Hce1; unfold Deque.chunk_size in *; lia]].
    fields.
    eexists. split; [reflexivity|]. split; [|split; [done|]].
    2:{ fields. by rewrite !length_insert. }
    apply holds_nonempty; [done|]. unfold Deque.holds_elements.
    fields. rewrite Hn'. rewrite !length_insert.
    split_and!; [done|lia|lia|zlia|zlia|lia|].
    intros c ch Hc.
    destruct (decide (c = e1)) as [->|Hce].
    + rewrite chunk_at_insert in Hc by lia. apply (inj Some) in Hc; subst ch. fields.
      rewrite decide_True by lia. unfold Deque.in_use. fields.
      rewrite (decide_True (P := e1 = e1)) by done.
      split_and!; [done|by rewrite Hce1|].
      eexists. split; [done|]. split; [by rewrite length_insert|].
      intros o Ho. rewrite Hce1.
      rewrite slots_insert by (unfold Deque.chunk_size in *; lia).
      destruct (decide (o = e2 + 1)) as [->|?].
      * rewrite decide_True by (rewrite Hcb1; case_decide; zlia). f_equal.
        rewrite lookup_app_r by zlia.
        replace (Z.to_nat ((e1 - b1) * Deque.chunk_size + (e2 + 1) - b2)
                 - length xs)%nat with 0%nat by zlia.
        done.
      * rewrite (Hslots1 o Ho), Hce1.
        destruct (decide (Deque.chunk_begin ch1 ≤ o < e2 + 1)).
        { rewrite decide_True by lia. f_equal. symmetry.
          apply lookup_app_l. rewrite Hcb1 in *. case_decide; zlia. }
        by rewrite decide_False by lia.
    + rewrite chunk_at_insert_ne in Hc by lia.
      specialize (Hchunks c ch Hc).
      destruct (decide (b1 ≤ c ≤ e1)) as [Hin|Hout]; [|done].
      unfold Deque.in_use in *. fields.
      destruct Hchunks as (Hcb & Hce' & slots & Hdata & Hlens & Hslots).
      split_and!; [done|..].
      { rewrite Hce'. rewrite !(decide_False (P := c = e1)) by done. done. }
      exists slots. split_and!; [done..|].
      intros o Ho. rewrite (Hslots o Ho).
      destruct (decide (_ ≤ o < _)) as [Hin'|]; [|done].
      f_equal. symmetry. apply lookup_app_l.
      rewrite Hcb, Hce' in Hin'. clear Hcb Hce'.
      repeat case_decide; zlia.
Qed.
Lemma lookup_shift xs (v : T) (i : Z) :
  0 ≤ i → (v :: xs) !! Z.to_nat (i + 1) = xs !! Z.to_nat i.
Proof. intros ?. by replace (Z.to_nat (i + 1)) with (S (Z.to_nat i)) by lia. Qed.

(** [push_front] on a deque with an element, short of the first slot
    of the first chunk of the vector. *)
Lemma push_front_holds d xs v :
  Deque.holds d xs → xs ≠ [] → Z.of_nat (length xs) < 2 ^ 62 →
  Deque.begin_ d ≠ (0, 0) →
  ∃ d', Deque.push_front (Some v) d = Ret d' () ∧
        Deque.holds d' (v :: xs) ∧
        Deque.end_ d' = Deque.end_ d ∧
        length (Deque.data_ d') = length (Deque.data_ d).
Proof.
  intros Hd Hne Hn Hcap.
  pose proof (holds_size d xs Hd ltac:(lia)) as Hsize.
  apply holds_nonempty in Hd; [|done].
  set (n := Z.of_nat (length xs)) in *.
  assert (1 ≤ n) by (destruct xs; [done|]; unfold n; simpl; lia).
  destruct Hd as (Hb1 & Hb2 & He1 & He2 & Hlen & Hchunks).
  fold n in He1, He2.
  unfold Deque.push_front, Deque.empty.
  rewrite bool_decide_false by lia. rewrite decide_False by done.
  clear Hsize.
  destruct d as [chunks [b1 b2] [e1 e2]]. fields.
  assert (b1 ≤ e1) by zlia.
  assert (0 ≤ e2 < 32) by zlia.
  assert (Z.of_nat (length (v :: xs)) = n + 1) as Hn'.
  { unfold n. simpl. lia. }
  destruct (decide (b2 - 1 = -1)) as [Hfull|Hroom].
  - (* the element opens the chunk before *)
    assert (1 ≤ b1) as Hprev.
    { destruct (decide (b1 = 0)) as [->|]; [|lia]. destruct Hcap.
      f_equal. lia. }
    destruct (chunk_at_is_Some (b1 - 1) chunks) as [ch1 Hch1]; [lia|].
    pose proof (Hchunks _ _ Hch1) as Hidle.
    rewrite decide_False in Hidle by lia.
    erewrite with_chunk_Some; [|exact Hch1|reflexivity].
    rewrite (idle_init _ _ ch1 Hidle). fields.
    erewrite on_chunk_Ret;
      [|fields; apply chunk_at_insert; lia
       |apply chunk_push_front_Ret; [reflexivity|fields;
                                     unfold Deque.chunk_size; lia]].
    fields. rewrite list_insert_insert_eq.
    eexists. split; [reflexivity|]. split; [|split; [done|]].
    2:{ fields. by rewrite !length_insert. }
    apply holds_nonempty; [done|]. unfold Deque.holds_elements.
    fields. rewrite Hn'. rewrite !length_insert.
    split_and!; [lia|zlia|zlia|zlia|zlia|lia|].
    intros c ch Hc.
    destruct (decide (c = b1 - 1)) as [->|Hce].
    + rewrite chunk_at_insert in Hc by lia.
      apply (inj Some) in Hc; subst ch. fields.
      rewrite decide_True by lia. unfold Deque.in_use. fields.
      rewrite decide_True by done. rewrite decide_False by lia.
      split_and!; [lia|done|].
      eexists. split; [done|]. split; [by rewrite length_insert,
                                         length_replicate|].
      intros o Ho.
      rewrite slots_insert, lookup_blank
        by (rewrite ?length_replicate; unfold Deque.chunk_size in *; lia).
      destruct (decide (o = Deque.chunk_size - 1)) as [->|?].
      * rewrite decide_True by (unfold Deque.chunk_size; lia). f_equal.
        replace (Z.to_nat ((b1 - 1 - (b1 - 1)) * Deque.chunk_size
                           + (Deque.chunk_size - 1)
                           - (b2 - 1 + Deque.chunk_size)))
          with 0%nat by zlia.
        done.
      * by rewrite decide_False by lia.
    + rewrite chunk_at_insert_ne in Hc by lia.
      specialize (Hchunks c ch Hc).
      destruct (decide (b1 ≤ c ≤ e1)) as [Hin|Hout].
      * rewrite decide_True by lia. unfold Deque.in_use in *. fields.
        destruct Hchunks as (Hcb & Hce' & slots & Hdata & Hlens & Hslots).
        split_and!; [|done|].
        { rewrite Hcb. rewrite (decide_False (P := c = b1 - 1)) by done.
          destruct (decide (c = b1)); lia. }
        exists slots. split_and!; [done..|].
        intros o Ho. rewrite (Hslots o Ho).
        destruct (decide (_ ≤ o < _)) as [Hin'|]; [|done].
        f_equal.
        replace ((c - (b1 - 1)) * Deque.chunk_size + o
                 - (b2 - 1 + Deque.chunk_size))
          with ((c - b1) * Deque.chunk_size + o - b2 + 1)
          by (unfold Deque.chunk_size; lia).
        symmetry. apply lookup_shift.
        rewrite Hcb, Hce' in Hin'. clear Hcb Hce'.
        repeat case_decide; zlia.
      * by rewrite decide_False by lia.
  - (* the element goes to the chunk of the first one *)
    destruct (chunk_at_is_Some b1 chunks) as [ch1 Hch1]; [lia|].
    pose proof (Hchunks _ _ Hch1) as Hfirst.
    rewrite decide_True in Hfirst by lia. unfold Deque.in_use in Hfirst.
    fields.
    destruct Hfirst as (Hcb1 & Hce1 & slots1 & Hdata1 & Hlens1 & Hslots1).
    rewrite decide_True in Hcb1 by done.
    erewrite on_chunk_Ret;
      [|exact Hch1
       |apply chunk_push_front_Ret; [exact Hdata1|
          rewrite Hcb1; unfold Deque.chunk_size in *; lia]].
    fields.
    eexists. split; [reflexivity|]. split; [|split; [done|]].
    2:{ fields. by rewrite !length_insert. }
    apply holds_nonempty; [done|]. unfold Deque.holds_elements.
    fields. rewrite Hn'. rewrite !length_insert.
    split_and!; [done|lia|lia|zlia|zlia|lia|].
    intros c ch Hc.
    destruct (decide (c = b1)) as [->|Hce].
    + rewrite chunk_at_insert in Hc by lia.
      apply (inj Some) in Hc; subst ch. fields.
      rewrite decide_True by lia. unfold Deque.in_use. fields.
      rewrite (decide_True (P := b1 = b1)) by done.
      split_and!; [by rewrite Hcb1|done|].
      eexists. split; [done|]. split; [by rewrite length_insert|].
      intros o Ho. rewrite Hcb1.
      rewrite slots_insert by (unfold Deque.chunk_size in *; lia).
      destruct (decide (o = b2 - 1)) as [->|?].
      * rewrite decide_True by (rewrite Hce1; case_decide; zlia). f_equal.
        replace (Z.to_nat ((b1 - b1) * Deque.chunk_size + (b2 - 1)
                           - (b2 - 1))) with 0%nat by zlia.
        done.
      * rewrite (Hslots1 o Ho), Hcb1.
        destruct (decide (b2 ≤ o < Deque.chunk_end ch1)).
        { rewrite decide_True by lia. f_equal.
          replace ((b1 - b1) * Deque.chunk_size + o - (b2 - 1))
            with ((b1 - b1) * Deque.chunk_size + o - b2 + 1) by lia.
          symmetry. apply lookup_shift. zlia. }
        by rewrite decide_False by lia.
    + rewrite chunk_at_insert_ne in Hc by lia.
      specialize (Hchunks c ch Hc).
      destruct (decide (b1 ≤ c ≤ e1)) as [Hin|Hout]; [|done].
      unfold Deque.in_use in *. fields.
      destruct Hchunks as (Hcb & Hce' & slots & Hdata & Hlens & Hslots).
      split_and!; [|done|].
      { rewrite Hcb. rewrite !(decide_False (P := c = b1)) by done. done. }
      exists slots. split_and!; [done..|].
      intros o Ho. rewrite (Hslots o Ho).
      destruct (decide (_ ≤ o < _)) as [Hin'|]; [|done].
      f_equal.
      replace ((c - b1) * Deque.chunk_size + o - (b2 - 1))
        with ((c - b1) * Deque.chunk_size + o - b2 + 1) by lia.
      symmetry. apply lookup_shift.
      rewrite Hcb, Hce' in Hin'. clear Hcb Hce'.
      repeat case_decide; zlia.
Qed.
End DequePush.

(** * The deque: removing at the ends *)

Section DequePop.
Context {T : Type} {destructor : Deque.Destructor T}.
Implicit Types (d : Deque.t (T := T)) (ch : Deque.Chunk (T := T)).
Implicit Types (xs : list T) (chunks : list (Deque.Chunk (T := T))).
Implicit Types (slots : list (option T)).
Local Open Scope Z_scope.

Local Ltac zlia :=
  unfold Deque.chunk_size, Deque.init_size, Deque.to_size_t,
    Deque.to_int64, Deque.to_int in *;
  Z.to_euclidean_division_equations; lia.

Local Ltac fields :=
  cbn [Deque.data_ Deque.begin_ Deque.end_ Deque.set_data_ Deque.set_end
       Deque.set_begin Deque.chunk_begin Deque.chunk_end Deque.data
       Deque.set_bounds Deque.set_data fst snd] in *.

Lemma chunk_pop_back_Some ch slots x :
  Deque.data ch = Some slots → 0 ≤ Deque.chunk_end ch - 1 →
  slots !! Z.to_nat (Deque.chunk_end ch - 1) = Some (Some x) →
  Deque.chunk_pop_back ch
  = Some {| Deque.chunk_begin := Deque.chunk_begin ch;
            Deque.chunk_end := Deque.chunk_end ch - 1;
            Deque.data :=
              Some (<[Z.to_nat (Deque.chunk_end ch - 1) := None]> slots) |}.
Proof.
  intros Hdata ? Hslot. unfold Deque.chunk_pop_back, Deque.destroy. fields.
  rewrite Hdata. cbn [mbind option_bind].
  rewrite decide_True by done. by rewrite Hslot.
Qed.

Lemma chunk_pop_front_Some ch slots x :
  Deque.data ch = Some slots → 0 ≤ Deque.chunk_begin ch →
  slots !! Z.to_nat (Deque.chunk_begin ch) = Some (Some x) →
  Deque.chunk_pop_front ch
  = Some {| Deque.chunk_begin := Deque.chunk_begin ch + 1;
            Deque.chunk_end := Deque.chunk_end ch;
            Deque.data :=
              Some (<[Z.to_nat (Deque.chunk_begin ch) := None]> slots) |}.
Proof.
  intros Hdata ? Hslot. unfold Deque.chunk_pop_front, Deque.destroy.
  rewrite Hdata. cbn [mbind option_bind].
  rewrite decide_True by done. by rewrite Hslot.
Qed.

(** An array whose slots are all raw memory. *)
Lemma slots_blank slots :
  length slots = Z.to_nat Deque.chunk_size →
  (∀ o, 0 ≤ o < Deque.chunk_size → slots !! Z.to_nat o = Some None) →
  slots = replicate (Z.to_nat Deque.chunk_size) None.
Proof.
  intros Hlen Hall. apply list_eq. intros i.
  destruct (decide (i < Z.to_nat Deque.chunk_size)%nat) as [Hi|Hi].
  - rewrite lookup_replicate_2 by done.
    rewrite <-(Nat2Z.id i). apply Hall. lia.
  - rewrite !lookup_ge_None_2; [done|rewrite length_replicate; lia|lia].
Qed.

Lemma Forall_idle_chunk_at chunks :
  (∀ c ch, Deque.chunk_at c chunks = Some ch → Deque.idle ch) →
  Forall Deque.idle chunks.
Proof.
  intros Hall. apply Forall_lookup. intros i ch Hi.
  apply (Hall (Z.of_nat i)). apply chunk_at_Some. split; [lia|].
  by rewrite Nat2Z.id.
Qed.

Lemma Forall_idle_lookup chunks c ch :
  Forall Deque.idle chunks → Deque.chunk_at c chunks = Some ch →
  Deque.idle ch.
Proof.
  intros Hall [_ Hc]%chunk_at_Some. by eapply Forall_lookup_1.
Qed.

(** The state of the last chunk in use and what [pop_back] makes of
    it. *)
Lemma pop_back_holds d xs x :
  Deque.holds d (xs ++ [x]) → Z.of_nat (length xs) < 2 ^ 62 →
  xs ≠ [] ∨ (Deque.end_ d).2 ≠ 0 →
  ∃ d', Deque.pop_back d = Some d' ∧ Deque.holds d' xs ∧
        Deque.begin_ d' = Deque.begin_ d ∧
        length (Deque.data_ d') = length (Deque.data_ d).
Proof.
  intros Hd Hn Hcase.
  apply holds_nonempty in Hd; [|by destruct xs].
  destruct Hd as (Hb1 & Hb2 & He1 & He2 & Hlen & Hchunks).
  rewrite length_app in He1, He2. simpl in He1, He2.
  set (n := Z.of_nat (length xs)) in *.
  replace (Z.of_nat (length xs + 1)) with (n + 1) in He1, He2 by lia.
  assert (0 ≤ n) by lia.
  destruct d as [chunks [b1 b2] [e1 e2]]. fields.
  assert (b1 ≤ e1) by zlia.
  assert (0 ≤ e2 < 32) by zlia.
  destruct (chunk_at_is_Some e1 chunks) as [ch1 Hch1]; [lia|].
  pose proof (Hchunks _ _ Hch1) as Hlast.
  rewrite decide_True in Hlast by lia. unfold Deque.in_use in Hlast.
  fields.
  destruct Hlast as (Hcb1 & Hce1 & slots1 & Hdata1 & Hlens1 & Hslots1).
  rewrite decide_True in Hce1 by done.
  assert (Deque.chunk_begin ch1 ≤ e2) as Hcb1'.
  { rewrite Hcb1. case_decide; zlia. }
  assert (slots1 !! Z.to_nat (Deque.chunk_end ch1 - 1) = Some (Some x))
    as Hslot.
  { rewrite Hce1. replace (e2 + 1 - 1) with e2 by lia.
    rewrite (Hslots1 e2) by done. rewrite decide_True by lia. f_equal.
    rewrite lookup_app_r by zlia.
    replace (Z.to_nat ((e1 - b1) * Deque.chunk_size + e2 - b2)
             - length xs)%nat with 0%nat by zlia.
    done. }
  unfold Deque.pop_back. fields.
  erewrite with_chunk_Some;
    [|exact Hch1|by eapply chunk_pop_back_Some; [|lia|]].
  cbn [mbind option_bind]. fields. rewrite Hce1.
  replace (e2 + 1 - 1) with e2 by lia.
  assert (∀ o, 0 ≤ o < Deque.chunk_size →
            <[Z.to_nat e2 := None]> slots1 !! Z.to_nat o
            = Some (if decide (Deque.chunk_begin ch1 ≤ o < e2)
                    then xs !! Z.to_nat ((e1 - b1) * Deque.chunk_size
                                         + o - b2)
                    else None)) as Hslots'.
  { intros o Ho.
    rewrite slots_insert by (unfold Deque.chunk_size in *; lia).
    destruct (decide (o = e2)) as [->|?].
    { by rewrite decide_False by lia. }
    rewrite (Hslots1 o Ho), Hce1.
    destruct (decide (Deque.chunk_begin ch1 ≤ o < e2)).
    - rewrite decide_True by lia. f_equal. apply lookup_app_l.
      rewrite Hcb1 in *. case_decide; zlia.
    - by rewrite decide_False by lia. }
  assert (∀ c ch, c ≠ e1 → b1 ≤ c ≤ e1 →
            Deque.in_use (b1, b2) (e1, e2) (xs ++ [x]) c ch →
            ∀ e', (c = e'.1 → e'.2 + 1 = Deque.chunk_size) →
                  Deque.in_use (b1, b2) e' xs c ch) as Hother.
  { intros c ch Hne Hin Huse e' He'. unfold Deque.in_use in *. fields.
    destruct Huse as (Hcb & Hce' & slots & Hdata & Hlens & Hslots).
    rewrite decide_False in Hce' by done.
    split_and!; [done|..].
    { rewrite Hce'. destruct (decide (c = e'.1)) as [Heq|]; [|done].
      symmetry. by apply He'. }
    exists slots. split_and!; [done..|].
    intros o Ho. rewrite (Hslots o Ho).
    destruct (decide (_ ≤ o < _)) as [Hin'|]; [|done].
    f_equal. apply lookup_app_l.
    rewrite Hcb, Hce' in Hin'. clear Hcb Hce'.
    repeat case_decide; zlia. }
  destruct (decide (e2 = 0)) as [He0|He0].
  - (* the chunk of the last element empties *)
    assert (xs ≠ []) as Hne by (by destruct Hcase).
    assert (1 ≤ n) by (destruct xs; [done|]; unfold n; simpl; lia).
    eexists. split; [reflexivity|]. split; [|split; [done|]].
    2:{ fields. by rewrite length_insert. }
    apply holds_nonempty; [done|]. unfold Deque.holds_elements.
    fields. fold n. rewrite length_insert.
    split_and!; [done|lia|lia|zlia|zlia|lia|].
    intros c ch Hc.
    destruct (decide (c = e1)) as [->|Hce].
    + rewrite chunk_at_insert in Hc by lia.
      apply (inj Some) in Hc; subst ch.
      rewrite decide_False by lia. split; fields.
      { rewrite Hcb1. rewrite decide_False by zlia. lia. }
      intros slots [= <-]. apply slots_blank.
      { by rewrite length_insert. }
      intros o Ho. rewrite (Hslots' o Ho).
      by rewrite decide_False by lia.
    + rewrite chunk_at_insert_ne in Hc by lia.
      specialize (Hchunks c ch Hc).
      destruct (decide (b1 ≤ c ≤ e1)) as [Hin|Hout].
      { rewrite decide_True by lia.
        apply (Hother c ch); [done..|]. fields.
        unfold Deque.chunk_size. lia. }
      by rewrite decide_False by lia.
  - eexists. split; [reflexivity|]. split; [|split; [done|]].
    2:{ fields. by rewrite length_insert. }
    destruct (decide (xs = [])) as [->|Hne].
    + (* the last element leaves *)
      assert (n = 0) as Hn0 by done.
      split.
      * unfold Deque.size. fields. clear Hchunks Hother Hslots' Hslots1.
        destruct (decide (_ < _)); zlia.
      * fields. apply Forall_idle_chunk_at. intros c ch Hc.
        destruct (decide (c = e1)) as [->|Hce].
        { rewrite chunk_at_insert in Hc by lia.
          apply (inj Some) in Hc; subst ch. split; fields.
          { rewrite Hcb1. rewrite decide_True by zlia. zlia. }
          intros slots [= <-]. apply slots_blank.
          { by rewrite length_insert. }
          intros o Ho. rewrite (Hslots' o Ho).
          rewrite decide_False; [done|]. rewrite Hcb1.
          rewrite decide_True by zlia. zlia. }
        rewrite chunk_at_insert_ne in Hc by lia.
        specialize (Hchunks c ch Hc).
        rewrite decide_False in Hchunks by zlia. done.
    + assert (1 ≤ n) by (destruct xs; [done|]; unfold n; simpl; lia).
      apply holds_nonempty; [done|]. unfold Deque.holds_elements.
      fields. fold n. rewrite length_insert.
      split_and!; [done|lia|lia|zlia|zlia|lia|].
      intros c ch Hc.
      destruct (decide (c = e1)) as [->|Hce].
      * rewrite chunk_at_insert in Hc by lia.
        apply (inj Some) in Hc; subst ch.
        rewrite decide_True by lia. unfold Deque.in_use. fields.
        rewrite (decide_True (P := e1 = e1)) by done.
        split_and!; [done|lia|].
        eexists. split; [done|]. split; [by rewrite length_insert|].
        intros o Ho. rewrite (Hslots' o Ho).
        replace (e2 - 1 + 1) with e2 by lia. done.
      * rewrite chunk_at_insert_ne in Hc by lia.
        specialize (Hchunks c ch Hc).
        destruct (decide (b1 ≤ c ≤ e1)) as [Hin|Hout]; [|done].
        apply (Hother c ch); [done..|]. fields. intros ->. done.
Qed.
(** The state of the first chunk in use and what [pop_front] makes of
    it. *)
Lemma pop_front_holds d xs x :
  Deque.holds d (x :: xs) → Z.of_nat (length xs) < 2 ^ 62 →
  xs ≠ [] ∨ (Deque.begin_ d).2 ≠ Deque.chunk_size - 1 →
  ∃ d', Deque.pop_front d = Some d' ∧ Deque.holds d' xs ∧
        Deque.end_ d' = Deque.end_ d ∧
        length (Deque.data_ d') = length (Deque.data_ d).
Proof.
  intros Hd Hn Hcase.
  apply holds_nonempty in Hd; [|done].
  destruct Hd as (Hb1 & Hb2 & He1 & He2 & Hlen & Hchunks).
  simpl length in He1, He2.
  set (n := Z.of_nat (length xs)) in *.
  replace (Z.of_nat (S (length xs))) with (n + 1) in He1, He2 by lia.
  assert (0 ≤ n) by lia.
  destruct d as [chunks [b1 b2] [e1 e2]]. fields.
  assert (b1 ≤ e1) by zlia.
  assert (0 ≤ e2 < 32) by zlia.
  destruct (chunk_at_is_Some b1 chunks) as [ch1 Hch1]; [lia|].
  pose proof (Hchunks _ _ Hch1) as Hfirst.
  rewrite decide_True in Hfirst by lia. unfold Deque.in_use in Hfirst.
  fields.
  destruct Hfirst as (Hcb1 & Hce1 & slots1 & Hdata1 & Hlens1 & Hslots1).
  rewrite decide_True in Hcb1 by done.
  assert (b2 < Deque.chunk_end ch1) as Hce1'.
  { rewrite Hce1. case_decide; zlia. }
  assert (slots1 !! Z.to_nat (Deque.chunk_begin ch1) = Some (Some x))
    as Hslot.
  { rewrite Hcb1. rewrite (Hslots1 b2) by done.
    rewrite decide_True by lia. f_equal.
    by replace (Z.to_nat ((b1 - b1) * Deque.chunk_size + b2 - b2))
      with 0%nat by lia. }
  unfold Deque.pop_front. fields.
  erewrite with_chunk_Some;
    [|exact Hch1|by eapply chunk_pop_front_Some; [|lia|]].
  cbn [mbind option_bind]. fields. rewrite Hcb1.
  assert (∀ o, 0 ≤ o < Deque.chunk_size →
            <[Z.to_nat b2 := None]> slots1 !! Z.to_nat o
            = Some (if decide (b2 + 1 ≤ o < Deque.chunk_end ch1)
                    then xs !! Z.to_nat ((b1 - b1) * Deque.chunk_size
                                         + o - (b2 + 1))
                    else None)) as Hslots'.
  { intros o Ho.
    rewrite slots_insert by (unfold Deque.chunk_size in *; lia).
    destruct (decide (o = b2)) as [->|?].
    { by rewrite decide_False by lia. }
    rewrite (Hslots1 o Ho), Hcb1.
    destruct (decide (b2 + 1 ≤ o < Deque.chunk_end ch1)).
    - rewrite decide_True by lia. f_equal.
      replace ((b1 - b1) * Deque.chunk_size + o - b2)
        with ((b1 - b1) * Deque.chunk_size + o - (b2 + 1) + 1) by lia.
      apply lookup_shift. lia.
    - by rewrite decide_False by lia. }
  assert (∀ c ch, c ≠ b1 → b1 ≤ c ≤ e1 →
            Deque.in_use (b1, b2) (e1, e2) (x :: xs) c ch →
            ∀ b', (c = b'.1 → b'.2 = 0) →
                  b'.1 * Deque.chunk_size + b'.2
                  = b1 * Deque.chunk_size + b2 + 1 →
                  Deque.in_use b' (e1, e2) xs c ch) as Hother.
  { intros c ch Hne Hin Huse b' Hb' Hpos. unfold Deque.in_use in *. fields.
    destruct Huse as (Hcb & Hce' & slots & Hdata & Hlens & Hslots).
    rewrite decide_False in Hcb by done.
    split_and!; [|done|].
    { rewrite Hcb. destruct (decide (c = b'.1)) as [Heq|]; [|done].
      symmetry. by apply Hb'. }
    exists slots. split_and!; [done..|].
    intros o Ho. rewrite (Hslots o Ho).
    destruct (decide (_ ≤ o < _)) as [Hin'|]; [|done].
    f_equal.
    replace ((c - b1) * Deque.chunk_size + o - b2)
      with ((c - b'.1) * Deque.chunk_size + o - b'.2 + 1) by lia.
    apply lookup_shift.
    rewrite Hcb, Hce' in Hin'. clear Hcb Hce'.
    repeat case_decide; zlia. }
  destruct (decide (b2 = Deque.chunk_size - 1)) as [Hb0|Hb0].
  - (* the chunk of the first element empties *)
    assert (xs ≠ []) as Hne by (by destruct Hcase).
    assert (1 ≤ n) by (destruct xs; [done|]; unfold n; simpl; lia).
    eexists. split; [reflexivity|]. split; [|split; [done|]].
    2:{ fields. by rewrite length_insert. }
    apply holds_nonempty; [done|]. unfold Deque.holds_elements.
    fields. fold n. rewrite length_insert.
    split_and!; [lia|lia|unfold Deque.chunk_size; lia|zlia|zlia|lia|].
    intros c ch Hc.
    destruct (decide (c = b1)) as [->|Hce].
    + rewrite chunk_at_insert in Hc by lia.
      apply (inj Some) in Hc; subst ch.
      rewrite decide_False by lia. split; fields.
      { rewrite Hce1. rewrite decide_False by zlia.
        unfold Deque.chunk_size in *. lia. }
      intros slots [= <-]. apply slots_blank.
      { by rewrite length_insert. }
      intros o Ho. rewrite (Hslots' o Ho).
      rewrite decide_False; [done|]. rewrite Hce1.
      rewrite decide_False by zlia. unfold Deque.chunk_size in *. lia.
    + rewrite chunk_at_insert_ne in Hc by lia.
      specialize (Hchunks c ch Hc).
      destruct (decide (b1 ≤ c ≤ e1)) as [Hin|Hout].
      { rewrite decide_True by lia.
        apply (Hother c ch); [done..| |]; fields; [done|].
        unfold Deque.chunk_size in *. lia. }
      by rewrite decide_False by lia.
  - eexists. split; [reflexivity|]. split; [|split; [done|]].
    2:{ fields. by rewrite length_insert. }
    destruct (decide (xs = [])) as [->|Hne].
    + (* the last element leaves *)
      assert (n = 0) as Hn0 by done.
      split.
      * unfold Deque.size. fields. clear Hchunks Hother Hslots' Hslots1.
        destruct (decide (_ < _)); zlia.
      * fields. apply Forall_idle_chunk_at. intros c ch Hc.
        destruct (decide (c = b1)) as [->|Hce].
        { rewrite chunk_at_insert in Hc by lia.
          apply (inj Some) in Hc; subst ch. split; fields.
          { rewrite Hce1. rewrite decide_True by zlia. zlia. }
          intros slots [= <-]. apply slots_blank.
          { by rewrite length_insert. }
          intros o Ho. rewrite (Hslots' o Ho).
          rewrite decide_False; [done|]. rewrite Hce1.
          rewrite decide_True by zlia. zlia. }
        rewrite chunk_at_insert_ne in Hc by lia.
        specialize (Hchunks c ch Hc).
        rewrite decide_False in Hchunks by zlia. done.
    + assert (1 ≤ n) by (destruct xs; [done|]; unfold n; simpl; lia).
      apply holds_nonempty; [done|]. unfold Deque.holds_elements.
      fields. fold n. rewrite length_insert.
      split_and!; [done|lia|unfold Deque.chunk_size in *; lia
                   |zlia|zlia|lia|].
      intros c ch Hc.
      destruct (decide (c = b1)) as [->|Hce].
      * rewrite chunk_at_insert in Hc by lia.
        apply (inj Some) in Hc; subst ch.
        rewrite decide_True by lia. unfold Deque.in_use. fields.
        rewrite (decide_True (P := b1 = b1)) by done.
        split_and!; [done|done|].
        eexists. split; [done|]. split; [by rewrite length_insert|].
        intros o Ho. by rewrite (Hslots' o Ho).
      * rewrite chunk_at_insert_ne in Hc by lia.
        specialize (Hchunks c ch Hc).
        destruct (decide (b1 ≤ c ≤ e1)) as [Hin|Hout]; [|done].
        apply (Hother c ch); [done..| |]; fields; [by intros ->|lia].
Qed.

(** ** Removing the only element at the edge of its chunk *)

Lemma pop_back_edge d x :
  Deque.holds d [x] → (Deque.end_ d).2 = 0 →
  ∃ d', Deque.pop_back d = Some d' ∧
        Deque.begin_ d' = Deque.begin_ d ∧
        Deque.end_ d' = ((Deque.end_ d).1 - 1, Deque.chunk_size - 1) ∧
        Deque.size d' = Deque.chunk_size.
Proof.
  intros Hd He0.
  destruct Hd as (Hb1 & Hb2 & He1 & He2 & Hlen & Hchunks).
  simpl length in He1, He2.
  destruct d as [chunks [b1 b2] [e1 e2]]. fields.
  assert (b2 = 0 ∧ e1 = b1) as [-> Heq] by zlia.
  clear He1 He2. subst e1 e2.
  destruct (chunk_at_is_Some b1 chunks) as [ch1 Hch1]; [lia|].
  pose proof (Hchunks _ _ Hch1) as Hlast.
  rewrite decide_True in Hlast by lia. unfold Deque.in_use in Hlast.
  fields.
  destruct Hlast as (Hcb1 & Hce1 & slots1 & Hdata1 & Hlens1 & Hslots1).
  rewrite decide_True in Hcb1, Hce1 by done.
  assert (slots1 !! Z.to_nat (Deque.chunk_end ch1 - 1) = Some (Some x))
    as Hslot.
  { rewrite Hce1. change (0 + 1 - 1) with 0.
    rewrite (Hslots1 0) by (unfold Deque.chunk_size; lia).
    rewrite decide_True by (rewrite Hcb1, Hce1; lia). f_equal.
    by replace (Z.to_nat ((b1 - b1) * Deque.chunk_size + 0 - 0))
      with 0%nat by lia. }
  unfold Deque.pop_back. fields.
  erewrite with_chunk_Some;
    [|exact Hch1|by eapply chunk_pop_back_Some; [|lia|]].
  cbn [mbind option_bind]. fields. rewrite decide_True by done.
  eexists. split; [reflexivity|]. split_and!; [done..|].
  unfold Deque.size. fields. rewrite decide_False by lia.
  unfold Deque.to_size_t, Deque.chunk_size. done.
Qed.

Lemma pop_front_edge d x :
  Deque.holds d [x] → (Deque.begin_ d).2 = Deque.chunk_size - 1 →
  ∃ d', Deque.pop_front d = Some d' ∧
        Deque.begin_ d' = ((Deque.begin_ d).1 + 1, 0) ∧
        Deque.end_ d' = Deque.end_ d ∧
        Deque.size d' = Deque.chunk_size.
Proof.
  intros Hd He0.
  destruct Hd as (Hb1 & Hb2 & He1 & He2 & Hlen & Hchunks).
  simpl length in He1, He2.
  destruct d as [chunks [b1 b2] [e1 e2]]. fields.
  assert (e2 = 31 ∧ e1 = b1) as [-> Heq] by zlia.
  clear He1 He2. subst e1 b2.
  destruct (chunk_at_is_Some b1 chunks) as [ch1 Hch1]; [lia|].
  pose proof (Hchunks _ _ Hch1) as Hlast.
  rewrite decide_True in Hlast by lia. unfold Deque.in_use in Hlast.
  fields.
  destruct Hlast as (Hcb1 & Hce1 & slots1 & Hdata1 & Hlens1 & Hslots1).
  rewrite decide_True in Hcb1, Hce1 by done.
  assert (slots1 !! Z.to_nat (Deque.chunk_begin ch1) = Some (Some x))
    as Hslot.
  { rewrite Hcb1.
    rewrite (Hslots1 (Deque.chunk_size - 1))
      by (unfold Deque.chunk_size; lia).
    rewrite decide_True
      by (rewrite Hcb1, Hce1; unfold Deque.chunk_size; lia). f_equal.
    by replace (Z.to_nat ((b1 - b1) * Deque.chunk_size
                          + (Deque.chunk_size - 1)
                          - (Deque.chunk_size - 1)))
      with 0%nat by lia. }
  unfold Deque.pop_front. fields.
  erewrite with_chunk_Some;
    [|exact Hch1
     |by eapply chunk_pop_front_Some;
        [|unfold Deque.chunk_size in *; lia|]].
  cbn [mbind option_bind]. fields. rewrite decide_True by done.
  eexists. split; [reflexivity|]. split_and!; [done..|].
  unfold Deque.size. fields. rewrite decide_False by lia.
  unfold Deque.to_size_t, Deque.chunk_size. done.
Qed.
End DequePop.

(** * The deque: destruction, growth and a copy that throws *)

Section DequeEdges.
Context {T : Type} {destructor : Deque.Destructor T}.
Implicit Types (d : Deque.t (T := T)) (ch : Deque.Chunk (T := T)).
Implicit Types (xs : list T) (chunks : list (Deque.Chunk (T := T))).
Implicit Types (slots : list (option T)).
Local Open Scope Z_scope.

Local Ltac zlia :=
  unfold Deque.chunk_size, Deque.init_size, Deque.to_size_t,
    Deque.to_int64, Deque.to_int in *;
  Z.to_euclidean_division_equations; lia.

Local Ltac fields :=
  cbn [Deque.data_ Deque.begin_ Deque.end_ Deque.set_data_ Deque.set_end
       Deque.set_begin Deque.chunk_begin Deque.chunk_end Deque.data
       Deque.set_bounds Deque.set_data fst snd] in *.

(** ** Destroying chunks *)

Lemma pop_all_live n ch slots :
  Deque.data ch = Some slots →
  n = Z.to_nat (Deque.chunk_end ch - Deque.chunk_begin ch) →
  0 ≤ Deque.chunk_begin ch →
  (∀ o, Deque.chunk_begin ch ≤ o < Deque.chunk_end ch →
        ∃ x, slots !! Z.to_nat o = Some (Some x)) →
  is_Some (Deque.pop_all n ch).
Proof.
  revert ch slots. induction n as [|n IH]; intros ch slots Hdata Hn Hcb Hlive;
    [done|].
  cbn [Deque.pop_all].
  destruct (Hlive (Deque.chunk_end ch - 1)) as [x Hx]; [lia|].
  erewrite chunk_pop_back_Some; [|done|lia|done].
  cbn [mbind option_bind]. eapply IH; fields; [done|lia|done|].
  intros o Ho. destruct (Hlive o) as [y Hy]; [lia|]. exists y.
  rewrite list_lookup_insert_ne by lia. done.
Qed.

Lemma chunk_clear_idle ch : Deque.idle ch → Deque.chunk_clear ch = Some Deque.new_chunk.
Proof.
  intros [Hle _]. unfold Deque.chunk_clear.
  by replace (Z.to_nat (Deque.chunk_end ch - Deque.chunk_begin ch))
    with 0%nat by lia.
Qed.

Lemma chunk_clear_in_use b e xs c ch :
  0 ≤ b.2 → Deque.in_use b e xs c ch →
  (∀ o, Deque.chunk_begin ch ≤ o < Deque.chunk_end ch →
        0 ≤ o < Deque.chunk_size
        ∧ (Z.to_nat ((c - b.1) * Deque.chunk_size + o - b.2)
           < length xs)%nat) →
  Deque.chunk_clear ch = Some Deque.new_chunk.
Proof.
  intros Hb (Hcb & Hce & slots & Hdata & Hlen & Hslots) Hrange.
  unfold Deque.chunk_clear.
  destruct (pop_all_live
              (Z.to_nat (Deque.chunk_end ch - Deque.chunk_begin ch))
              ch slots Hdata eq_refl) as [ch' ->]; [| |done].
  - rewrite Hcb. destruct (decide (c = b.1)); lia.
  - intros o Ho. destruct (Hrange o Ho) as [Ho' Hidx].
    rewrite (Hslots o Ho'). rewrite decide_True by done.
    destruct (lookup_lt_is_Some_2 _ _ Hidx) as [x ->]. by exists x.
Qed.

Lemma destroy_all_Some chunks :
  Forall (λ ch, Deque.chunk_clear ch = Some Deque.new_chunk) chunks →
  Deque.destroy_all chunks = Some ().
Proof.
  induction 1 as [|ch chunks Hch _ IH]; [done|].
  cbn [Deque.destroy_all]. by rewrite Hch.
Qed.

Lemma destroy_all_None chunks i ch :
  chunks !! i = Some ch → Deque.chunk_clear ch = None →
  Deque.destroy_all chunks = None.
Proof.
  revert i. induction chunks as [|ch0 chunks IH]; intros [|i] Hi Hch;
    simplify_eq/=.
  - by rewrite Hch.
  - destruct (Deque.chunk_clear ch0); [|done]. simpl. by eapply IH.
Qed.

Lemma holds_clearable d xs :
  Deque.holds d xs → Z.of_nat (length xs) < 2 ^ 62 →
  Forall (λ ch, Deque.chunk_clear ch = Some Deque.new_chunk)
    (Deque.data_ d).
Proof.
  intros Hd Hn. destruct (decide (xs = [])) as [->|Hne].
  { destruct Hd as [_ Hidle]. eapply Forall_impl; [done|].
    apply chunk_clear_idle. }
  apply holds_nonempty in Hd; [|done].
  set (n := Z.of_nat (length xs)) in *.
  assert (1 ≤ n) by (destruct xs; [done|]; unfold n; simpl; lia).
  destruct Hd as (Hb1 & Hb2 & He1 & He2 & Hlen & Hchunks).
  fold n in He1, He2.
  apply Forall_lookup. intros i ch Hi.
  assert (Deque.chunk_at (Z.of_nat i) (Deque.data_ d) = Some ch) as Hc.
  { apply chunk_at_Some. split; [lia|]. by rewrite Nat2Z.id. }
  specialize (Hchunks (Z.of_nat i) ch Hc).
  destruct (Deque.begin_ d) as [b1 b2], (Deque.end_ d) as [e1 e2].
  fields.
  destruct (decide (b1 ≤ Z.of_nat i ≤ e1)) as [Hin|Hout].
  - eapply (chunk_clear_in_use (b1, b2) (e1, e2)); [fields; lia|done|].
    destruct Hchunks as (Hcb & Hce & _).
    fields. intros o Ho. rewrite Hcb, Hce in Ho. clear Hcb Hce.
    repeat case_decide; zlia.
  - by apply chunk_clear_idle.
Qed.

(** [clear()] on a deque that holds its elements. *)
Lemma clear_holds d xs :
  Deque.holds d xs → Z.of_nat (length xs) < 2 ^ 62 →
  Deque.clear d = Some Deque.construct.
Proof.
  intros Hd Hn. unfold Deque.clear.
  by rewrite destroy_all_Some by (by eapply holds_clearable).
Qed.

Lemma holds_construct : Deque.holds (T := T) Deque.construct [].
Proof. split; [done|]. constructor. Qed.

(** ** Growth *)

(** The destructor of a chunk that [take] has left with its bounds and
    without its array. *)
Lemma chunk_clear_taken ch :
  Deque.trivially_destructible (T := T) = false →
  Deque.chunk_begin ch < Deque.chunk_end ch →
  Deque.chunk_clear (Deque.set_data ch None) = None.
Proof.
  intros Htd Hlt. unfold Deque.chunk_clear. fields.
  destruct (Z.to_nat (Deque.chunk_end ch - Deque.chunk_begin ch))
    as [|n] eqn:Hn; [lia|].
  cbn [Deque.pop_all]. unfold Deque.chunk_pop_back, Deque.destroy.
  fields. unfold Deque.destroy_nothing. by rewrite Htd.
Qed.

Lemma pop_all_nothing n ch :
  Deque.trivially_destructible (T := T) = true →
  Deque.data ch = None → is_Some (Deque.pop_all n ch).
Proof.
  intros Htd. revert ch. induction n as [|n IH]; intros ch Hdata; [done|].
  cbn [Deque.pop_all]. unfold Deque.chunk_pop_back, Deque.destroy.
  fields. rewrite Hdata. unfold Deque.destroy_nothing. rewrite Htd.
  cbn [mbind option_bind]. by apply IH.
Qed.

Lemma chunk_clear_nothing ch :
  Deque.trivially_destructible (T := T) = true →
  Deque.data ch = None → Deque.chunk_clear ch = Some Deque.new_chunk.
Proof.
  intros Htd Hdata. unfold Deque.chunk_clear.
  by destruct (pop_all_nothing
                 (Z.to_nat (Deque.chunk_end ch - Deque.chunk_begin ch))
                 ch Htd Hdata) as [ch' ->].
Qed.

Lemma take_at_old i j (s s' : list (Deque.Chunk (T := T)) * list Deque.Chunk) :
  Deque.take_at i j s = Some s' →
  (∀ k, k ≠ j → Deque.chunk_at k s'.2 = Deque.chunk_at k s.2) ∧
  ∃ ch, Deque.chunk_at j s.2 = Some ch ∧
        Deque.chunk_at j s'.2 = Some (Deque.set_data ch None).
Proof.
  unfold Deque.take_at, Deque.chunk_take.
  destruct (Deque.chunk_at i s.1) as [this|]; [|done].
  destruct (Deque.chunk_at j s.2) as [ch|] eqn:Hj; [|done].
  cbn [mbind option_bind].
  destruct (Deque.chunk_clear this); [|done]. cbn [mbind option_bind].
  intros [= <-]. fields.
  pose proof (chunk_at_lt _ _ _ Hj) as Hlt. split.
  - intros k Hk. by apply chunk_at_insert_ne; [lia|].
  - exists ch. split; [done|]. by apply chunk_at_insert.
Qed.

Lemma take_loop_old n i e1' e1 k
    (s s' : list (Deque.Chunk (T := T)) * list Deque.Chunk) :
  Deque.take_loop n i e1' e1 s = Some s' → e1 - i < k →
  Deque.chunk_at k s'.2 = Deque.chunk_at k s.2.
Proof.
  revert i s. induction n as [|n IH]; intros i s; cbn [Deque.take_loop].
  { by intros [= <-]. }
  destruct (Deque.take_at (e1' - i) (e1 - i) s) as [s1|] eqn:Htake;
    [|done].
  cbn [mbind option_bind]. intros Hloop Hk.
  rewrite (IH _ _ Hloop) by lia.
  destruct (take_at_old _ _ _ _ Htake) as [Hne _]. apply Hne. lia.
Qed.

(** [resize] on a deque with an element: the chunk of the last
    element, left with its bounds and without its array by [take], is
    destroyed through the null pointer. *)
Lemma resize_undefined d xs size_ :
  Deque.trivially_destructible (T := T) = false →
  Deque.holds d xs → xs ≠ [] → Deque.resize size_ d = None.
Proof.
  intros Htd Hd Hne. apply holds_nonempty in Hd; [|done].
  set (n := Z.of_nat (length xs)) in *.
  assert (1 ≤ n) by (destruct xs; [done|]; unfold n; simpl; lia).
  destruct Hd as (Hb1 & Hb2 & He1 & He2 & Hlen & Hchunks).
  fold n in He1, He2.
  destruct d as [chunks [b1 b2] [e1 e2]]. fields.
  assert (b1 ≤ e1) by zlia.
  assert (0 ≤ e2 < 32) by zlia.
  destruct (chunk_at_is_Some e1 chunks) as [ch1 Hch1]; [lia|].
  pose proof (Hchunks _ _ Hch1) as Hlast.
  rewrite decide_True in Hlast by lia.
  destruct Hlast as (Hcb1 & Hce1 & _). fields.
  rewrite decide_True in Hce1 by done.
  assert (Deque.chunk_begin ch1 < Deque.chunk_end ch1) as Hlt.
  { rewrite Hcb1, Hce1. case_decide; zlia. }
  unfold Deque.resize. fields.
  destruct (decide (size_ < _)); [done|].
  match goal with
  | |- context [replicate ?k Deque.new_chunk] =>
      set (new_data := replicate k (Deque.new_chunk (T := T)))
  end.
  set (b1' := Z.of_nat (length new_data) / 4).
  assert (∀ s', (if decide (b1' + (e1 - b1) = b1')
                 then Deque.take_at b1' b1 (new_data, chunks)
                 else Deque.take_loop (Z.to_nat (e1 - b1 + 1)) 0
                        (b1' + (e1 - b1)) e1 (new_data, chunks))
                = Some s' →
                Deque.chunk_at e1 s'.2 = Some (Deque.set_data ch1 None))
    as Htaken.
  { intros s'. destruct (decide (b1' + (e1 - b1) = b1')) as [Heq|Hneq].
    - assert (b1 = e1) as -> by lia. intros Htake.
      destruct (take_at_old _ _ _ _ Htake) as [_ (ch & Hch & ->)].
      fields. congruence.
    - destruct (Z.to_nat (e1 - b1 + 1)) as [|m] eqn:Hm; [lia|].
      cbn [Deque.take_loop].
      destruct (Deque.take_at (b1' + (e1 - b1) - 0) (e1 - 0)
                  (new_data, chunks)) as [s1|] eqn:Htake; [|done].
      cbn [mbind option_bind]. intros Hloop.
      rewrite (take_loop_old _ _ _ _ e1 _ _ Hloop) by lia.
      destruct (take_at_old _ _ _ _ Htake) as [_ (ch & Hch & Hch')].
      fields. replace (e1 - 0) with e1 in * by lia. congruence. }
  match goal with
  | |- context [if decide ?P then ?a else ?b] =>
      destruct (if decide P then a else b) as [s'|] eqn:Hs; [|done]
  end.
  cbn [mbind option_bind].
  specialize (Htaken s' eq_refl). apply chunk_at_Some in Htaken as [_ Hs'].
  by rewrite (destroy_all_None _ _ _ Hs' (chunk_clear_taken _ Htd Hlt)).
Qed.

Lemma push_back_grow d xs c :
  Deque.trivially_destructible (T := T) = false →
  Deque.holds d xs → xs ≠ [] → Z.of_nat (length xs) < 2 ^ 62 →
  Deque.end_ d = (Z.of_nat (length (Deque.data_ d)) - 1,
                  Deque.chunk_size - 1) →
  Deque.push_back c d = Undefined.
Proof.
  intros Htd Hd Hne Hn Hcap.
  pose proof (holds_size d xs Hd ltac:(lia)) as Hsize.
  unfold Deque.push_back, Deque.empty.
  rewrite bool_decide_false by (destruct xs; [done|]; simpl in *; lia).
  rewrite decide_True by done.
  by rewrite (resize_undefined d xs).
Qed.

Lemma push_front_grow d xs c :
  Deque.trivially_destructible (T := T) = false →
  Deque.holds d xs → xs ≠ [] → Z.of_nat (length xs) < 2 ^ 62 →
  Deque.begin_ d = (0, 0) →
  Deque.push_front c d = Undefined.
Proof.
  intros Htd Hd Hne Hn Hcap.
  pose proof (holds_size d xs Hd ltac:(lia)) as Hsize.
  unfold Deque.push_front, Deque.empty.
  rewrite bool_decide_false by (destruct xs; [done|]; simpl in *; lia).
  rewrite decide_True by done.
  by rewrite (resize_undefined d xs).
Qed.
(** ** A copy that throws *)

(** What [operator[]] reads, from the chunks alone. *)
Lemma index_slot d i ch0 ch slots :
  Deque.size d ≠ 0 → 0 ≤ i < 2 ^ 31 →
  0 ≤ (Deque.begin_ d).2 < Deque.chunk_size →
  Deque.chunk_at (Deque.begin_ d).1 (Deque.data_ d) = Some ch0 →
  is_Some (Deque.data ch0) →
  Deque.chunk_begin ch0 = (Deque.begin_ d).2 →
  Deque.chunk_at ((Deque.begin_ d).1
                  + ((Deque.begin_ d).2 + i) / Deque.chunk_size)
    (Deque.data_ d) = Some ch →
  Deque.data ch = Some slots →
  Deque.index i d
  = mjoin (slots !! Z.to_nat (((Deque.begin_ d).2 + i)
                              mod Deque.chunk_size)).
Proof.
  intros Hsize Hi Hb2 Hch0 [slots0 Hdata0] Hcb0 Hch Hdata.
  unfold Deque.index, Deque.begin, Deque.empty.
  rewrite bool_decide_false by done.
  destruct (Deque.begin_ d) as [b1 b2]. fields.
  rewrite Hch0. cbn [mbind option_bind].
  unfold Deque.pointer. rewrite Hdata0, Hcb0.
  rewrite decide_True by (unfold Deque.chunk_size in *; lia).
  cbn [mbind option_bind].
  assert (Deque.to_int i = i) as -> by zlia.
  set (c := b1 + (b2 + i) / Deque.chunk_size) in *.
  set (o := (b2 + i) mod Deque.chunk_size).
  assert (0 ≤ o < 32) as Ho by (unfold o; zlia).
  assert (Deque.deref
            {| Deque.first_iter := c; Deque.second_iter := Some o |} d
          = mjoin (slots !! Z.to_nat o)) as Hderef.
  { unfold Deque.deref.
    cbn [Deque.first_iter Deque.second_iter mbind option_bind].
    rewrite Hch. cbn [mbind option_bind]. rewrite Hdata.
    cbn [mbind option_bind]. by rewrite decide_True by lia. }
  unfold Deque.iter_add. cbn [Deque.first_iter Deque.second_iter].
  destruct (decide (i = 0)) as [Hi0|Hi0].
  { cbn [mbind option_bind]. rewrite <-Hderef.
    assert (c = b1) as Hc0 by (unfold c; zlia).
    assert (o = b2) as Ho0 by (unfold o; zlia).
    by rewrite Hc0, Ho0. }
  set (s1 := if decide (0 < Z.rem i Deque.chunk_size
                        ∧ Deque.chunk_size
                          ≤ b2 + Z.rem i Deque.chunk_size)
             then (b1 + Z.quot i Deque.chunk_size + 1,
                   b2 + Z.rem i Deque.chunk_size - Deque.chunk_size)
             else (b1 + Z.quot i Deque.chunk_size,
                   b2 + Z.rem i Deque.chunk_size)).
  assert (s1 = (c, o)) as Hs1.
  { unfold s1, c, o. clear -Hb2 Hi Hi0.
    destruct (decide (_ ∧ _)); f_equal; zlia. }
  rewrite Hs1. cbn [fst snd].
  rewrite decide_False by zlia.
  cbn [fst snd]. rewrite Hch. cbn [mbind option_bind].
  unfold Deque.pointer at 1. rewrite Hdata.
  rewrite decide_True by (unfold Deque.chunk_size; lia).
  exact Hderef.
Qed.

(** [push_back] with a copy that throws, on a deque with an element
    and short of the end of the last chunk: [end_] has moved on. *)
Lemma push_back_throws d xs :
  Deque.holds d xs → xs ≠ [] → Z.of_nat (length xs) < 2 ^ 31 - 1 →
  Deque.end_ d ≠ (Z.of_nat (length (Deque.data_ d)) - 1,
                  Deque.chunk_size - 1) →
  ∃ d', Deque.push_back None d = Thrown d' ∧
        Deque.size d' = Z.of_nat (length xs) + 1 ∧
        (∀ i x, xs !! i = Some x → Deque.index (Z.of_nat i) d' = Some x) ∧
        Deque.index (Z.of_nat (length xs)) d' = None.
Proof.
  intros Hd Hne Hn Hcap.
  pose proof (holds_size d xs Hd ltac:(lia)) as Hsize.
  apply holds_nonempty in Hd; [|done].
  set (n := Z.of_nat (length xs)) in *.
  assert (1 ≤ n) by (destruct xs; [done|]; unfold n; simpl; lia).
  destruct Hd as (Hb1 & Hb2 & He1 & He2 & Hlen & Hchunks).
  fold n in He1, He2.
  unfold Deque.push_back, Deque.empty.
  rewrite bool_decide_false by lia. rewrite decide_False by done.
  clear Hsize.
  destruct d as [chunks [b1 b2] [e1 e2]]. fields.
  assert (b1 ≤ e1) by zlia.
  assert (0 ≤ e2 < 32) by zlia.
  destruct (chunk_at_is_Some b1 chunks) as [ch0 Hch0]; [lia|].
  pose proof (Hchunks _ _ Hch0) as Hfirst.
  rewrite decide_True in Hfirst by lia.
  destruct Hfirst as (Hcb0 & _ & slots0 & Hdata0 & _). fields.
  rewrite decide_True in Hcb0 by done.
  (* what a deque with these chunks, or with one more chunk
     initialised, gives for the old and for the new index *)
  assert (∀ d', Deque.begin_ d' = (b1, b2) → Deque.size d' = n + 1 →
            (∀ c, b1 ≤ c ≤ e1 →
                  Deque.chunk_at c (Deque.data_ d')
                  = Deque.chunk_at c chunks) →
            ∀ i x, xs !! i = Some x →
                   Deque.index (Z.of_nat i) d' = Some x) as Hold.
  { intros d' Hb' Hsize' Hsame i x Hi.
    pose proof (lookup_lt_Some _ _ _ Hi) as Hlt.
    set (c := b1 + (b2 + Z.of_nat i) / Deque.chunk_size).
    assert (b1 ≤ c ≤ e1) as Hc by (unfold c; zlia).
    destruct (chunk_at_is_Some c chunks) as [ch Hch]; [lia|].
    pose proof (Hchunks _ _ Hch) as Huse.
    rewrite decide_True in Huse by lia.
    destruct Huse as (Hcb & Hce & slots & Hdata & Hlens & Hslots). fields.
    rewrite (index_slot d' (Z.of_nat i) ch0 ch slots);
      rewrite ?Hb'; fields; rewrite ?Hsame by lia;
      [|lia|lia|done|done|by eexists|done|done|done].
    set (o := (b2 + Z.of_nat i) mod Deque.chunk_size).
    assert (0 ≤ o < Deque.chunk_size) as Ho by (unfold o; zlia).
    rewrite (Hslots o Ho).
    rewrite decide_True.
    2:{ rewrite Hcb, Hce. unfold c, o in *. clear Hcb Hce.
        repeat case_decide; zlia. }
    replace (Z.to_nat ((c - b1) * Deque.chunk_size + o - b2)) with i
      by (unfold c, o; zlia).
    by rewrite Hi. }
  destruct (decide (e2 + 1 = Deque.chunk_size)) as [Hfull|Hroom].
  - (* the copy was for the first slot of the next chunk *)
    assert (e1 + 1 < Z.of_nat (length chunks)) as Hnext.
    { destruct (decide (e1 = Z.of_nat (length chunks) - 1)) as [->|];
        [|lia]. destruct Hcap. f_equal. unfold Deque.chunk_size in *. lia. }
    destruct (chunk_at_is_Some (e1 + 1) chunks) as [ch1 Hch1]; [lia|].
    pose proof (Hchunks _ _ Hch1) as Hidle.
    rewrite decide_False in Hidle by lia.
    erewrite with_chunk_Some; [|exact Hch1|reflexivity].
    rewrite (idle_init 0 0 ch1 Hidle). fields.
    erewrite on_chunk_Thrown;
      [|fields; apply chunk_at_insert; lia|].
    2:{ unfold Deque.chunk_push_back, Deque.place. fields.
        rewrite decide_True by (unfold Deque.chunk_size; lia).
        reflexivity. }
    fields. rewrite list_insert_insert_eq.
    eexists. split; [reflexivity|]. split_and!.
    + unfold Deque.size. fields. clear Hchunks Hold.
      destruct (decide (_ < _)); zlia.
    + apply Hold; fields; [done| |].
      * unfold Deque.size. fields. clear Hchunks Hold.
        destruct (decide (_ < _)); zlia.
      * intros c Hc. apply chunk_at_insert_ne; lia.
    + set (blank := replicate (Z.to_nat Deque.chunk_size) (@None T)).
      match goal with
      | |- Deque.index _ ?d' = _ =>
          rewrite (index_slot d' n ch0
                     {| Deque.chunk_begin := 0; Deque.chunk_end := 0;
                        Deque.data := Some blank |} blank)
      end; fields.
      * replace ((b2 + n) mod Deque.chunk_size) with 0 by zlia.
        unfold blank.
        by rewrite lookup_blank by (unfold Deque.chunk_size; lia).
      * clear Hchunks Hold. unfold Deque.size. fields.
        destruct (decide (_ < _)); zlia.
      * lia.
      * lia.
      * by rewrite chunk_at_insert_ne by lia.
      * by eexists.
      * done.
      * replace (b1 + (b2 + n) / Deque.chunk_size) with (e1 + 1) by zlia.
        apply chunk_at_insert. lia.
      * done.
  - (* the copy was for the next slot of the last chunk *)
    destruct (chunk_at_is_Some e1 chunks) as [ch1 Hch1]; [lia|].
    pose proof (Hchunks _ _ Hch1) as Hlast.
    rewrite decide_True in Hlast by lia. unfold Deque.in_use in Hlast.
    fields.
    destruct Hlast as (Hcb1 & Hce1 & slots1 & Hdata1 & Hlens1 & Hslots1).
    rewrite decide_True in Hce1 by done.
    erewrite on_chunk_Thrown; [|exact Hch1|].
    2:{ unfold Deque.chunk_push_back, Deque.place. rewrite Hdata1, Hce1.
        rewrite decide_True by (unfold Deque.chunk_size in *; lia).
        reflexivity. }
    fields.
    assert (<[Z.to_nat e1 := ch1]> chunks = chunks) as ->.
    { apply list_insert_id. by apply chunk_at_Some in Hch1 as [_ ?]. }
    eexists. split; [reflexivity|]. split_and!.
    + unfold Deque.size. fields. clear Hchunks Hold Hslots1.
      destruct (decide (_ < _)); zlia.
    + apply Hold; fields; [done| |done].
      unfold Deque.size. fields. clear Hchunks Hold Hslots1.
      destruct (decide (_ < _)); zlia.
    + match goal with
      | |- Deque.index _ ?d' = _ =>
          rewrite (index_slot d' n ch0 ch1 slots1)
      end; fields.
      * replace ((b2 + n) mod Deque.chunk_size) with (e2 + 1) by zlia.
        rewrite (Hslots1 (e2 + 1)) by (unfold Deque.chunk_size in *; lia).
        by rewrite decide_False by lia.
      * clear Hchunks Hold Hslots1. unfold Deque.size. fields.
        destruct (decide (_ < _)); zlia.
      * lia.
      * lia.
      * done.
      * by eexists.
      * done.
      * by replace (b1 + (b2 + n) / Deque.chunk_size) with e1 by zlia.
      * done.
Qed.
End DequeEdges.

(** * The deque: construction *)

Section DequeInit.
Context {T : Type} {destructor : Deque.Destructor T}.
Implicit Types (d : Deque.t (T := T)) (ch : Deque.Chunk (T := T)).
Implicit Types (xs : list T) (chunks : list (Deque.Chunk (T := T))).
Implicit Types (slots : list (option T)) (v : T).
Local Open Scope Z_scope.

Local Ltac zlia :=
  unfold Deque.chunk_size, Deque.init_size, Deque.to_size_t,
    Deque.to_int64, Deque.to_int, Deque.ceil_divide in *;
  Z.to_euclidean_division_equations; lia.

Local Ltac fields :=
  cbn [Deque.data_ Deque.begin_ Deque.end_ Deque.set_data_ Deque.set_end
       Deque.set_begin Deque.chunk_begin Deque.chunk_end Deque.data
       Deque.set_bounds Deque.set_data fst snd] in *.

(** A chunk whose slots from [lo] to [hi] hold [v], the others being
    raw memory. *)
Local Abbreviation filled lo hi v ch :=
  (Deque.chunk_begin ch = lo%Z ∧ Deque.chunk_end ch = hi%Z ∧
   ∃ slots, Deque.data ch = Some slots ∧
            length slots = Z.to_nat Deque.chunk_size ∧
            ∀ o, 0 ≤ o < Deque.chunk_size →
                 slots !! Z.to_nat o
                 = Some (if decide (lo ≤ o < hi)%Z then Some v else None)).

Lemma idle_new_chunk : Deque.idle (T := T) Deque.new_chunk.
Proof. split; [done|]. by intros slots [=]. Qed.

Lemma vector_resize_idle chunks k :
  Forall Deque.idle chunks → 0 ≤ k →
  ∃ chunks', Deque.vector_resize k chunks = Some chunks' ∧
             length chunks' = Z.to_nat k ∧ Forall Deque.idle chunks'.
Proof.
  intros Hidle Hk. unfold Deque.vector_resize.
  destruct (decide (k ≤ Z.of_nat (length chunks))) as [Hle|Hgt].
  - rewrite destroy_all_Some.
    2:{ apply Forall_drop. eapply Forall_impl; [done|].
        apply chunk_clear_idle. }
    cbn [mbind option_bind]. eexists. split; [done|]. split.
    + rewrite length_take. lia.
    + by apply Forall_take.
  - eexists. split; [done|]. split.
    + rewrite length_app, length_replicate. lia.
    + apply Forall_app. split; [done|]. apply Forall_replicate.
      apply idle_new_chunk.
Qed.

Lemma fill_from_spec n i v ch slots :
  Deque.data ch = Some slots → length slots = Z.to_nat Deque.chunk_size →
  0 ≤ i → i + Z.of_nat n ≤ Deque.chunk_size →
  ∃ slots',
    Deque.fill_from n i (Some v) ch
    = Ret (Deque.set_data ch (Some slots')) () ∧
    length slots' = Z.to_nat Deque.chunk_size ∧
    ∀ o, 0 ≤ o < Deque.chunk_size →
         slots' !! Z.to_nat o
         = if decide (i ≤ o < i + Z.of_nat n) then Some (Some v)
           else slots !! Z.to_nat o.
Proof.
  revert i ch slots. induction n as [|n IH]; intros i ch slots Hdata Hlen Hi Hn.
  - exists slots. split_and!; [|done|].
    + cbn [Deque.fill_from]. destruct ch. fields. by subst.
    + intros o Ho. by rewrite decide_False by lia.
  - cbn [Deque.fill_from]. unfold Deque.place. rewrite Hdata.
    rewrite decide_True by lia.
    destruct (IH (i + 1)
                (Deque.set_data ch
                   (Some (<[Z.to_nat i := Some v]> slots)))
                (<[Z.to_nat i := Some v]> slots))
      as (slots' & Hrun & Hlen' & Hslots'); fields;
      [done|by rewrite length_insert|lia|lia|].
    exists slots'. split_and!; [by rewrite Hrun|done|].
    intros o Ho. rewrite (Hslots' o Ho).
    rewrite slots_insert by (unfold Deque.chunk_size in *; lia).
    repeat case_decide; try done; lia.
Qed.

Lemma chunk_fill_idle ch lo hi v :
  Deque.idle ch → 0 ≤ lo → lo ≤ hi → hi ≤ Deque.chunk_size →
  ∃ ch', Deque.chunk_fill (Some v) (Deque.chunk_init lo hi ch) = Ret ch' ()
         ∧ filled lo hi v ch'.
Proof.
  intros Hidle Hlo Hle Hhi. rewrite (idle_init lo hi ch Hidle).
  unfold Deque.chunk_fill. fields.
  destruct (fill_from_spec (Z.to_nat (hi - lo)) lo v
              {| Deque.chunk_begin := lo; Deque.chunk_end := hi;
                 Deque.data :=
                   Some (replicate (Z.to_nat Deque.chunk_size) None) |}
              (replicate (Z.to_nat Deque.chunk_size) None))
    as (slots' & -> & Hlen' & Hslots'); fields;
    [done|by rewrite length_replicate|lia|lia|].
  eexists. split; [done|]. fields. split_and!; [done..|].
  exists slots'. split_and!; [done..|].
  intros o Ho. rewrite (Hslots' o Ho).
  rewrite lookup_blank by done.
  destruct (decide (lo ≤ o < lo + Z.of_nat (Z.to_nat (hi - lo)))).
  - by rewrite decide_True by lia.
  - by rewrite decide_False by lia.
Qed.

Lemma chunk_fill_throws ch lo hi :
  Deque.idle ch → 0 ≤ lo → lo < hi → hi ≤ Deque.chunk_size →
  ∃ ch', Deque.chunk_fill None (Deque.chunk_init lo hi ch) = Thrown ch' ∧
         Deque.idle ch'.
Proof.
  intros Hidle Hlo Hle Hhi. rewrite (idle_init lo hi ch Hidle).
  unfold Deque.chunk_fill. fields.
  destruct (Z.to_nat (hi - lo)) as [|n] eqn:Hn; [lia|].
  cbn [Deque.fill_from]. unfold Deque.place. fields.
  rewrite decide_True by lia. eexists. split; [done|].
  split; fields; [lia|]. by intros slots [= <-].
Qed.

Lemma on_chunk_fill d c ch lo hi v :
  Deque.chunk_at c (Deque.data_ d) = Some ch → Deque.idle ch →
  0 ≤ lo → lo ≤ hi → hi ≤ Deque.chunk_size →
  ∃ ch',
    Deque.on_chunk c
      (λ ch, Deque.chunk_fill (Some v) (Deque.chunk_init lo hi ch)) d
    = Ret (Deque.set_data_ d (<[Z.to_nat c := ch']> (Deque.data_ d))) () ∧
    filled lo hi v ch'.
Proof.
  intros Hc Hidle Hlo Hle Hhi.
  destruct (chunk_fill_idle ch lo hi v Hidle Hlo Hle Hhi)
    as (ch' & Hrun & Hfilled).
  exists ch'. split; [|done]. by eapply on_chunk_Ret.
Qed.

Lemma fill_middle_spec n i v d :
  0 ≤ i → i + Z.of_nat n < 2 ^ 31 →
  (∀ c, i ≤ c < i + Z.of_nat n →
        ∃ ch, Deque.chunk_at c (Deque.data_ d) = Some ch ∧ Deque.idle ch) →
  ∃ d',
    Deque.fill_middle n i (Some v) d = Ret d' () ∧
    Deque.begin_ d' = Deque.begin_ d ∧ Deque.end_ d' = Deque.end_ d ∧
    length (Deque.data_ d') = length (Deque.data_ d) ∧
    ∀ c, if decide (i ≤ c < i + Z.of_nat n) then
           ∃ ch, Deque.chunk_at c (Deque.data_ d') = Some ch ∧
                 filled 0 Deque.chunk_size v ch
         else Deque.chunk_at c (Deque.data_ d')
              = Deque.chunk_at c (Deque.data_ d).
Proof.
  revert i d. induction n as [|n IH]; intros i d Hi Hn Hidle.
  { exists d. split_and!; [done..|]. intros c.
    by rewrite decide_False by lia. }
  cbn [Deque.fill_middle].
  destruct (Hidle i) as (ch & Hch & Hch_idle); [lia|].
  destruct (on_chunk_fill d i ch 0 Deque.chunk_size v Hch Hch_idle)
    as (ch' & -> & Hfilled); [done|unfold Deque.chunk_size; lia|done|].
  cbn [bind]. rewrite decide_True by lia.
  pose proof (chunk_at_lt _ _ _ Hch) as Hlt.
  destruct (IH (i + 1)
              (Deque.set_data_ d (<[Z.to_nat i := ch']> (Deque.data_ d))))
    as (d' & -> & Hb & He & Hlen & Hchunks); [lia|lia| |].
  { intros c Hc. fields. rewrite chunk_at_insert_ne by lia.
    apply Hidle. lia. }
  exists d'. fields. rewrite length_insert in Hlen.
  split_and!; [done..|].
  intros c. specialize (Hchunks c).
  destruct (decide (c = i)) as [->|Hne].
  - rewrite decide_True by lia. rewrite decide_False in Hchunks by lia.
    exists ch'. split; [|done]. rewrite Hchunks.
    by apply chunk_at_insert.
  - destruct (decide (i + 1 ≤ c < i + 1 + Z.of_nat n)).
    + by rewrite decide_True by lia.
    + rewrite decide_False by lia. rewrite Hchunks.
      by apply chunk_at_insert_ne.
Qed.

(** A filled chunk is in use for a deque of copies of [v]. *)
Lemma filled_in_use b e n v c ch :
  filled (if decide (c = b.1) then b.2 else 0)
         (if decide (c = e.1) then e.2 + 1 else Deque.chunk_size) v ch →
  (∀ o, Deque.chunk_begin ch ≤ o < Deque.chunk_end ch →
        0 ≤ (c - b.1) * Deque.chunk_size + o - b.2 < Z.of_nat n) →
  Deque.in_use b e (replicate n v) c ch.
Proof.
  intros (Hcb & Hce & slots & Hdata & Hlen & Hslots) Hrange.
  split_and!; [done..|]. exists slots. split_and!; [done..|].
  intros o Ho. rewrite (Hslots o Ho), Hcb, Hce.
  destruct (decide (_ ≤ o < _)) as [Hin|]; [|done]. f_equal. symmetry.
  apply lookup_replicate_2. rewrite <-Hcb, <-Hce in Hin.
  specialize (Hrange o Hin). lia.
Qed.

(** The coordinates that [init] computes. *)
Lemma init_spec size_ d :
  Forall Deque.idle (Deque.data_ d) → 0 ≤ size_ < 2 ^ 62 →
  ∃ d', Deque.init size_ d = Ret d' () ∧
        Deque.size d' = size_ ∧
        Forall Deque.idle (Deque.data_ d') ∧
        2 ≤ Z.of_nat (length (Deque.data_ d')) ∧
        let b := Deque.begin_ d' in
        let e := Deque.end_ d' in
        (size_ = 0 → b = (1, 0) ∧ e = (1, -1)) ∧
        (1 ≤ size_ →
           b.1 = 0 ∧ 0 ≤ b.2 < Deque.chunk_size ∧
           e.1 = b.1 + (b.2 + size_ - 1) / Deque.chunk_size ∧
           e.2 = (b.2 + size_ - 1) mod Deque.chunk_size ∧
           e.1 < Z.of_nat (length (Deque.data_ d'))).
Proof.
  intros Hidle Hsize. unfold Deque.init.
  set (k := Deque.ceil_divide
              (Z.max size_ (Deque.init_size * Deque.chunk_size))
              Deque.chunk_size).
  assert (2 ≤ k) as Hk by (unfold k; zlia).
  destruct (vector_resize_idle (Deque.data_ d) k Hidle)
    as (chunks' & -> & Hlen & Hidle'); [lia|].
  cbn beta iota.
  replace (Z.of_nat (length chunks')) with k by lia.
  set (remains := Deque.to_size_t (k * Deque.chunk_size - size_)).
  assert (remains = k * 32 - size_) as Hremains by (unfold remains, k; zlia).
  assert ((size_ = 0 → remains = 64) ∧
          (1 ≤ size_ → 0 ≤ remains < 64) ∧
          (64 ≤ size_ → 0 ≤ remains < 32) ∧
          (size_ + remains) mod 32 = 0 ∧ size_ + remains = k * 32)
    as (Hr0 & Hr1 & Hr2 & Hr3 & Hr4).
  { rewrite Hremains. unfold k. clear. zlia. }
  clearbody remains. clear Hremains.
  set (b1 := remains / Deque.chunk_size / 2).
  set (b2 := remains mod Deque.chunk_size / 2).
  cbn [fst snd].
  assert (0 ≤ b2 < 16) as Hb2 by (unfold b2; clear; zlia).
  assert ((size_ = 0 → b1 = 1 ∧ b2 = 0) ∧ (1 ≤ size_ → b1 = 0))
    as [Hb0 Hb1].
  { unfold b1, b2. clear -Hr0 Hr1. zlia. }
  match goal with
  | |- context [if decide (size_ ≤ ?x) then ?p else ?q] =>
      set (e := if decide (size_ ≤ x) then p else q)
  end.
  assert ((size_ = 0 → e = (1, -1)) ∧
          (1 ≤ size_ →
             e.1 = b1 + (b2 + size_ - 1) / Deque.chunk_size ∧
             e.2 = (b2 + size_ - 1) mod Deque.chunk_size ∧
             e.1 < k)) as [He0 He1].
  { unfold e. clear e.
    assert (2 * b2 ≤ remains mod 32 ≤ 2 * b2 + 1) as Hb2'
      by (unfold b2; clear; zlia).
    clearbody b1 b2.
    destruct (decide (size_ ≤ _)) as [Hle|Hgt]; fields.
    - split.
      + intros ->. destruct (Hb0 eq_refl) as [-> ->]. done.
      + intros H1. specialize (Hb1 H1). subst b1.
        clear Hb0 Hr0. split_and!; zlia.
    - split; [intros ->; destruct (Hb0 eq_refl) as [-> ->]; zlia|].
      intros H1. specialize (Hb1 H1). subst b1.
      clear Hb0 Hr0. split_and!; zlia. }
  assert (Deque.size {| Deque.data_ := chunks'; Deque.begin_ := (b1, b2);
                        Deque.end_ := e |} = size_) as Hsz.
  { unfold Deque.size. fields. clearbody e b1 b2.
    destruct (decide (size_ = 0)) as [->|Hne].
    - destruct (Hb0 eq_refl) as [-> ->]. rewrite (He0 eq_refl). done.
    - destruct He1 as (He1 & He2 & _); [lia|].
      specialize (Hb1 ltac:(lia)). destruct e as [e1 e2]. fields.
      clear -Hb1 Hb2 He1 He2 Hsize Hne.
      destruct (decide (_ < _)); zlia. }
  rewrite decide_True by done.
  eexists. split; [reflexivity|]. fields.
  split_and!; [done|done|lia| |].
  - intros H0. destruct (Hb0 H0) as [-> ->]. by rewrite (He0 H0).
  - intros H1. destruct (He1 H1) as (? & ? & ?).
    split_and!; [by apply Hb1|lia|unfold Deque.chunk_size; lia
                 |done|done|lia].
Qed.
(** [fill] after [init] for one element at least. *)
Lemma fill_spec d n v :
  Forall Deque.idle (Deque.data_ d) → 1 ≤ n < 2 ^ 31 →
  (Deque.begin_ d).1 = 0 →
  0 ≤ (Deque.begin_ d).2 < Deque.chunk_size →
  (Deque.end_ d).1 = ((Deque.begin_ d).2 + n - 1) / Deque.chunk_size →
  (Deque.end_ d).2 = ((Deque.begin_ d).2 + n - 1) mod Deque.chunk_size →
  (Deque.end_ d).1 < Z.of_nat (length (Deque.data_ d)) →
  ∃ d', Deque.fill (Some v) d = Ret d' () ∧
        Deque.holds d' (replicate (Z.to_nat n) v).
Proof.
  intros Hidle Hn Hb1 Hb2 He1 He2 Hlen.
  destruct d as [chunks [b1 b2] [e1 e2]]. fields. subst b1.
  assert (0 ≤ e1) by zlia.
  assert (0 ≤ e2 < 32) by zlia.
  assert (∀ c ch, Deque.chunk_at c chunks = Some ch → Deque.idle ch)
    as Hidle_at.
  { intros c ch Hc. by eapply Forall_idle_lookup. }
  assert (replicate (Z.to_nat n) v ≠ []) as Hne.
  { destruct (Z.to_nat n) eqn:?; [lia|done]. }
  assert (Z.of_nat (length (replicate (Z.to_nat n) v)) = n) as Hlenr.
  { rewrite length_replicate. lia. }
  unfold Deque.fill. fields.
  destruct (chunk_at_is_Some 0 chunks) as [ch0 Hch0]; [lia|].
  set (d0 := {| Deque.data_ := chunks; Deque.begin_ := (0, b2);
                Deque.end_ := (e1, e2) |}).
  destruct (on_chunk_fill d0 0 ch0 b2
              (if decide (0 = e1) then e2 + 1 else Deque.chunk_size) v)
    as (ch0' & -> & Hfilled0); fields;
    [done|by eapply Hidle_at|lia|case_decide; zlia
     |case_decide; unfold Deque.chunk_size in *; lia|].
  cbn [bind]. fields.
  destruct (decide (0 ≠ e1)) as [Hmany|Hone].
  - (* more chunks *)
    assert (Deque.to_int (0 + 1) = 1) as -> by done.
    set (d1 := Deque.set_data_ d0
                 (<[Z.to_nat 0 := ch0']> (Deque.data_ d0))).
    destruct (fill_middle_spec (Z.to_nat (e1 - 1)) 1 v d1)
      as (d2 & -> & Hb & He & Hlen2 & Hchunks2); [lia|zlia| |].
    { intros c Hc. unfold d1, d0. fields.
      rewrite chunk_at_insert_ne by lia.
      destruct (chunk_at_is_Some c chunks) as [ch Hch]; [lia|].
      exists ch. split; [done|]. by eapply Hidle_at. }
    cbn [bind].
    unfold d1, d0 in Hlen2, Hb, He. fields.
    rewrite length_insert in Hlen2.
    assert (∀ c, ¬ (1 ≤ c < e1) → c ≠ 0 →
              Deque.chunk_at c (Deque.data_ d2) = Deque.chunk_at c chunks)
      as Hrest.
    { intros c Hc Hc0. specialize (Hchunks2 c).
      rewrite decide_False in Hchunks2 by lia. rewrite Hchunks2.
      unfold d1, d0. fields. by apply chunk_at_insert_ne. }
    destruct (chunk_at_is_Some e1 chunks) as [che Hche]; [lia|].
    destruct (on_chunk_fill d2 e1 che 0 (e2 + 1) v)
      as (che' & -> & Hfillede);
      [by rewrite Hrest by lia|by eapply Hidle_at|done|lia
       |unfold Deque.chunk_size; lia|].
    eexists. split; [reflexivity|].
    apply holds_nonempty; [done|]. unfold Deque.holds_elements.
    fields. rewrite Hb, He, Hlenr. fields.
    rewrite length_insert, Hlen2.
    split_and!; [done|lia|lia|lia|done|lia|].
    intros c ch Hc.
    destruct (decide (c = e1)) as [->|Hce].
    + rewrite chunk_at_insert in Hc by lia.
      apply (inj Some) in Hc; subst ch.
      rewrite decide_True by lia.
      apply filled_in_use; fields.
      * rewrite decide_False by lia. by rewrite decide_True by done.
      * destruct Hfillede as (-> & -> & _). intros o Ho. zlia.
    + rewrite chunk_at_insert_ne in Hc by lia.
      destruct (decide (1 ≤ c < e1)) as [Hmid|Hnmid].
      * rewrite decide_True by lia. specialize (Hchunks2 c).
        rewrite decide_True in Hchunks2 by lia.
        destruct Hchunks2 as (ch' & Hch' & Hfilled).
        assert (ch' = ch) as -> by congruence.
        apply filled_in_use; fields.
        { by rewrite !decide_False by lia. }
        destruct Hfilled as (-> & -> & _). intros o Ho. zlia.
      * destruct (decide (c = 0)) as [->|Hc0].
        { rewrite decide_True by lia. specialize (Hchunks2 0).
          rewrite decide_False in Hchunks2 by lia.
          rewrite Hchunks2 in Hc. unfold d1, d0 in Hc. fields.
          rewrite chunk_at_insert in Hc by lia.
          apply (inj Some) in Hc; subst ch.
          apply filled_in_use; fields.
          { rewrite decide_True by done.
            rewrite (decide_False (P := 0 = e1)) in * by done. done. }
          destruct Hfilled0 as (-> & -> & _).
          rewrite decide_False by done. intros o Ho. zlia. }
        rewrite decide_False by lia. rewrite Hrest in Hc by done.
        by eapply Hidle_at.
  - (* one chunk *)
    assert (e1 = 0) as -> by lia.
    eexists. split; [reflexivity|].
    apply holds_nonempty; [done|]. unfold Deque.holds_elements, d0.
    fields. rewrite Hlenr, length_insert.
    split_and!; [done|lia|lia|lia|done|lia|].
    intros c ch Hc.
    destruct (decide (c = 0)) as [->|Hc0].
    + rewrite chunk_at_insert in Hc by lia.
      apply (inj Some) in Hc; subst ch.
      rewrite decide_True by lia.
      apply filled_in_use; fields.
      { by rewrite !decide_True by done. }
      destruct Hfilled0 as (-> & -> & _).
      rewrite decide_True by done. intros o Ho. zlia.
    + rewrite chunk_at_insert_ne in Hc by lia.
      rewrite decide_False by lia. by eapply Hidle_at.
Qed.

(** [fill] after [init] for no element. *)
Lemma fill_zero d (c : option T) :
  Forall Deque.idle (Deque.data_ d) →
  2 ≤ Z.of_nat (length (Deque.data_ d)) →
  Deque.begin_ d = (1, 0) → Deque.end_ d = (1, -1) →
  ∃ d', Deque.fill c d = Ret d' () ∧ Deque.holds d' [].
Proof.
  intros Hidle Hlen Hb He.
  destruct d as [chunks b e]. fields. subst b e.
  destruct (chunk_at_is_Some 1 chunks) as [ch1 Hch1]; [lia|].
  pose proof (Forall_idle_lookup _ _ _ Hidle Hch1) as Hidle1.
  unfold Deque.fill, Deque.on_chunk. fields. rewrite Hch1.
  rewrite decide_True by done.
  rewrite (idle_init _ _ ch1 Hidle1).
  unfold Deque.chunk_fill. fields.
  change (Z.to_nat (-1 + 1 - 0)) with 0%nat.
  cbn [Deque.fill_from zoom bind]. rewrite decide_False by (by intros ?).
  eexists. split; [reflexivity|]. split; [done|]. fields.
  apply Forall_insert; [done|]. split; fields; [lia|].
  by intros slots [= <-].
Qed.

(** [fill] with a copy that throws: the first chunk keeps no element
    and the others are untouched. *)
Lemma fill_throws d n :
  Forall Deque.idle (Deque.data_ d) → 1 ≤ n →
  (Deque.begin_ d).1 = 0 →
  0 ≤ (Deque.begin_ d).2 < Deque.chunk_size →
  (Deque.end_ d).1 = ((Deque.begin_ d).2 + n - 1) / Deque.chunk_size →
  (Deque.end_ d).2 = ((Deque.begin_ d).2 + n - 1) mod Deque.chunk_size →
  (Deque.end_ d).1 < Z.of_nat (length (Deque.data_ d)) →
  ∃ d', Deque.fill None d = Thrown d' ∧
        Forall Deque.idle (Deque.data_ d').
Proof.
  intros Hidle Hn Hb1 Hb2 He1 He2 Hlen.
  destruct d as [chunks [b1 b2] [e1 e2]]. fields. subst b1.
  assert (0 ≤ e1) by zlia.
  assert (0 ≤ e2 < 32) by zlia.
  destruct (chunk_at_is_Some 0 chunks) as [ch0 Hch0]; [lia|].
  pose proof (Forall_idle_lookup _ _ _ Hidle Hch0) as Hidle0.
  destruct (chunk_fill_throws ch0 b2
              (if decide (0 = e1) then e2 + 1 else Deque.chunk_size))
    as (ch0' & Hrun & Hidle0'); [done|lia|case_decide; zlia
                                 |case_decide; unfold Deque.chunk_size in *;
                                  lia|].
  unfold Deque.fill. fields.
  erewrite on_chunk_Thrown; [|exact Hch0|exact Hrun].
  cbn [bind]. eexists. split; [reflexivity|]. fields.
  by apply Forall_insert.
Qed.

(** [init] and [fill], as [Deque(size, value)] and [push_if_empty] run
    them. *)
Lemma init_fill_spec size_ v d :
  Forall Deque.idle (Deque.data_ d) → 0 ≤ size_ < 2 ^ 31 →
  ∃ d', (letr (d, _) := Deque.init size_ d in Deque.fill (Some v) d)
        = Ret d' () ∧
        Deque.holds d' (replicate (Z.to_nat size_) v).
Proof.
  intros Hidle Hsize.
  destruct (init_spec size_ d Hidle) as (d1 & -> & Hsz & Hidle1 & Hlen1 & H0 & H1);
    [lia|].
  cbn [bind]. destruct (decide (size_ = 0)) as [->|Hne].
  - destruct (H0 eq_refl) as [Hb He].
    destruct (fill_zero d1 (Some v) Hidle1 Hlen1 Hb He) as (d' & -> & Hd').
    by exists d'.
  - destruct H1 as (Hb1 & Hb2 & He1 & He2 & Hlen); [lia|].
    rewrite Hb1 in He1.
    destruct (fill_spec d1 size_ v Hidle1) as (d' & -> & Hd');
      [lia|done..|].
    by exists d'.
Qed.

Lemma init_fill_throws size_ d :
  Forall Deque.idle (Deque.data_ d) → 1 ≤ size_ < 2 ^ 31 →
  ∃ d', (letr (d, _) := Deque.init size_ d in Deque.fill None d)
        = Thrown d' ∧
        Forall Deque.idle (Deque.data_ d').
Proof.
  intros Hidle Hsize.
  destruct (init_spec size_ d Hidle) as (d1 & -> & Hsz & Hidle1 & Hlen1 & H0 & H1);
    [lia|].
  cbn [bind]. destruct H1 as (Hb1 & Hb2 & He1 & He2 & Hlen); [lia|].
  rewrite Hb1 in He1.
  destruct (fill_throws d1 size_ Hidle1) as (d' & -> & Hd'); [lia|done..|].
  by exists d'.
Qed.

Lemma clear_idle d :
  Forall Deque.idle (Deque.data_ d) → Deque.clear d = Some Deque.construct.
Proof.
  intros Hidle. unfold Deque.clear. rewrite destroy_all_Some; [done|].
  eapply Forall_impl; [done|]. apply chunk_clear_idle.
Qed.

(** [push_back] and [push_front] on a deque with no element. *)
Lemma push_if_empty_holds d v :
  Deque.holds d [] →
  ∃ d', Deque.push_if_empty (Some v) d = Ret d' () ∧ Deque.holds d' [v].
Proof.
  intros [_ Hidle]. unfold Deque.push_if_empty.
  destruct (init_fill_spec 1 v d Hidle) as (d' & -> & Hd'); [done|].
  by exists d'.
Qed.

Lemma push_if_empty_throws d :
  Deque.holds d [] →
  Deque.push_if_empty None d = Thrown Deque.construct.
Proof.
  intros [_ Hidle]. unfold Deque.push_if_empty.
  destruct (init_fill_throws 1 d Hidle) as (d' & -> & Hd'); [done|].
  unfold Deque.or_clear. by rewrite clear_idle.
Qed.
End DequeInit.

(** * The deque: growth for a trivially destructible element type *)

Section DequeGrowth.
Context {T : Type} {destructor : Deque.Destructor T}.
Implicit Types (d : Deque.t (T := T)) (ch : Deque.Chunk (T := T)).
Implicit Types (xs : list T) (nd od : list (Deque.Chunk (T := T))).
Local Open Scope Z_scope.

Local Ltac zlia :=
  unfold Deque.chunk_size, Deque.init_size, Deque.to_size_t,
    Deque.to_int64, Deque.to_int in *;
  Z.to_euclidean_division_equations; lia.

Local Ltac fields :=
  cbn [Deque.data_ Deque.begin_ Deque.end_ Deque.set_data_ Deque.set_end
       Deque.set_begin Deque.chunk_begin Deque.chunk_end Deque.data
       Deque.set_bounds Deque.set_data fst snd] in *.

(** One round of the loop of [resize]: a chunk of the new vector takes
    the array of a chunk of the old one. *)
Lemma take_at_fresh i j nd od ch :
  Deque.chunk_at i nd = Some Deque.new_chunk →
  Deque.chunk_at j od = Some ch →
  Deque.take_at i j (nd, od)
  = Some (<[Z.to_nat i := ch]> nd,
          <[Z.to_nat j := Deque.set_data ch None]> od).
Proof.
  intros Hi Hj. unfold Deque.take_at, Deque.chunk_take. fields.
  rewrite Hi, Hj. cbn [mbind option_bind]. by destruct ch.
Qed.

Lemma take_loop_spec n i e1' e1 nd od :
  (∀ k, e1' - i - Z.of_nat n < k ≤ e1' - i →
        Deque.chunk_at k nd = Some Deque.new_chunk) →
  (∀ j, e1 - i - Z.of_nat n < j ≤ e1 - i →
        is_Some (Deque.chunk_at j od)) →
  ∃ nd' od',
    Deque.take_loop n i e1' e1 (nd, od) = Some (nd', od') ∧
    length nd' = length nd ∧ length od' = length od ∧
    (∀ k, Deque.chunk_at k nd'
          = if decide (e1' - i - Z.of_nat n < k ≤ e1' - i)
            then Deque.chunk_at (k - e1' + e1) od
            else Deque.chunk_at k nd) ∧
    (∀ j, Deque.chunk_at j od'
          = if decide (e1 - i - Z.of_nat n < j ≤ e1 - i)
            then (λ ch, Deque.set_data ch None) <$> Deque.chunk_at j od
            else Deque.chunk_at j od).
Proof.
  revert i nd od. induction n as [|n IH]; intros i nd od Hnew Hold.
  { exists nd, od. split_and!; [done..| |].
    - intros k. by rewrite decide_False by lia.
    - intros j. by rewrite decide_False by lia. }
  cbn [Deque.take_loop].
  destruct (Hold (e1 - i)) as [ch Hch]; [lia|].
  pose proof (Hnew (e1' - i) ltac:(lia)) as Hthis.
  rewrite (take_at_fresh _ _ _ _ _ Hthis Hch). cbn [mbind option_bind].
  pose proof (chunk_at_lt _ _ _ Hthis) as Hlt'.
  pose proof (chunk_at_lt _ _ _ Hch) as Hlt.
  destruct (IH (i + 1) (<[Z.to_nat (e1' - i) := ch]> nd)
              (<[Z.to_nat (e1 - i) := Deque.set_data ch None]> od))
    as (nd' & od' & Hrun & Hlen' & Hlen & Hnd & Hod).
  { intros k Hk. rewrite chunk_at_insert_ne by lia. apply Hnew. lia. }
  { intros j Hj. rewrite chunk_at_insert_ne by lia. apply Hold. lia. }
  exists nd', od'. rewrite Hrun.
  rewrite length_insert in Hlen', Hlen.
  split_and!; [done..| |].
  - intros k. rewrite Hnd.
    destruct (decide (e1' - (i + 1) - Z.of_nat n < k ≤ e1' - (i + 1)))
      as [Hk|Hk].
    + rewrite decide_True by lia. apply chunk_at_insert_ne; lia.
    + destruct (decide (k = e1' - i)) as [->|Hne].
      * rewrite decide_True by lia. rewrite chunk_at_insert by done.
        by replace (e1' - i - e1' + e1) with (e1 - i) by lia.
      * rewrite decide_False by lia. apply chunk_at_insert_ne; lia.
  - intros j. rewrite Hod.
    destruct (decide (e1 - (i + 1) - Z.of_nat n < j ≤ e1 - (i + 1)))
      as [Hj|Hj].
    + rewrite decide_True by lia. f_equal. apply chunk_at_insert_ne; lia.
    + destruct (decide (j = e1 - i)) as [->|Hne].
      * rewrite decide_True by lia. rewrite chunk_at_insert by done.
        by rewrite Hch.
      * rewrite decide_False by lia. apply chunk_at_insert_ne; lia.
Qed.

(** A chunk in use stays so when the chunks move along the vector. *)
Lemma in_use_shift b1 b2 e1 e2 xs c ch delta :
  Deque.in_use (b1, b2) (e1, e2) xs c ch →
  Deque.in_use (b1 + delta, b2) (e1 + delta, e2) xs (c + delta) ch.
Proof.
  intros (Hcb & Hce & slots & Hdata & Hlen & Hslots). fields.
  split_and!; fields.
  - rewrite Hcb. destruct (decide (c = b1)), (decide (c + delta = b1 + delta));
      (done || lia).
  - rewrite Hce. destruct (decide (c = e1)), (decide (c + delta = e1 + delta));
      (done || lia).
  - exists slots. split_and!; [done..|]. intros o Ho.
    rewrite (Hslots o Ho).
    by replace (c + delta - (b1 + delta)) with (c - b1) by lia.
Qed.

(** [resize] to twice the chunks, for a trivially destructible element
    type: the chunks in use move to the middle of the new vector. *)
Lemma resize_holds d xs :
  Deque.trivially_destructible (T := T) = true →
  Deque.holds d xs → xs ≠ [] →
  let len := Z.of_nat (length (Deque.data_ d)) in
  ∃ d', Deque.resize (2 * len) d = Some d' ∧
        Deque.holds d' xs ∧
        Z.of_nat (length (Deque.data_ d')) = 2 * len ∧
        Deque.begin_ d' = (2 * len / 4, (Deque.begin_ d).2) ∧
        Deque.end_ d'
        = (2 * len / 4 + ((Deque.end_ d).1 - (Deque.begin_ d).1),
           (Deque.end_ d).2).
Proof.
  intros Htd Hd Hne len. apply holds_nonempty in Hd; [|done].
  set (n := Z.of_nat (length xs)) in *.
  assert (1 ≤ n) by (destruct xs; [done|]; unfold n; simpl; lia).
  destruct Hd as (Hb1 & Hb2 & He1 & He2 & Hlen & Hchunks).
  fold n in He1, He2.
  destruct d as [chunks [b1 b2] [e1 e2]]. fields. subst len.
  set (len := Z.of_nat (length chunks)) in *.
  assert (b1 ≤ e1) by zlia.
  unfold Deque.resize. fields. fold len.
  rewrite decide_False by lia.
  replace (Z.max (2 * len) 2) with (2 * len) by lia.
  set (new_data := replicate (Z.to_nat (2 * len))
                     (Deque.new_chunk (T := T))).
  assert (Z.of_nat (length new_data) = 2 * len) as Hnew_len.
  { unfold new_data. rewrite length_replicate. lia. }
  rewrite Hnew_len.
  set (b1' := 2 * len / 4).
  set (e1' := b1' + (e1 - b1)).
  assert (0 ≤ b1') by (unfold b1'; zlia).
  assert (e1' < 2 * len - 1) as He1' by (unfold e1', b1'; zlia).
  assert ((if decide (e1' = b1')
           then Deque.take_at b1' b1 (new_data, chunks)
           else Deque.take_loop (Z.to_nat (e1 - b1 + 1)) 0 e1' e1
                  (new_data, chunks))
          = Deque.take_loop (Z.to_nat (e1 - b1 + 1)) 0 e1' e1
              (new_data, chunks)) as ->.
  { destruct (decide (e1' = b1')) as [Heq|]; [|done].
    assert (e1 = b1) as -> by (unfold e1' in Heq; lia).
    replace (Z.to_nat (b1 - b1 + 1)) with 1%nat by lia.
    cbn [Deque.take_loop]. rewrite Heq.
    replace (b1' - 0) with b1' by lia. replace (b1 - 0) with b1 by lia.
    by destruct (Deque.take_at b1' b1 (new_data, chunks)). }
  destruct (take_loop_spec (Z.to_nat (e1 - b1 + 1)) 0 e1' e1
              new_data chunks) as (nd' & od' & -> & Hlen' & Hlen0 & Hnd & Hod).
  { intros k Hk. apply chunk_at_Some. split; [lia|].
    apply lookup_replicate_2. lia. }
  { intros j Hj. apply chunk_at_is_Some. lia. }
  cbn [mbind option_bind]. fields.
  rewrite destroy_all_Some.
  2:{ apply Forall_lookup. intros j ch Hj.
      assert (Deque.chunk_at (Z.of_nat j) od' = Some ch) as Hc.
      { apply chunk_at_Some. split; [lia|]. by rewrite Nat2Z.id. }
      rewrite Hod in Hc.
      destruct (decide (e1 - 0 - Z.of_nat (Z.to_nat (e1 - b1 + 1))
                        < Z.of_nat j ≤ e1 - 0)) as [Hin|Hout].
      - destruct (Deque.chunk_at (Z.of_nat j) chunks) as [ch0|]; [|done].
        injection Hc as <-. by apply chunk_clear_nothing.
      - specialize (Hchunks _ _ Hc).
        rewrite decide_False in Hchunks by lia.
        by apply chunk_clear_idle. }
  cbn [mbind option_bind].
  eexists. split; [reflexivity|]. fields.
  split_and!; [|lia|done..].
  apply holds_nonempty; [done|].
  split_and!; fields; fold n; [done|lia|lia|unfold e1'; lia|done|lia|].
  intros c ch Hc. rewrite Hnd in Hc.
  destruct (decide (b1' ≤ c ≤ e1')) as [Hin|Hout].
  - rewrite decide_True in Hc by lia.
    specialize (Hchunks _ _ Hc). rewrite decide_True in Hchunks by lia.
    apply (in_use_shift _ _ _ _ _ _ _ (b1' - b1)) in Hchunks.
    replace (b1 + (b1' - b1)) with b1' in Hchunks by lia.
    replace (e1 + (b1' - b1)) with e1' in Hchunks by (unfold e1'; lia).
    by replace (c - e1' + e1 + (b1' - b1)) with c in Hchunks
      by (unfold e1'; lia).
  - rewrite decide_False in Hc by lia.
    apply chunk_at_Some in Hc as [_ Hc].
    apply lookup_replicate in Hc as [-> _].
    split; [simpl; lia|]. by intros slots [=].
Qed.

(** [push_back] at the end of the last chunk of the vector grows the
    vector first. *)
Lemma push_back_grows d xs v :
  Deque.trivially_destructible (T := T) = true →
  Deque.holds d xs → xs ≠ [] → Z.of_nat (length xs) < 2 ^ 62 →
  Deque.end_ d = (Z.of_nat (length (Deque.data_ d)) - 1,
                  Deque.chunk_size - 1) →
  ∃ d', Deque.push_back (Some v) d = Ret d' () ∧
        Deque.holds d' (xs ++ [v]) ∧
        Z.of_nat (length (Deque.data_ d'))
        = 2 * Z.of_nat (length (Deque.data_ d)).
Proof.
  intros Htd Hd Hne Hn Hcap.
  pose proof (holds_size d xs Hd ltac:(lia)) as Hsize.
  destruct (resize_holds d xs Htd Hd Hne)
    as (d1 & Hresize & Hd1 & Hlen1 & Hb1 & He1).
  pose proof (holds_size d1 xs Hd1 ltac:(lia)) as Hsize1.
  assert (Deque.end_ d1 ≠ (Z.of_nat (length (Deque.data_ d1)) - 1,
                           Deque.chunk_size - 1)) as Hcap1.
  { rewrite He1, Hlen1. apply holds_nonempty in Hd; [|done].
    destruct Hd as (Hb & Hb2 & He & _ & Hlt & _).
    assert (1 ≤ Z.of_nat (length xs))
      by (destruct xs; [done|]; simpl; lia).
    assert ((Deque.begin_ d).1 ≤ (Deque.end_ d).1) as Hle by zlia.
    intros [= Heq _]. clear -Heq Hb Hlt Hle. zlia. }
  destruct (push_back_holds d1 xs v Hd1 Hne Hn Hcap1)
    as (d' & Hpush & Hd' & _ & Hlen').
  exists d'. split_and!; [|done|lia].
  rewrite <-Hpush. unfold Deque.push_back, Deque.empty.
  rewrite Hsize, Hsize1.
  rewrite bool_decide_false by (destruct xs; [done|]; simpl in *; lia).
  rewrite (decide_True (P := Deque.end_ d = _)) by done.
  rewrite Hresize.
  by rewrite (decide_False (P := Deque.end_ d1 = _)) by done.
Qed.

(** [push_front] at the first slot of the first chunk of the vector
    grows the vector first. *)
Lemma push_front_grows d xs v :
  Deque.trivially_destructible (T := T) = true →
  Deque.holds d xs → xs ≠ [] → Z.of_nat (length xs) < 2 ^ 62 →
  Deque.begin_ d = (0, 0) → (2 ≤ length (Deque.data_ d))%nat →
  ∃ d', Deque.push_front (Some v) d = Ret d' () ∧
        Deque.holds d' (v :: xs) ∧
        Z.of_nat (length (Deque.data_ d'))
        = 2 * Z.of_nat (length (Deque.data_ d)).
Proof.
  intros Htd Hd Hne Hn Hcap Hlen.
  pose proof (holds_size d xs Hd ltac:(lia)) as Hsize.
  destruct (resize_holds d xs Htd Hd Hne)
    as (d1 & Hresize & Hd1 & Hlen1 & Hb1 & He1).
  pose proof (holds_size d1 xs Hd1 ltac:(lia)) as Hsize1.
  assert (Deque.begin_ d1 ≠ (0, 0)) as Hcap1.
  { rewrite Hb1. intros [= Heq _]. clear -Heq Hlen. zlia. }
  destruct (push_front_holds d1 xs v Hd1 Hne Hn Hcap1)
    as (d' & Hpush & Hd' & _ & Hlen').
  exists d'. split_and!; [|done|lia].
  rewrite <-Hpush. unfold Deque.push_front, Deque.empty.
  rewrite Hsize, Hsize1.
  rewrite bool_decide_false by (destruct xs; [done|]; simpl in *; lia).
  rewrite (decide_True (P := Deque.begin_ d = _)) by done.
  rewrite Hresize.
  by rewrite (decide_False (P := Deque.begin_ d1 = _)) by done.
Qed.
End DequeGrowth.

(** * Properties of the deque *)

Section DequeProperties.
Context {T : Type} {destructor : Deque.Destructor T}.
Implicit Types (d : Deque.t (T := T)) (xs : list T) (x v : T).
Local Open Scope Z_scope.

(** X22.  What a deque that holds the elements [xs] shows: [size()]
    is their number, [empty()] tells whether there is none, [at(i)]
    and [operator[]] return the element of index [i] and leave the
    deque as it is, and [at] throws from [size()] on. *)
Theorem deque_observe d xs :
  Deque.holds d xs → Z.of_nat (length xs) < 2 ^ 31 →
  Deque.size d = Z.of_nat (length xs) ∧
  Deque.empty d = bool_decide (length xs = 0%nat) ∧
  (∀ i x, xs !! i = Some x →
          Deque.index (Z.of_nat i) d = Some x ∧
          Deque.at_ (Z.of_nat i) d = Ret d x) ∧
  (∀ i, Z.of_nat (length xs) ≤ i → Deque.at_ i d = Thrown d).
Proof.
  intros Hd Hn. pose proof (holds_size d xs Hd ltac:(lia)) as Hsize.
  split_and!.
  - done.
  - unfold Deque.empty. rewrite Hsize. apply bool_decide_ext. lia.
  - intros i x Hi. pose proof (holds_index d xs i x Hd Hn Hi) as Hidx.
    split; [done|]. unfold Deque.at_.
    apply lookup_lt_Some in Hi. rewrite decide_False by lia.
    by rewrite Hidx.
  - intros i Hi. unfold Deque.at_. by rewrite decide_True by lia.
Qed.

(** X23.  [Deque(size, value)] returns a deque that holds [size]
    copies of the value: the coordinates [init] computes pass its
    [assert].  When the copy throws, for a positive size, the
    constructor throws and leaves the deque cleared. *)
Theorem deque_construct size_ v :
  0 ≤ size_ < 2 ^ 31 →
  (∃ d, Deque.construct_count size_ (Some v) = Ret d () ∧
        Deque.holds d (replicate (Z.to_nat size_) v)) ∧
  (1 ≤ size_ →
     Deque.construct_count (T := T) size_ None = Thrown Deque.construct).
Proof.
  intros Hsize. unfold Deque.construct_count. split.
  - destruct (init_fill_spec size_ v Deque.construct) as (d & -> & Hd);
      [constructor|done|].
    by exists d.
  - intros H1.
    destruct (init_fill_throws size_ (Deque.construct (T := T)))
      as (d & -> & Hd); [constructor|lia|].
    unfold Deque.or_clear. by rewrite clear_idle.
Qed.

(** X24.  [push_back] on a deque that holds [xs], empty or short of
    the end of the last chunk of the vector, returns a deque that
    holds [xs] followed by the value. *)
Theorem deque_push_back d xs v :
  Deque.holds d xs → Z.of_nat (length xs) < 2 ^ 31 →
  xs = [] ∨
  Deque.end_ d ≠ (Z.of_nat (length (Deque.data_ d)) - 1,
                  Deque.chunk_size - 1) →
  ∃ d', Deque.push_back (Some v) d = Ret d' () ∧
        Deque.holds d' (xs ++ [v]).
Proof.
  intros Hd Hn Hcase. destruct (decide (xs = [])) as [->|Hne].
  - unfold Deque.push_back, Deque.empty.
    destruct Hd as [Hsize Hidle]. rewrite Hsize.
    rewrite bool_decide_true by done.
    by apply push_if_empty_holds.
  - destruct Hcase as [?|Hcap]; [done|].
    destruct (push_back_holds d xs v Hd Hne ltac:(lia) Hcap)
      as (d' & ? & ? & _).
    by exists d'.
Qed.

(** X25.  [push_front] on a deque that holds [xs], empty or short of
    the first slot of the first chunk of the vector, returns a deque
    that holds the value followed by [xs]. *)
Theorem deque_push_front d xs v :
  Deque.holds d xs → Z.of_nat (length xs) < 2 ^ 31 →
  xs = [] ∨ Deque.begin_ d ≠ (0, 0) →
  ∃ d', Deque.push_front (Some v) d = Ret d' () ∧
        Deque.holds d' (v :: xs).
Proof.
  intros Hd Hn Hcase. destruct (decide (xs = [])) as [->|Hne].
  - unfold Deque.push_front, Deque.empty.
    destruct Hd as [Hsize Hidle]. rewrite Hsize.
    rewrite bool_decide_true by done.
    by apply push_if_empty_holds.
  - destruct Hcase as [?|Hcap]; [done|].
    destruct (push_front_holds d xs v Hd Hne ltac:(lia) Hcap)
      as (d' & ? & ? & _).
    by exists d'.
Qed.

(** X26.  [pop_back] and [pop_front] remove the last and the first
    element, unless it is the only element and sits in the first,
    respectively the last, slot of its chunk. *)
Theorem deque_pop d xs x :
  Z.of_nat (length xs) < 2 ^ 31 →
  (Deque.holds d (xs ++ [x]) → xs ≠ [] ∨ (Deque.end_ d).2 ≠ 0 →
   ∃ d', Deque.pop_back d = Some d' ∧ Deque.holds d' xs) ∧
  (Deque.holds d (x :: xs) →
   xs ≠ [] ∨ (Deque.begin_ d).2 ≠ Deque.chunk_size - 1 →
   ∃ d', Deque.pop_front d = Some d' ∧ Deque.holds d' xs).
Proof.
  intros Hn. split; intros Hd Hcase.
  - destruct (pop_back_holds d xs x Hd ltac:(lia) Hcase)
      as (d' & ? & ? & _).
    by exists d'.
  - destruct (pop_front_holds d xs x Hd ltac:(lia) Hcase)
      as (d' & ? & ? & _).
    by exists d'.
Qed.

(** X27.  Removing the only element when it sits at the edge of its
    chunk leaves a deque that reports 32 elements: [pop_back] from
    slot 0 moves [end_] to the last slot of the chunk before, and
    [pop_front] from slot 31 moves [begin_] to the first slot of the
    chunk after. *)
Theorem deque_pop_edge d x :
  Deque.holds d [x] →
  ((Deque.end_ d).2 = 0 →
   ∃ d', Deque.pop_back d = Some d' ∧
         Deque.size d' = 32 ∧ Deque.empty d' = false) ∧
  ((Deque.begin_ d).2 = Deque.chunk_size - 1 →
   ∃ d', Deque.pop_front d = Some d' ∧
         Deque.size d' = 32 ∧ Deque.empty d' = false).
Proof.
  intros Hd. split; intros Hedge.
  - destruct (pop_back_edge d x Hd Hedge) as (d' & ? & _ & _ & Hsize).
    exists d'. unfold Deque.empty. rewrite Hsize. done.
  - destruct (pop_front_edge d x Hd Hedge) as (d' & ? & _ & _ & Hsize).
    exists d'. unfold Deque.empty. rewrite Hsize. done.
Qed.

(** X28.  Growth: [push_back] at the end of the last chunk of the
    vector and [push_front] at the first slot of its first chunk call
    [resize], where [take] leaves the old chunks their bounds without
    their arrays, and the destructor of the old vector then calls
    [~T()] through the null pointer for every element they held.  For
    a trivially destructible [T] these calls do nothing: the vector
    ends with twice the chunks and the deque holds its elements and
    the new one.  For any other [T] the calls are undefined. *)
Theorem deque_growth d xs v :
  Deque.holds d xs → xs ≠ [] → Z.of_nat (length xs) < 2 ^ 31 →
  (Deque.end_ d = (Z.of_nat (length (Deque.data_ d)) - 1,
                   Deque.chunk_size - 1) →
   if Deque.trivially_destructible (T := T) then
     ∃ d', Deque.push_back (Some v) d = Ret d' () ∧
           Deque.holds d' (xs ++ [v]) ∧
           Z.of_nat (length (Deque.data_ d'))
           = 2 * Z.of_nat (length (Deque.data_ d))
   else ∀ c, Deque.push_back c d = Undefined) ∧
  (Deque.begin_ d = (0, 0) → (2 ≤ length (Deque.data_ d))%nat →
   if Deque.trivially_destructible (T := T) then
     ∃ d', Deque.push_front (Some v) d = Ret d' () ∧
           Deque.holds d' (v :: xs) ∧
           Z.of_nat (length (Deque.data_ d'))
           = 2 * Z.of_nat (length (Deque.data_ d))
   else ∀ c, Deque.push_front c d = Undefined).
Proof.
  intros Hd Hne Hn.
  destruct (Deque.trivially_destructible (T := T)) eqn:Htd.
  - split.
    + intros Hcap. by apply push_back_grows; [..|lia|].
    + intros Hcap Hlen. by apply push_front_grows; [..|lia| |].
  - split.
    + intros Hcap c. by apply (push_back_grow d xs); [..|lia|].
    + intros Hcap _ c. by apply (push_front_grow d xs); [..|lia|].
Qed.

(** X29.  [push_back] is not exception safe: when the copy throws,
    on a deque with an element, [end_] has moved on already; the
    deque reports one element more, the old elements are where they
    were, and the new index reads a slot that holds no object. *)
Theorem deque_push_back_throws d xs :
  Deque.holds d xs → xs ≠ [] → Z.of_nat (length xs) < 2 ^ 31 - 1 →
  Deque.end_ d ≠ (Z.of_nat (length (Deque.data_ d)) - 1,
                  Deque.chunk_size - 1) →
  ∃ d', Deque.push_back None d = Thrown d' ∧
        Deque.size d' = Z.of_nat (length xs) + 1 ∧
        (∀ i x, xs !! i = Some x → Deque.index (Z.of_nat i) d' = Some x) ∧
        Deque.index (Z.of_nat (length xs)) d' = None ∧
        Deque.at_ (Z.of_nat (length xs)) d' = Undefined.
Proof.
  intros Hd Hne Hn Hcap.
  destruct (push_back_throws d xs Hd Hne Hn Hcap)
    as (d' & Hrun & Hsize & Hold & Hnew).
  exists d'. split_and!; [done..|].
  unfold Deque.at_. rewrite decide_False by lia. by rewrite Hnew.
Qed.

(** X30.  [clear()] destroys every element and leaves the deque as
    [Deque()] makes it, with no element; on an empty deque a
    [push_back] whose copy throws does the same. *)
Theorem deque_clear d xs :
  Deque.holds d xs → Z.of_nat (length xs) < 2 ^ 31 →
  Deque.clear d = Some Deque.construct ∧
  Deque.holds (T := T) Deque.construct [] ∧
  (xs = [] → Deque.push_back None d = Thrown Deque.construct).
Proof.
  intros Hd Hn. split_and!.
  - by apply (clear_holds d xs); [|lia].
  - apply holds_construct.
  - intros ->. unfold Deque.push_back, Deque.empty.
    destruct Hd as [Hsize Hidle]. rewrite Hsize.
    rewrite bool_decide_true by done.
    by apply push_if_empty_throws.
Qed.
End DequeProperties.

(** * The properties of the deque at concrete deques *)

Section DequeWitnesses.
Import Scenario.
Local Open Scope Z_scope.

Lemma deque_of_holds size_ :
  0 ≤ size_ < 2 ^ 31 →
  Deque.holds (deque_of size_) (replicate (Z.to_nat size_) 7%nat).
Proof.
  intros Hsize. unfold deque_of, Deque.construct_count.
  destruct (init_fill_spec size_ 7%nat Deque.construct) as (d & -> & Hd);
    [constructor|done|].
  done.
Qed.

Lemma deque33_holds : Deque.holds deque33 (replicate 33 7%nat).
Proof. by apply (deque_of_holds 33). Qed.

Lemma deque33_holds_snoc :
  Deque.holds deque33 (replicate 32 7%nat ++ [7%nat]).
Proof. exact deque33_holds. Qed.

Lemma deque64_holds : Deque.holds deque64 (replicate 64 7%nat).
Proof. by apply (deque_of_holds 64). Qed.

Lemma pop_fronts_holds xs1 xs2 d :
  Deque.holds d (xs1 ++ xs2) → xs2 ≠ [] →
  Z.of_nat (length (xs1 ++ xs2)) < 2 ^ 31 →
  ∃ d', pop_fronts (length xs1) d = Some d' ∧ Deque.holds d' xs2.
Proof.
  revert d. induction xs1 as [|x xs1 IH]; intros d Hd Hne Hlen.
  { by exists d. }
  simpl in Hd, Hlen. cbn [length pop_fronts].
  destruct (pop_front_holds d (xs1 ++ xs2) x Hd) as (d1 & -> & Hd1 & _).
  - lia.
  - left. by destruct xs1.
  - cbn [mbind option_bind]. apply IH; [done..|lia].
Qed.

Lemma pop_backs_holds xs1 xs2 d :
  Deque.holds d (xs1 ++ xs2) → xs1 ≠ [] →
  Z.of_nat (length (xs1 ++ xs2)) < 2 ^ 31 →
  ∃ d', pop_backs (length xs2) d = Some d' ∧ Deque.holds d' xs1.
Proof.
  revert d. induction xs2 as [|x xs2 IH] using rev_ind;
    intros d Hd Hne Hlen.
  { rewrite app_nil_r in Hd. by exists d. }
  rewrite app_assoc in Hd. rewrite !length_app in Hlen. simpl in Hlen.
  rewrite length_app, Nat.add_comm. cbn [length Nat.add pop_backs].
  destruct (pop_back_holds d (xs1 ++ xs2) x Hd) as (d1 & -> & Hd1 & _).
  - rewrite length_app. lia.
  - left. by destruct xs1.
  - cbn [mbind option_bind]. apply IH; [done..|rewrite length_app; lia].
Qed.

Lemma edge_holds : Deque.holds edge [7%nat].
Proof.
  unfold edge.
  destruct (pop_fronts_holds (replicate 17 7%nat) (replicate 16 7%nat)
              deque33) as (d1 & Hrun1 & Hd1);
    [exact deque33_holds|done|simpl; lia|].
  change (length (replicate 17 7%nat)) with 17%nat in Hrun1.
  rewrite Hrun1. cbn [mbind option_bind].
  destruct (pop_backs_holds [7%nat] (replicate 15 7%nat) d1)
    as (d2 & Hrun2 & Hd2); [exact Hd1|done|simpl; lia|].
  change (length (replicate 15 7%nat)) with 15%nat in Hrun2.
  by rewrite Hrun2.
Qed.

Lemma edge_front_holds : Deque.holds edge_front [7%nat].
Proof.
  unfold edge_front.
  destruct (pop_fronts_holds (replicate 16 7%nat) (replicate 17 7%nat)
              deque33) as (d1 & Hrun1 & Hd1);
    [exact deque33_holds|done|simpl; lia|].
  change (length (replicate 16 7%nat)) with 16%nat in Hrun1.
  rewrite Hrun1. cbn [mbind option_bind].
  destruct (pop_backs_holds [7%nat] (replicate 16 7%nat) d1)
    as (d2 & Hrun2 & Hd2); [exact Hd1|done|simpl; lia|].
  change (length (replicate 16 7%nat)) with 16%nat in Hrun2.
  by rewrite Hrun2.
Qed.

Lemma edge_at_slot_0 : (Deque.end_ edge).2 = 0.
Proof. vm_compute. reflexivity. Qed.

Lemma edge_front_at_slot_31 :
  (Deque.begin_ edge_front).2 = Deque.chunk_size - 1.
Proof. vm_compute. reflexivity. Qed.

Lemma deque64_full_front : Deque.begin_ deque64 = (0, 0).
Proof. vm_compute. reflexivity. Qed.

Lemma deque33_holds_cons :
  Deque.holds deque33 (7%nat :: replicate 32 7%nat).
Proof. exact deque33_holds. Qed.

Lemma holds_default : Deque.holds (T := nat) Deque.construct [].
Proof. apply holds_construct. Qed.

Lemma small0 : Z.of_nat (length (@nil nat)) < 2 ^ 31.
Proof. simpl. lia. Qed.

Lemma one_le_33 : 1 ≤ 33.
Proof. lia. Qed.

Lemma deque33_short :
  Deque.end_ deque33 ≠ (Z.of_nat (length (Deque.data_ deque33)) - 1,
                        Deque.chunk_size - 1).
Proof. vm_compute. by intros [=]. Qed.

Lemma deque33_short_front : Deque.begin_ deque33 ≠ (0, 0).
Proof. vm_compute. by intros [=]. Qed.

Lemma deque64_full :
  Deque.end_ deque64 = (Z.of_nat (length (Deque.data_ deque64)) - 1,
                        Deque.chunk_size - 1).
Proof. vm_compute. reflexivity. Qed.

Lemma small33 : Z.of_nat (length (replicate 33 7%nat)) < 2 ^ 31.
Proof. simpl. lia. Qed.

Lemma deque_observe_witness :
  Z.of_nat (length (replicate 33 7%nat)) < 2 ^ 31 ∧
  Deque.size deque33 = Z.of_nat (length (replicate 33 7%nat)) ∧
  Deque.empty deque33
  = bool_decide (length (replicate 33 7%nat) = 0%nat) ∧
  (∀ i x, replicate 33 7%nat !! i = Some x →
          Deque.index (Z.of_nat i) deque33 = Some x ∧
          Deque.at_ (Z.of_nat i) deque33 = Ret deque33 x) ∧
  (∀ i, Z.of_nat (length (replicate 33 7%nat)) ≤ i →
        Deque.at_ i deque33 = Thrown deque33).
Proof.
  split; [exact small33|].
  exact (deque_observe deque33 (replicate 33 7%nat) deque33_holds small33).
Defined.

Lemma size33 : 0 ≤ 33 < 2 ^ 31.
Proof. lia. Qed.

Lemma deque_construct_witness :
  0 ≤ 33 < 2 ^ 31 ∧
  (∃ d, Deque.construct_count 33 (Some 7%nat) = Ret d () ∧
        Deque.holds d (replicate (Z.to_nat 33) 7%nat)) ∧
  Deque.construct_count (T := nat) 33 None = Thrown Deque.construct.
Proof.
  split; [exact size33|]. split.
  - exact (proj1 (deque_construct 33 7%nat size33)).
  - exact (proj2 (deque_construct 33 7%nat size33) one_le_33).
Defined.

Lemma deque_push_back_witness :
  (replicate 33 7%nat = [] ∨
   Deque.end_ deque33 ≠ (Z.of_nat (length (Deque.data_ deque33)) - 1,
                         Deque.chunk_size - 1)) ∧
  ∃ d', Deque.push_back (Some 8%nat) deque33 = Ret d' () ∧
        Deque.holds d' (replicate 33 7%nat ++ [8%nat]).
Proof.
  split; [right; exact deque33_short|].
  exact (deque_push_back deque33 (replicate 33 7%nat) 8%nat deque33_holds
           small33 (or_intror deque33_short)).
Defined.

Lemma deque_push_front_witness :
  (replicate 33 7%nat = [] ∨ Deque.begin_ deque33 ≠ (0, 0)) ∧
  ∃ d', Deque.push_front (Some 8%nat) deque33 = Ret d' () ∧
        Deque.holds d' (8%nat :: replicate 33 7%nat).
Proof.
  split; [right; exact deque33_short_front|].
  exact (deque_push_front deque33 (replicate 33 7%nat) 8%nat deque33_holds
           small33 (or_intror deque33_short_front)).
Defined.

Lemma small32 : Z.of_nat (length (replicate 32 7%nat)) < 2 ^ 31.
Proof. simpl. lia. Qed.

Lemma nonempty32 :
  replicate 32 7%nat ≠ [] ∨ (Deque.end_ deque33).2 ≠ 0.
Proof. by left. Qed.

Lemma nonempty32_front :
  replicate 32 7%nat ≠ [] ∨
  (Deque.begin_ deque33).2 ≠ Deque.chunk_size - 1.
Proof. by left. Qed.

Lemma deque_pop_witness :
  Z.of_nat (length (replicate 32 7%nat)) < 2 ^ 31 ∧
  Deque.holds deque33 (replicate 32 7%nat ++ [7%nat]) ∧
  Deque.holds deque33 (7%nat :: replicate 32 7%nat) ∧
  (∃ d', Deque.pop_back deque33 = Some d' ∧
         Deque.holds d' (replicate 32 7%nat)) ∧
  (∃ d', Deque.pop_front deque33 = Some d' ∧
         Deque.holds d' (replicate 32 7%nat)).
Proof.
  split; [exact small32|]. split; [exact deque33_holds_snoc|].
  split; [exact deque33_holds_cons|]. split.
  - exact (proj1 (deque_pop deque33 (replicate 32 7%nat) 7%nat small32)
             deque33_holds_snoc nonempty32).
  - exact (proj2 (deque_pop deque33 (replicate 32 7%nat) 7%nat small32)
             deque33_holds_cons nonempty32_front).
Defined.

Lemma deque_pop_edge_witness :
  Deque.holds edge [7%nat] ∧ (Deque.end_ edge).2 = 0 ∧
  Deque.holds edge_front [7%nat] ∧
  (Deque.begin_ edge_front).2 = Deque.chunk_size - 1 ∧
  (∃ d', Deque.pop_back edge = Some d' ∧
         Deque.size d' = 32 ∧ Deque.empty d' = false) ∧
  (∃ d', Deque.pop_front edge_front = Some d' ∧
         Deque.size d' = 32 ∧ Deque.empty d' = false).
Proof.
  split; [exact edge_holds|]. split; [exact edge_at_slot_0|].
  split; [exact edge_front_holds|]. split; [exact edge_front_at_slot_31|].
  split.
  - exact (proj1 (deque_pop_edge edge 7%nat edge_holds) edge_at_slot_0).
  - exact (proj2 (deque_pop_edge edge_front 7%nat edge_front_holds)
             edge_front_at_slot_31).
Defined.

Lemma nonempty64 : replicate 64 7%nat ≠ [].
Proof. done. Qed.

Lemma small64 : Z.of_nat (length (replicate 64 7%nat)) < 2 ^ 31.
Proof. simpl. lia. Qed.

Lemma vectors64_holds :
  Deque.holds vectors64 (replicate 64 [7%nat]).
Proof.
  unfold vectors64, Deque.construct_count.
  destruct (init_fill_spec 64 [7%nat] Deque.construct) as (d & -> & Hd);
    [constructor|done|].
  done.
Qed.

Lemma vectors64_full :
  Deque.end_ vectors64
  = (Z.of_nat (length (Deque.data_ vectors64)) - 1, Deque.chunk_size - 1).
Proof. vm_compute. reflexivity. Qed.

Lemma vectors64_full_front : Deque.begin_ vectors64 = (0, 0).
Proof. vm_compute. reflexivity. Qed.

Lemma deque64_chunks : (2 ≤ length (Deque.data_ deque64))%nat.
Proof. vm_compute. lia. Qed.

Lemma vectors64_chunks : (2 ≤ length (Deque.data_ vectors64))%nat.
Proof. vm_compute. lia. Qed.

Lemma nonempty64v : replicate 64 [7%nat] ≠ [].
Proof. done. Qed.

Lemma small64v : Z.of_nat (length (replicate 64 [7%nat])) < 2 ^ 31.
Proof. simpl. lia. Qed.

Lemma deque_growth_witness :
  Deque.holds deque64 (replicate 64 7%nat) ∧
  Deque.end_ deque64 = (Z.of_nat (length (Deque.data_ deque64)) - 1,
                        Deque.chunk_size - 1) ∧
  Deque.begin_ deque64 = (0, 0) ∧
  Deque.holds vectors64 (replicate 64 [7%nat]) ∧
  Deque.end_ vectors64
  = (Z.of_nat (length (Deque.data_ vectors64)) - 1,
     Deque.chunk_size - 1) ∧
  Deque.begin_ vectors64 = (0, 0) ∧
  (∃ d', Deque.push_back (Some 8%nat) deque64 = Ret d' () ∧
         Deque.holds d' (replicate 64 7%nat ++ [8%nat]) ∧
         Z.of_nat (length (Deque.data_ d'))
         = 2 * Z.of_nat (length (Deque.data_ deque64))) ∧
  (∃ d', Deque.push_front (Some 8%nat) deque64 = Ret d' () ∧
         Deque.holds d' (8%nat :: replicate 64 7%nat) ∧
         Z.of_nat (length (Deque.data_ d'))
         = 2 * Z.of_nat (length (Deque.data_ deque64))) ∧
  (∀ c, Deque.push_back c vectors64 = Undefined) ∧
  (∀ c, Deque.push_front c vectors64 = Undefined).
Proof.
  split; [exact deque64_holds|]. split; [exact deque64_full|].
  split; [exact deque64_full_front|]. split; [exact vectors64_holds|].
  split; [exact vectors64_full|]. split; [exact vectors64_full_front|].
  split.
  { exact (proj1 (deque_growth deque64 (replicate 64 7%nat) 8%nat
                    deque64_holds nonempty64 small64) deque64_full). }
  split.
  { exact (proj2 (deque_growth deque64 (replicate 64 7%nat) 8%nat
                    deque64_holds nonempty64 small64)
             deque64_full_front deque64_chunks). }
  split.
  { exact (proj1 (deque_growth vectors64 (replicate 64 [7%nat]) [8%nat]
                    vectors64_holds nonempty64v small64v)
             vectors64_full). }
  exact (proj2 (deque_growth vectors64 (replicate 64 [7%nat]) [8%nat]
                  vectors64_holds nonempty64v small64v)
           vectors64_full_front vectors64_chunks).
Defined.

Lemma nonempty33 : replicate 33 7%nat ≠ [].
Proof. done. Qed.

Lemma smaller33 : Z.of_nat (length (replicate 33 7%nat)) < 2 ^ 31 - 1.
Proof. simpl. lia. Qed.

Lemma deque_push_back_throws_witness :
  Deque.holds deque33 (replicate 33 7%nat) ∧
  ∃ d', Deque.push_back None deque33 = Thrown d' ∧
        Deque.size d' = Z.of_nat (length (replicate 33 7%nat)) + 1 ∧
        (∀ i x, replicate 33 7%nat !! i = Some x →
                Deque.index (Z.of_nat i) d' = Some x) ∧
        Deque.index (Z.of_nat (length (replicate 33 7%nat))) d' = None ∧
        Deque.at_ (Z.of_nat (length (replicate 33 7%nat))) d' = Undefined.
Proof.
  split; [exact deque33_holds|].
  exact (deque_push_back_throws deque33 (replicate 33 7%nat) deque33_holds
           nonempty33 smaller33 deque33_short).
Defined.

Lemma deque_clear_witness :
  Deque.holds deque33 (replicate 33 7%nat) ∧
  Deque.clear deque33 = Some Deque.construct ∧
  Deque.holds (T := nat) Deque.construct [] ∧
  Deque.push_back (T := nat) None Deque.construct
  = Thrown Deque.construct.
Proof.
  split; [exact deque33_holds|]. split.
  - exact (proj1 (deque_clear deque33 (replicate 33 7%nat) deque33_holds
                    small33)).
  - split.
    + exact holds_default.
    + exact (proj2 (proj2 (deque_clear Deque.construct [] holds_default
                             small0)) eq_refl).
Defined.
End DequeWitnesses.
